(** * her-voice-ui: the session relay of the voice server

    A shallow embedding of [src/server/gemini_client.py] and
    [src/server/main.py]:

    - [Wav]: the container framer [pcm_to_wav] (with [struct.pack]'s range
      checks);
    - [Handler]: the response handler [handle_gemini_response] of
      [websocket_endpoint], with its playback buffer and the downstream
      websocket;
    - [Receive]: the inbound loop [receive_responses_task];
    - [Send]: the outbound loop [send_audio_task];
    - [Coordinator]: the supervising loop and the [finally] block of
      [run_gemini_session];
    - [Endpoint]: [websocket_endpoint] itself (credential test, [run_gemini],
      client message loop, teardown).

    Python integers are [Z], byte strings are [list byte], [str] is
    [string]; a raised exception is an explicit result. The tasks of a
    session run one at a time and give way at their awaits: a loop is a step
    function over the events it meets there, and a schedule is the list of
    these events, in the order the event loop runs them. *)

From Stdlib Require Import ZArith List Lia Bool String Ascii Strings.Byte.
Import ListNotations.
Open Scope Z_scope.

(** Byte strings and Python's [len]. *)
Definition bytes := list byte.

Definition len {A : Type} (l : list A) : Z := Z.of_nat (List.length l).

(** The option monad stands for "returns or raises". *)
Definition obind {A B : Type} (o : option A) (k : A -> option B) : option B :=
  match o with
  | Some a => k a
  | None => None
  end.

Notation "x <- e ;; k" := (obind e (fun x => k))
  (at level 61, e at next level, right associativity).

(* ===================================================================== *)
(** * The container framer ([gemini_client.py], [pcm_to_wav])            *)
(* ===================================================================== *)

Module Wav.

(** One byte of an integer, and back. *)
Definition byte_of_Z (z : Z) : byte :=
  match Byte.of_N (Z.to_N (z mod 256)) with
  | Some b => b
  | None => x00
  end.

Definition Z_of_byte (b : byte) : Z := Z.of_N (Byte.to_N b).

(** Little-endian encoding on [n] bytes, and the value of a little-endian
    byte string. *)
Fixpoint le_bytes (n : nat) (z : Z) : bytes :=
  match n with
  | O => []
  | S k => byte_of_Z z :: le_bytes k (z / 256)
  end.

Fixpoint le_value (bs : bytes) : Z :=
  match bs with
  | [] => 0
  | b :: rest => Z_of_byte b + 256 * le_value rest
  end.

(** [struct.pack('<I', v)] and [struct.pack('<H', v)]: four and two
    little-endian bytes; [struct.error] when [v] does not fit the unsigned
    field. *)
Definition fits (width : nat) (v : Z) : bool :=
  (0 <=? v) && (v <? 256 ^ Z.of_nat width).

Definition pack (width : nat) (v : Z) : option bytes :=
  if fits width v then Some (le_bytes width v) else None.

Definition pack_I : Z -> option bytes := pack 4.
Definition pack_H : Z -> option bytes := pack 2.

(** [io.BytesIO.write] appends to the buffer. *)
Definition write (wav_buffer data : bytes) : bytes := wav_buffer ++ data.

Definition RIFF : bytes := list_byte_of_string "RIFF".
Definition WAVE : bytes := list_byte_of_string "WAVE".
Definition fmt_ : bytes := list_byte_of_string "fmt ".
Definition data : bytes := list_byte_of_string "data".

(** [pcm_to_wav(pcm_data, sample_rate, channels, sample_width)], statement
    by statement; [None] is the [struct.error] of a failed pack. *)
Definition pcm_to_wav (pcm_data : bytes) (sample_rate channels sample_width : Z)
  : option bytes :=
  let byte_rate := sample_rate * channels * sample_width in
  let block_align := channels * sample_width in
  let data_size := len pcm_data in
  let file_size := 36 + data_size in
  let wav_buffer := [] in
  let wav_buffer := write wav_buffer RIFF in
  p <- pack_I file_size ;;
  let wav_buffer := write wav_buffer p in
  let wav_buffer := write wav_buffer WAVE in
  let wav_buffer := write wav_buffer fmt_ in
  p <- pack_I 16 ;;
  let wav_buffer := write wav_buffer p in
  p <- pack_H 1 ;;
  let wav_buffer := write wav_buffer p in
  p <- pack_H channels ;;
  let wav_buffer := write wav_buffer p in
  p <- pack_I sample_rate ;;
  let wav_buffer := write wav_buffer p in
  p <- pack_I byte_rate ;;
  let wav_buffer := write wav_buffer p in
  p <- pack_H block_align ;;
  let wav_buffer := write wav_buffer p in
  p <- pack_H (sample_width * 8) ;;
  let wav_buffer := write wav_buffer p in
  let wav_buffer := write wav_buffer data in
  p <- pack_I data_size ;;
  let wav_buffer := write wav_buffer p in
  let wav_buffer := write wav_buffer pcm_data in
  Some wav_buffer.

(** The defaults of the signature. *)
Definition default_sample_rate : Z := 24000.
Definition default_channels : Z := 1.
Definition default_sample_width : Z := 2.

(** Reading the framed bytes back: the unsigned little-endian field of
    [width] bytes at offset [off], and the payload after the header. *)
Definition field (off width : nat) (w : bytes) : Z :=
  le_value (firstn width (skipn off w)).

Definition payload (w : bytes) : bytes := skipn 44 w.

(** The header the writes produce when every pack succeeds. *)
Definition header (data_size sample_rate channels sample_width : Z) : bytes :=
  RIFF ++ le_bytes 4 (36 + data_size) ++ WAVE ++ fmt_
    ++ le_bytes 4 16 ++ le_bytes 2 1 ++ le_bytes 2 channels
    ++ le_bytes 4 sample_rate
    ++ le_bytes 4 (sample_rate * channels * sample_width)
    ++ le_bytes 2 (channels * sample_width)
    ++ le_bytes 2 (sample_width * 8)
    ++ data ++ le_bytes 4 data_size.

(** The format parameters whose header fields fit their widths. *)
Definition params_fit (sample_rate channels sample_width : Z) : bool :=
  fits 2 channels && fits 4 sample_rate
    && fits 4 (sample_rate * channels * sample_width)
    && fits 2 (channels * sample_width) && fits 2 (sample_width * 8).

End Wav.

(* ===================================================================== *)
(** * The response handler ([main.py], [handle_gemini_response])         *)
(* ===================================================================== *)

Module Handler.

(** The [(response_type, data)] pairs the session passes to its
    [response_callback]. *)
Inductive response : Type :=
| audio (data : bytes)
| text (data : string)
| turn_complete
| interrupted
| error (data : string).

(** The JSON objects written to the client websocket, by their fields. The
    [data] of an audio message is the WAV byte string (the base64 text of the
    wire is a transport encoding of it). *)
Inductive message : Type :=
| Msg_audio (wav_data : bytes)
| Msg_transcript (text : string)
| Msg_assistant_silent
| Msg_interrupted
| Msg_error (message : string)
| Msg_server_log (message level : string)
| Msg_session_started.

Definition OUTPUT_SAMPLE_RATE : Z := 24000.
Definition BUFFER_TARGET_SIZE : Z := 48000.

(** The variables of [websocket_endpoint] the handler closes over
    ([nonlocal is_connected, audio_chunk_count, audio_buffer]) and the
    websocket, as the list of messages it has taken, oldest first. *)
Record state : Type := mkState {
  is_connected : bool;
  audio_chunk_count : Z;
  audio_buffer : bytes;
  sent : list message
}.

Definition initial : state :=
  {| is_connected := true; audio_chunk_count := 0; audio_buffer := [];
     sent := [] |}.

Definition set_is_connected (b : bool) (st : state) : state :=
  {| is_connected := b; audio_chunk_count := audio_chunk_count st;
     audio_buffer := audio_buffer st; sent := sent st |}.

Definition set_audio_chunk_count (n : Z) (st : state) : state :=
  {| is_connected := is_connected st; audio_chunk_count := n;
     audio_buffer := audio_buffer st; sent := sent st |}.

Definition set_audio_buffer (b : bytes) (st : state) : state :=
  {| is_connected := is_connected st;
     audio_chunk_count := audio_chunk_count st;
     audio_buffer := b; sent := sent st |}.

Definition set_sent (l : list message) (st : state) : state :=
  {| is_connected := is_connected st;
     audio_chunk_count := audio_chunk_count st;
     audio_buffer := audio_buffer st; sent := l |}.

(** Statements that update the state and may raise: the state at the point
    of the exception is kept, as a Python [except] clause finds it. *)
Definition M (A : Type) : Type := state -> state * option A.

Definition ret {A : Type} (a : A) : M A := fun st => (st, Some a).

Definition raise {A : Type} : M A := fun st => (st, None).

Definition bind {A B : Type} (m : M A) (k : A -> M B) : M B :=
  fun st =>
    match m st with
    | (st', Some a) => k a st'
    | (st', None) => (st', None)
    end.

Definition get : M state := fun st => (st, Some st).

Definition modify (f : state -> state) : M unit := fun st => (f st, Some tt).

Definition lift {A : Type} (o : option A) : M A :=
  match o with
  | Some a => ret a
  | None => raise
  end.

Definition try_except (body : M unit) (handler : state -> state) : state -> state :=
  fun st =>
    match body st with
    | (st', Some _) => st'
    | (st', None) => handler st'
    end.

Declare Scope handler_scope.
Delimit Scope handler_scope with handler.
Notation "x <~ e ;; k" := (bind e (fun x => k))
  (at level 61, e at next level, right associativity) : handler_scope.
Notation "e ;;; k" := (bind e (fun _ => k))
  (at level 61, right associativity) : handler_scope.

Section WithWebsocket.
(** [websocket.send_text] returns or raises (a closed or broken client
    connection): [ws_accepts log m] tells whether the websocket that has
    taken [log] takes [m]. *)
Variable ws_accepts : list message -> message -> bool.

Definition send_text (m : message) : M unit :=
  fun st =>
    if ws_accepts (sent st) m
    then (set_sent (sent st ++ [m]) st, Some tt)
    else (st, None).

Local Open Scope handler_scope.

(** The branch [response_type == "audio"]. *)
Definition on_audio (data : bytes) : M unit :=
  modify (fun st => set_audio_chunk_count (audio_chunk_count st + 1) st) ;;;
  modify (fun st => set_audio_buffer (audio_buffer st ++ data) st) ;;;
  st <~ get ;;
  if BUFFER_TARGET_SIZE <=? len (audio_buffer st) then
    wav_data <~ lift (Wav.pcm_to_wav (audio_buffer st) OUTPUT_SAMPLE_RATE
                        Wav.default_channels Wav.default_sample_width) ;;
    send_text (Msg_audio wav_data) ;;;
    modify (set_audio_buffer [])
  else ret tt.

(** The branch [response_type == "turn_complete"]. *)
Definition on_turn_complete : M unit :=
  st <~ get ;;
  (if 0 <? len (audio_buffer st) then
     wav_data <~ lift (Wav.pcm_to_wav (audio_buffer st) OUTPUT_SAMPLE_RATE
                         Wav.default_channels Wav.default_sample_width) ;;
     send_text (Msg_audio wav_data) ;;;
     modify (set_audio_buffer [])
   else ret tt) ;;;
  send_text Msg_assistant_silent.

Definition dispatch (r : response) : M unit :=
  match r with
  | audio data => on_audio data
  | text data => send_text (Msg_transcript data)
  | turn_complete => on_turn_complete
  | interrupted => send_text Msg_interrupted
  | error data => send_text (Msg_error data)
  end.

(** [handle_gemini_response(response_type, data)]: nothing when the client
    is gone; any exception of the body clears [is_connected]. *)
Definition handle_gemini_response (st : state) (r : response) : state :=
  if negb (is_connected st) then st
  else try_except (dispatch r) (set_is_connected false) st.

(** [send_log(message, level)]: nothing when the client is gone, and an
    exception of the send is swallowed. *)
Definition send_log (msg level : string) (st : state) : state :=
  if negb (is_connected st) then st
  else try_except (send_text (Msg_server_log msg level)) (fun st' => st') st.

(** The handler over the responses of a session, in order. *)
Definition run (st : state) (rs : list response) : state :=
  fold_left handle_gemini_response rs st.

End WithWebsocket.

(** A websocket that takes every message. *)
Definition reliable : list message -> message -> bool := fun _ _ => true.

(** The PCM bytes carried by the messages of a log, and the audio bytes of a
    list of responses, both in order. *)
Definition pcm_of (m : message) : bytes :=
  match m with
  | Msg_audio wav_data => Wav.payload wav_data
  | _ => []
  end.

Definition pcm_of_log (log : list message) : bytes := flat_map pcm_of log.

Definition audio_of (r : response) : bytes :=
  match r with
  | audio data => data
  | _ => []
  end.

Definition received (rs : list response) : bytes := flat_map audio_of rs.

Definition is_audio_message (m : message) : bool :=
  match m with
  | Msg_audio _ => true
  | _ => false
  end.

(** The framing the handler asks for. *)
Definition frame (b : bytes) : option bytes :=
  Wav.pcm_to_wav b OUTPUT_SAMPLE_RATE Wav.default_channels
    Wav.default_sample_width.

(** Every Audio message of a log carries at least one PCM byte. *)
Definition carries_audio (m : message) : Prop :=
  is_audio_message m = true -> 1 <= len (pcm_of m).

End Handler.

(* ===================================================================== *)
(** * Python's [str] operations used by the loops                        *)
(* ===================================================================== *)

Module Str.

(** [needle in hay]. *)
Fixpoint contains (needle hay : string) : bool :=
  if String.prefix needle hay then true
  else match hay with
       | EmptyString => false
       | String _ rest => contains needle rest
       end.

(** [s.lower()], on the ASCII letters. *)
Definition lower_ascii (c : ascii) : ascii :=
  let n := nat_of_ascii c in
  if ((65 <=? n) && (n <=? 90))%nat then ascii_of_nat (n + 32) else c.

Fixpoint lower (s : string) : string :=
  match s with
  | EmptyString => EmptyString
  | String c rest => String (lower_ascii c) (lower rest)
  end.

(** The connection-closed signature both loops test [str(e)] against. *)
Definition connection_closed (error_str : string) : bool :=
  contains "1008" error_str || contains "ConnectionClosed" error_str.

(** The cancellation marker of the receive loop. *)
Definition cancellation (error_str : string) : bool :=
  contains "cancelled" (lower error_str).

End Str.

(** The calls a session makes to the two callbacks it is given:
    [response_callback(type, data)] and [log_callback(msg, level)] (through
    the local [log]). *)
Inductive call : Type :=
| Response (r : Handler.response)
| Log (msg level : string).

(** A loop task: still in its loop, or returned. *)
Inductive status : Type :=
| Running
| Returned.

(* ===================================================================== *)
(** * The inbound loop ([gemini_client.py], [receive_responses_task])    *)
(* ===================================================================== *)

Module Receive.

(** What [session.receive()] yields: [part.inline_data.data] and
    [part.text] of the parts of [server_content.model_turn], and the two
    flags of [server_content]. *)
Record part : Type := mkPart {
  inline_data : option bytes;
  text : option string
}.

Record server_content : Type := mkContent {
  interrupted : bool;
  model_turn : option (list part);
  turn_complete : bool
}.

(** [if part.text:] holds for a string that is not empty. *)
Definition truthy (s : option string) : option string :=
  match s with
  | Some EmptyString => None
  | other => other
  end.

(** The callbacks of one part, in the order of the two [if]s. *)
Definition part_calls (p : part) : list call :=
  match inline_data p with
  | Some audio_bytes => [Response (Handler.audio audio_bytes)]
  | None => []
  end
  ++ match truthy (text p) with
     | Some t => [Response (Handler.text t)]
     | None => []
     end.

(** The callbacks of one response whose [server_content] is set: an
    interrupted one is reported and the rest of it is skipped
    ([continue]). *)
Definition content_calls (content : server_content) : list call :=
  if interrupted content then [Response Handler.interrupted]
  else
    match model_turn content with
    | Some parts => flat_map part_calls parts
    | None => []
    end
    ++ (if turn_complete content then [Response Handler.turn_complete]
        else []).

Definition response_calls (server : option server_content) : list call :=
  match server with
  | Some content => content_calls content
  | None => []
  end.

(** What the loop meets at its awaits. [Yields]: the iterator yields a
    response and the body of the [async for] runs to its end, each callback
    returning with no other task in between. [Begins]: the iterator yields a
    response and the body runs to the await of its first callback, where it
    stays while other tasks run; [Resumes]: the callback awaited returns and
    the body goes on to the await of its next callback, or to its end.
    [Raises]: an Exception of the iterator or of the callback awaited, the
    log call of the [except] clause returning; [LogRaises]: the same, the log
    call raising [exc], which the outer [except Exception] reports with
    [response_callback("error", exc)]; [report] is the exception of that
    call, if it raises. *)
Inductive event : Type :=
| Yields (server : option server_content)  (* the iterator yields *)
| IteratorEnds                             (* the iterator is exhausted *)
| Raises (error_str : string)              (* an Exception, with [str(e)] *)
| Cancelled                                (* asyncio.CancelledError *)
| SetElsewhere                             (* another task sets the event *)
| Begins (server : option server_content)
| Resumes
| LogRaises (error_str exc : string) (report : option string).

(** Where the loop stands: at the [while] test, at the iterator inside the
    [async for], or at the await of a callback in the body. *)
Inductive place : Type :=
| AtWhile
| InFor
| InBody.

(** [pending]: the callbacks the body in progress has still to make, after
    the one it awaits; [fault]: the exception that ended the task, if one
    did. *)
Record state : Type := mkState {
  shutdown_event : bool;
  turn_count : Z;
  at_ : place;
  task : status;
  calls : list call;
  pending : list call;
  fault : option string
}.

Definition initial : state :=
  {| shutdown_event := false; turn_count := 0; at_ := AtWhile;
     task := Running; calls := []; pending := []; fault := None |}.

Definition finish (st : state) : state :=
  {| shutdown_event := shutdown_event st; turn_count := turn_count st;
     at_ := at_ st; task := Returned; calls := calls st;
     pending := pending st; fault := fault st |}.

(** An exception leaves the task. *)
Definition fail (exc : string) (st : state) : state :=
  {| shutdown_event := shutdown_event st; turn_count := turn_count st;
     at_ := at_ st; task := Returned; calls := calls st;
     pending := pending st; fault := Some exc |}.

Definition set_shutdown (st : state) : state :=
  {| shutdown_event := true; turn_count := turn_count st;
     at_ := at_ st; task := task st; calls := calls st;
     pending := pending st; fault := fault st |}.

Definition goto (p : place) (st : state) : state :=
  {| shutdown_event := shutdown_event st; turn_count := turn_count st;
     at_ := p; task := task st; calls := calls st;
     pending := pending st; fault := fault st |}.

Definition emit (cs : list call) (st : state) : state :=
  {| shutdown_event := shutdown_event st; turn_count := turn_count st;
     at_ := at_ st; task := task st; calls := calls st ++ cs;
     pending := pending st; fault := fault st |}.

Definition set_pending (cs : list call) (st : state) : state :=
  {| shutdown_event := shutdown_event st; turn_count := turn_count st;
     at_ := at_ st; task := task st; calls := calls st;
     pending := cs; fault := fault st |}.

Definition count_turn (server : option server_content) (st : state) : state :=
  match server with
  | Some content =>
      if negb (interrupted content) && turn_complete content
      then {| shutdown_event := shutdown_event st;
              turn_count := turn_count st + 1;
              at_ := at_ st; task := task st; calls := calls st;
              pending := pending st; fault := fault st |}
      else st
  | None => st
  end.

(** The body makes the call [c]; [turn_count += 1] comes just before the
    turn-complete callback. *)
Definition make (c : call) (st : state) : state :=
  let st := emit [c] st in
  match c with
  | Response Handler.turn_complete =>
      {| shutdown_event := shutdown_event st;
         turn_count := turn_count st + 1;
         at_ := at_ st; task := task st; calls := calls st;
         pending := pending st; fault := fault st |}
  | _ => st
  end.

(** The body goes on: its next callback, or its end. *)
Definition continue (st : state) : state :=
  match pending st with
  | [] => goto InFor st
  | c :: rest => make c (set_pending rest st)
  end.

(** The log call of the [except Exception as e] clause of the inner
    [try]. *)
Definition error_log (error_str : string) : call :=
  if Str.connection_closed error_str
  then Log "❌ Gemini connection lost" "error"
  else Log ("⚠️ Receive error: " ++ error_str) "warn".

(** The [except Exception as e] clause of the inner [try], its log call
    returning. *)
Definition on_exception (error_str : string) (st : state) : state :=
  if Str.cancellation error_str then finish st
  else if Str.connection_closed error_str then
    finish (set_shutdown
              (emit [Log "❌ Gemini connection lost" "error"] st))
  else
    goto AtWhile
      (emit [Log ("⚠️ Receive error: " ++ error_str) "warn"] st).

(** The same clause when its log call raises [exc]: the event is not set,
    the outer [except Exception] makes the error callback and the task
    ends. *)
Definition on_log_exception (error_str exc : string) (report : option string)
    (st : state) : state :=
  if Str.cancellation error_str then finish st
  else
    let st := emit [error_log error_str; Response (Handler.error exc)] st in
    match report with
    | None => finish st
    | Some exc' => fail exc' st
    end.

(** One event at the iterator of the [async for]. *)
Definition in_for (e : event) (st : state) : state :=
  match e with
  | Yields server =>
      if shutdown_event st then finish st
      else count_turn server (emit (response_calls server) st)
  | Begins server =>
      if shutdown_event st then finish st
      else
        match response_calls server with
        | [] => st
        | c :: rest => make c (set_pending rest (goto InBody st))
        end
  | IteratorEnds =>
      if shutdown_event st then finish st else goto AtWhile st
  | Raises error_str => on_exception error_str st
  | LogRaises error_str exc report => on_log_exception error_str exc report st
  | Cancelled => finish st
  | SetElsewhere => set_shutdown st
  | Resumes => st
  end.

(** One event at the await of a callback: the rest of the body is given
    up on an exception. *)
Definition in_body (e : event) (st : state) : state :=
  match e with
  | Resumes => continue st
  | Raises error_str => on_exception error_str (set_pending [] st)
  | LogRaises error_str exc report =>
      on_log_exception error_str exc report (set_pending [] st)
  | Cancelled => finish st
  | SetElsewhere => set_shutdown st
  | _ => st
  end.

(** One event of the task. At the [while] test a set event ends the loop;
    otherwise the iterator is entered. *)
Definition step (st : state) (e : event) : state :=
  match e with
  | SetElsewhere => set_shutdown st
  | _ =>
      match task st with
      | Returned => st
      | Running =>
          match e with
          | Cancelled => finish st
          | _ =>
              match at_ st with
              | AtWhile =>
                  if shutdown_event st then finish st
                  else in_for e (goto InFor st)
              | InFor => in_for e st
              | InBody => in_body e st
              end
          end
      end
  end.

Definition receive_responses_task (st : state) (es : list event) : state :=
  fold_left step es st.

End Receive.

(* ===================================================================== *)
(** * The outbound loop ([gemini_client.py], [send_audio_task])          *)
(* ===================================================================== *)

Module Send.

(** How [await session.send(...)] ends, and the [except] clause after it. *)
Inductive outcome : Type :=
| Sent
| SendRaises (error_str : string)   (* an Exception, with [str(e)] *)
| SendCancelled                     (* asyncio.CancelledError *)
| SendFaults (error_str exc : string).
    (* an Exception, and the log call of the [except] clause raises [exc] *)

(** What happens around the loop. [Wait]: the loop tests the event and
    starts its wait on the queue, where it stays while other tasks run.
    [Turn o]: the loop goes on to its next test of the event; from the wait
    it takes what the queue gives (nothing is the timeout) and sends it,
    with no other test of the event; from the [while] test it makes the
    test, the wait and the send with no other task in between; [o] is the
    way the send ends, when the turn sends. [Cancelled]: a cancellation at
    an await. [Put]: a [put] by the producer. [SetElsewhere]: the event is
    set by another task. *)
Inductive event : Type :=
| Turn (o : outcome)
| Cancelled
| Put (item : option bytes)
| SetElsewhere
| Wait.

(** [audio_queue] holds chunks and the [None] sentinel, oldest first;
    [forwarded] are the chunks [session.send] took; [waiting]: the loop is in
    [audio_queue.get()], past the test of the event; [fault]: the exception
    that ended the task, if one did. *)
Record state : Type := mkState {
  shutdown_event : bool;
  audio_queue : list (option bytes);
  chunks_sent : Z;
  forwarded : list bytes;
  task : status;
  calls : list call;
  waiting : bool;
  fault : option string
}.

Definition initial : state :=
  {| shutdown_event := false; audio_queue := []; chunks_sent := 0;
     forwarded := []; task := Running; calls := []; waiting := false;
     fault := None |}.

Definition finish (st : state) : state :=
  {| shutdown_event := shutdown_event st; audio_queue := audio_queue st;
     chunks_sent := chunks_sent st; forwarded := forwarded st;
     task := Returned; calls := calls st; waiting := waiting st;
     fault := fault st |}.

(** An exception leaves the task. *)
Definition fail (exc : string) (st : state) : state :=
  {| shutdown_event := shutdown_event st; audio_queue := audio_queue st;
     chunks_sent := chunks_sent st; forwarded := forwarded st;
     task := Returned; calls := calls st; waiting := waiting st;
     fault := Some exc |}.

Definition set_shutdown (st : state) : state :=
  {| shutdown_event := true; audio_queue := audio_queue st;
     chunks_sent := chunks_sent st; forwarded := forwarded st;
     task := task st; calls := calls st; waiting := waiting st;
     fault := fault st |}.

Definition set_queue (q : list (option bytes)) (st : state) : state :=
  {| shutdown_event := shutdown_event st; audio_queue := q;
     chunks_sent := chunks_sent st; forwarded := forwarded st;
     task := task st; calls := calls st; waiting := waiting st;
     fault := fault st |}.

Definition set_waiting (w : bool) (st : state) : state :=
  {| shutdown_event := shutdown_event st; audio_queue := audio_queue st;
     chunks_sent := chunks_sent st; forwarded := forwarded st;
     task := task st; calls := calls st; waiting := w;
     fault := fault st |}.

Definition emit (cs : list call) (st : state) : state :=
  {| shutdown_event := shutdown_event st; audio_queue := audio_queue st;
     chunks_sent := chunks_sent st; forwarded := forwarded st;
     task := task st; calls := calls st ++ cs; waiting := waiting st;
     fault := fault st |}.

Definition forward (audio_data : bytes) (st : state) : state :=
  {| shutdown_event := shutdown_event st; audio_queue := audio_queue st;
     chunks_sent := chunks_sent st + 1;
     forwarded := forwarded st ++ [audio_data];
     task := task st; calls := calls st; waiting := waiting st;
     fault := fault st |}.

(** The log call of the [except Exception as e] clause. *)
Definition error_log (error_str : string) : call :=
  if Str.connection_closed error_str
  then Log "❌ Gemini connection closed" "error"
  else Log ("❌ Error sending audio: " ++ error_str) "error".

(** The [except Exception as e] clause, its log call returning. *)
Definition on_exception (error_str : string) (st : state) : state :=
  if Str.connection_closed error_str then
    finish (set_shutdown
              (emit [Log "❌ Gemini connection closed" "error"] st))
  else emit [Log ("❌ Error sending audio: " ++ error_str) "error"] st.

(** What follows the wait on the queue: an empty queue is the timeout
    ([continue]), then the sentinel ([break]), the send. The event is not
    tested. *)
Definition after_get (o : outcome) (st : state) : state :=
  match audio_queue st with
  | [] => set_waiting false st
  | None :: rest => finish (set_waiting false (set_queue rest st))
  | Some audio_data :: rest =>
      let st := set_waiting false (set_queue rest st) in
      match o with
      | Sent => forward audio_data st
      | SendRaises error_str => on_exception error_str st
      | SendCancelled => finish st
      | SendFaults error_str exc => fail exc (emit [error_log error_str] st)
      end
  end.

(** One turn of the [while] loop, from the wait on the queue or from the
    test of the event. *)
Definition turn (o : outcome) (st : state) : state :=
  if waiting st then after_get o st
  else if shutdown_event st then finish st
  else after_get o st.

(** The test of the event and the start of the wait. *)
Definition wait (st : state) : state :=
  if waiting st then st
  else if shutdown_event st then finish st
  else set_waiting true st.

Definition step (st : state) (e : event) : state :=
  match e with
  | Put item => set_queue (audio_queue st ++ [item]) st
  | SetElsewhere => set_shutdown st
  | Cancelled =>
      match task st with
      | Running => finish st
      | Returned => st
      end
  | Turn o =>
      match task st with
      | Running => turn o st
      | Returned => st
      end
  | Wait =>
      match task st with
      | Running => wait st
      | Returned => st
      end
  end.

Definition send_audio_task (st : state) (es : list event) : state :=
  fold_left step es st.

End Send.

(* ===================================================================== *)
(** * The coordinator ([gemini_client.py], [run_gemini_session])         *)
(* ===================================================================== *)

Module Coordinator.

Inductive task_id : Type :=
| send_task
| receive_task.

(** A task as [asyncio.wait] and [await task] find it. *)
Inductive task_state : Type :=
| Pending
| Done                       (* returned *)
| Failed (exc : string)      (* ended by an exception that is not a cancellation *)
| TaskCancelled.             (* ended by asyncio.CancelledError *)

(** What the coordinator does to the event, the tasks and the remote
    connection. *)
Inductive action : Type :=
| OpenConnection
| CreateTask (t : task_id)
| SetShutdown
| Cancel (t : task_id)
| Await (t : task_id)
| CloseConnection.

(** What the supervising loop meets while it waits: [asyncio.wait] returns
    (on its one-second timeout or a task ending) with the tasks as they are,
    the coordinator itself is cancelled, another task sets the event. *)
Inductive wake : Type :=
| Wait (send receive : task_state)
| WaitCancelled
| SetElsewhere.

(** How a run ends. *)
Inductive result : Type :=
| Supervising                (* the loop is still waiting *)
| Completed                  (* the function returns *)
| Raised (exc : string).     (* an exception leaves the function *)

Definition is_done (t : task_state) : bool :=
  match t with
  | Pending => false
  | _ => true
  end.

(** [for task in done: if task.exception(): shutdown_event.set(); break],
    over the done tasks in the order send, receive. [task.exception()] of a
    cancelled task raises [CancelledError]: [None] here. Otherwise, whether
    the event was set. *)
Definition check (t : task_state) (rest : option bool) : option bool :=
  match t with
  | Pending => rest
  | Done => rest
  | Failed _ => Some true
  | TaskCancelled => None
  end.

Definition exceptions (send receive : task_state) : option bool :=
  check send (check receive (Some false)).

(** The loop [while not shutdown_event.is_set()], from inside its wait:
    the event afterwards, the actions, whether the loop is left. *)
Fixpoint waiting (shutdown_event : bool) (ws : list wake)
  : bool * list action * bool :=
  match ws with
  | [] => (shutdown_event, [], false)
  | SetElsewhere :: rest => waiting true rest
  | WaitCancelled :: _ => (shutdown_event, [], true)
  | Wait send receive :: rest =>
      match exceptions send receive with
      | None => (shutdown_event, [], true)
      | Some set =>
          let acts := if set then [SetShutdown] else [] in
          let shutdown_event := shutdown_event || set in
          if is_done send && is_done receive then (shutdown_event, acts, true)
          else if shutdown_event then (shutdown_event, acts, true)
          else
            let '(s, acts', exited) := waiting shutdown_event rest in
            (s, acts ++ acts', exited)
      end
  end.

Definition supervise (shutdown_event : bool) (ws : list wake)
  : bool * list action * bool :=
  if shutdown_event then (shutdown_event, [], true)
  else waiting shutdown_event ws.

(** How [await task] ends in the [finally] block, after the cancel. *)
Inductive awaited : Type :=
| AwaitReturns
| AwaitCancelled
| AwaitRaises (exc : string).

(** [for task in [send_task, receive_task]: try: await task; except
    asyncio.CancelledError: pass]: the awaits made and the exception that
    leaves the loop, if one does. *)
Fixpoint await_all (final : task_id -> awaited) (ts : list task_id)
  : list action * option string :=
  match ts with
  | [] => ([], None)
  | t :: rest =>
      match final t with
      | AwaitRaises exc => ([Await t], Some exc)
      | _ => let '(acts, r) := await_all final rest in (Await t :: acts, r)
      end
  end.

(** The [finally] block. *)
Definition finally_ (final : task_id -> awaited) : list action * option string :=
  let '(acts, r) := await_all final [send_task; receive_task] in
  ([SetShutdown; Cancel send_task; Cancel receive_task] ++ acts, r).

(** [run_gemini_session] from [client.aio.live.connect] on: [connect] is
    the exception of a failed connection, if it fails; the [async with]
    closes the connection on every way out of its body. *)
Record run : Type := mkRun {
  shutdown_event : bool;
  actions : list action;
  outcome : result
}.

Definition run_gemini_session (connect : option string) (shutdown_event : bool)
    (ws : list wake) (final : task_id -> awaited) : run :=
  match connect with
  | Some exc => mkRun shutdown_event [] (Raised exc)
  | None =>
      let start := [OpenConnection; CreateTask send_task;
                    CreateTask receive_task] in
      let '(s, acts, exited) := supervise shutdown_event ws in
      if exited then
        let '(facts, r) := finally_ final in
        mkRun true (start ++ acts ++ facts ++ [CloseConnection])
          match r with
          | Some exc => Raised exc
          | None => Completed
          end
      else mkRun s (start ++ acts) Supervising
  end.

(** The teardown sequence in full. *)
Definition teardown : list action :=
  [SetShutdown; Cancel send_task; Cancel receive_task;
   Await send_task; Await receive_task; CloseConnection].

End Coordinator.

(* ===================================================================== *)
(** * A session: the two loops under the coordinator                     *)
(* ===================================================================== *)

Module Session.

(** What the event loop runs next. *)
Inductive event : Type :=
| SendTurn (o : Send.outcome)        (* a turn of the send loop *)
| SendWait                           (* the send loop starts its wait *)
| Receive (e : Receive.event)        (* the receive loop meets [e] *)
| Wake                               (* the coordinator's wait returns *)
| Put (item : option bytes)          (* the endpoint puts on the queue *)
| SetShutdown                        (* the endpoint sets the event *)
| CancelSession.                     (* the endpoint cancels the session task *)

(** The event is one object shared by the loops and the coordinator; the
    calls to the callbacks are kept in the order they are made. *)
Record state : Type := mkState {
  shutdown_event : bool;
  send : Send.state;
  receive : Receive.state;
  calls : list call;
  actions : list Coordinator.action;
  outcome : Coordinator.result
}.

Definition share_send (b : bool) (st : Send.state) : Send.state :=
  if b then Send.set_shutdown st else st.

Definition share_receive (b : bool) (st : Receive.state) : Receive.state :=
  if b then Receive.set_shutdown st else st.

(** A loop task as the coordinator finds it. The loops catch their
    cancellation: a task ends by returning, or by the exception kept in
    [fault]. *)
Definition observe (t : status) (fault : option string)
  : Coordinator.task_state :=
  match t with
  | Running => Coordinator.Pending
  | Returned =>
      match fault with
      | Some exc => Coordinator.Failed exc
      | None => Coordinator.Done
      end
  end.

(** How [await task] ends for a task that is done. *)
Definition awaited_of (fault : option string) : Coordinator.awaited :=
  match fault with
  | Some exc => Coordinator.AwaitRaises exc
  | None => Coordinator.AwaitReturns
  end.

(** The calls a step of a loop added. *)
Definition added (before after : list call) : list call :=
  skipn (List.length before) after.

(** The [finally] block and the end of the [async with]: the tasks are
    cancelled (a loop that runs returns on the cancellation) and awaited; a
    task that an exception ended raises it at its await. *)
Definition finalize (acts : list Coordinator.action) (st : state) : state :=
  let send' := Send.step (Send.set_shutdown (send st)) Send.Cancelled in
  let receive' := Receive.step (Receive.set_shutdown (receive st))
                    Receive.Cancelled in
  let final := fun t => match t with
                        | Coordinator.send_task => awaited_of (Send.fault send')
                        | Coordinator.receive_task =>
                            awaited_of (Receive.fault receive')
                        end in
  let '(facts, r) := Coordinator.finally_ final in
  {| shutdown_event := true;
     send := send';
     receive := receive';
     calls := calls st;
     actions := actions st ++ acts ++ facts ++ [Coordinator.CloseConnection];
     outcome := match r with
                | Some exc => Coordinator.Raised exc
                | None => Coordinator.Completed
                end |}.

(** The coordinator's turn on a wake [w]. *)
Definition coordinate (w : Coordinator.wake) (st : state) : state :=
  let '(s, acts, exited) := Coordinator.waiting (shutdown_event st) [w] in
  if exited then finalize acts st
  else {| shutdown_event := s; send := share_send s (send st);
          receive := share_receive s (receive st); calls := calls st;
          actions := actions st ++ acts; outcome := outcome st |}.

Definition model : string := "gemini-2.5-flash-preview-native-audio-dialog".

(** [run_gemini_session] up to the first wait of the supervising loop. *)
Definition start (connect : option string) (shutdown_event : bool) : state :=
  let connecting := Log ("🔌 Connecting to Gemini Live (" ++ model ++ ")...") "info" in
  match connect with
  | Some exc =>
      {| shutdown_event := shutdown_event;
         send := share_send shutdown_event Send.initial;
         receive := share_receive shutdown_event Receive.initial;
         calls := [connecting]; actions := [];
         outcome := Coordinator.Raised exc |}
  | None =>
      let st :=
        {| shutdown_event := shutdown_event;
           send := share_send shutdown_event Send.initial;
           receive := share_receive shutdown_event Receive.initial;
           calls := [connecting; Log "✅ Connected to Gemini Live" "info"];
           actions := [Coordinator.OpenConnection;
                       Coordinator.CreateTask Coordinator.send_task;
                       Coordinator.CreateTask Coordinator.receive_task];
           outcome := Coordinator.Supervising |} in
      if shutdown_event then finalize [] st else st
  end.

Definition step (st : state) (e : event) : state :=
  match outcome st with
  | Coordinator.Supervising =>
      match e with
      | SendTurn o =>
          let s' := Send.step (send st) (Send.Turn o) in
          let b := Send.shutdown_event s' in
          {| shutdown_event := b; send := s';
             receive := share_receive b (receive st);
             calls := calls st ++ added (Send.calls (send st)) (Send.calls s');
             actions := actions st; outcome := outcome st |}
      | SendWait =>
          let s' := Send.step (send st) Send.Wait in
          {| shutdown_event := shutdown_event st; send := s';
             receive := receive st; calls := calls st;
             actions := actions st; outcome := outcome st |}
      | Receive e =>
          let r' := Receive.step (receive st) e in
          let b := Receive.shutdown_event r' in
          {| shutdown_event := b; send := share_send b (send st);
             receive := r';
             calls := calls st
                      ++ added (Receive.calls (receive st)) (Receive.calls r');
             actions := actions st; outcome := outcome st |}
      | Wake =>
          coordinate
            (Coordinator.Wait
               (observe (Send.task (send st)) (Send.fault (send st)))
               (observe (Receive.task (receive st))
                  (Receive.fault (receive st)))) st
      | Put item =>
          {| shutdown_event := shutdown_event st;
             send := Send.step (send st) (Send.Put item);
             receive := receive st; calls := calls st;
             actions := actions st; outcome := outcome st |}
      | SetShutdown =>
          {| shutdown_event := true; send := Send.set_shutdown (send st);
             receive := Receive.set_shutdown (receive st);
             calls := calls st; actions := actions st;
             outcome := outcome st |}
      | CancelSession => coordinate Coordinator.WaitCancelled st
      end
  | _ => st
  end.

Definition run (st : state) (es : list event) : state := fold_left step es st.

(** The loops and the coordinator see one event. *)
Definition shared (s : state) : Prop :=
  Send.shutdown_event (send s) = shutdown_event s
  /\ Receive.shutdown_event (receive s) = shutdown_event s.

End Session.

(* ===================================================================== *)
(** * The endpoint ([main.py], [websocket_endpoint])                     *)
(* ===================================================================== *)

Module Endpoint.

(** What [websocket.receive()] gives the message loop: a disconnect
    message, binary data, the control message [end_session], other text
    that keeps the loop going (a JSON object of another type, or text that is
    not JSON), text that is JSON but no object (on which [data.get] raises),
    or an exception. *)
Inductive client_message : Type :=
| Disconnect
| Binary (data : bytes)
| EndSession
| OtherText
| ReceiveRaises
| NotAnObject.

Inductive event : Type :=
| Client (m : client_message)
| Gemini (e : Session.event).

Inductive phase : Type :=
| Serving           (* in the message loop *)
| Ended             (* the endpoint returned *)
| Escaped           (* an exception left the endpoint *)
| Leaving.          (* in the [finally] block, at [await gemini_task] *)

(** [client]: the variables the handler shares with the endpoint and the
    websocket; [session]: the task [gemini_task], once created, with the
    queue and the event made for it; [closed]: the code and reason of
    [websocket.close]. *)
Record state : Type := mkState {
  client : Handler.state;
  session : option Session.state;
  closed : option (Z * string);
  at_ : phase
}.

Section WithWebsocket.
Variable ws_accepts : list Handler.message -> Handler.message -> bool.

(** The two callbacks [run_gemini] passes to [run_gemini_session]. *)
Definition deliver (st : Handler.state) (c : call) : Handler.state :=
  match c with
  | Response r => Handler.handle_gemini_response ws_accepts st r
  | Log msg level => Handler.send_log ws_accepts msg level st
  end.

(** The end of [run_gemini], after [run_gemini_session] returned or
    raised. *)
Definition after_session (r : Coordinator.result) (st : Handler.state)
  : Handler.state :=
  match r with
  | Coordinator.Supervising => st
  | Coordinator.Completed =>
      Handler.send_log ws_accepts "Gemini session ended" "warn" st
  | Coordinator.Raised error_msg =>
      Handler.handle_gemini_response ws_accepts
        (Handler.send_log ws_accepts ("Gemini error: " ++ error_msg) "error" st)
        (Handler.error error_msg)
  end.

Definition supervising (s : Session.state) : bool :=
  match Session.outcome s with
  | Coordinator.Supervising => true
  | _ => false
  end.

(** The session task runs [es]; its calls reach the client in order. *)
Definition gemini (es : list Session.event) (st : state) : state :=
  match session st with
  | None => st
  | Some s =>
      let s' := Session.run s es in
      let c := fold_left deliver
                 (Session.added (Session.calls s) (Session.calls s'))
                 (client st) in
      let c := if supervising s then after_session (Session.outcome s') c
               else c in
      {| client := c; session := Some s'; closed := closed st;
         at_ := at_ st |}
  end.

(** [await gemini_task] returns once the session task is done; there is
    no await when it is done already. *)
Definition settle (st : state) : state :=
  match session st with
  | Some s =>
      if supervising s then st
      else {| client := client st; session := session st;
              closed := closed st; at_ := Ended |}
  | None => {| client := client st; session := session st;
               closed := closed st; at_ := Ended |}
  end.

(** The [finally] block of the endpoint, up to [await gemini_task]: the
    cancellation is asked for, and reaches the session task when that task
    runs next ([Session.CancelSession]); the loops may run before it. *)
Definition finally_ (st : state) : state :=
  let st := {| client := Handler.set_is_connected false (client st);
               session := session st; closed := closed st;
               at_ := Leaving |} in
  settle (gemini [Session.SetShutdown; Session.Put None] st).

(** The test [while is_connected], made once a message has been handled. *)
Definition recheck (st : state) : state :=
  if Handler.is_connected (client st) then st else finally_ st.

Definition step (st : state) (e : event) : state :=
  match at_ st with
  | Serving =>
      match e with
      | Client Disconnect => finally_ st
      | Client EndSession => finally_ st
      | Client ReceiveRaises => finally_ st
      | Client NotAnObject => finally_ st
      | Client (Binary data) => recheck (gemini [Session.Put (Some data)] st)
      | Client OtherText => recheck st
      | Gemini e => gemini [e] st
      end
  | Leaving =>
      match e with
      | Client _ => st
      | Gemini Session.Wake => st
      | Gemini e => settle (gemini [e] st)
      end
  | _ => st
  end.

(** [websocket_endpoint], from the return of [websocket.accept()] on:
    [GEMINI_API_KEY] is the credential (the empty string when the
    environment has none), [connect] the exception of a failed connection
    to the remote model, [es] what happens while the endpoint serves. *)
Definition websocket_endpoint (GEMINI_API_KEY : string)
    (connect : option string) (es : list event) : state :=
  let c := Handler.initial in
  match GEMINI_API_KEY with
  | EmptyString =>
      match Handler.send_text ws_accepts
              (Handler.Msg_error "GEMINI_API_KEY not configured on server") c
      with
      | (c, Some _) =>
          {| client := c; session := None;
             closed := Some (1011, "API key not configured"%string);
             at_ := Ended |}
      | (c, None) =>
          {| client := c; session := None; closed := None; at_ := Escaped |}
      end
  | _ =>
      match Handler.send_text ws_accepts Handler.Msg_session_started c with
      | (c, None) =>
          {| client := c; session := Some (Session.start connect false);
             closed := None; at_ := Escaped |}
      | (c, Some _) =>
          let c := Handler.send_log ws_accepts "Connecting to Gemini Live..."
                     "info" c in
          let s := Session.start connect false in
          let c := fold_left deliver (Session.calls s) c in
          let c := after_session (Session.outcome s) c in
          fold_left step es
            {| client := c; session := Some s; closed := None;
               at_ := Serving |}
      end
  end.

End WithWebsocket.
End Endpoint.

(* ===================================================================== *)
(** * Concrete inputs and runs                                           *)
(* ===================================================================== *)

(** 2^32 - 36 zero bytes: the shortest input whose file size does not fit
    the 32-bit field. *)
Definition four_gib : bytes := repeat x00 (Z.to_nat (2 ^ 32 - 36)).

(** One second of audio in one response. *)
Definition one_second : bytes := repeat x01 (Z.to_nat 48000).

(** The responses of: two bytes of audio, an interruption, a turn
    complete. *)
Definition interrupted_turn : list (option Receive.server_content) :=
  [Some (Receive.mkContent false
           (Some [Receive.mkPart (Some [x01; x02]) None]) false);
   Some (Receive.mkContent true None false);
   Some (Receive.mkContent false None true)].

Definition responses_of (cs : list call) : list Handler.response :=
  flat_map (fun c => match c with
                     | Response r => [r]
                     | Log _ _ => []
                     end) cs.

Definition interrupted_run : Handler.state :=
  Handler.run Handler.reliable Handler.initial
    (responses_of
       (Receive.calls
          (Receive.receive_responses_task Receive.initial
             (map Receive.Yields interrupted_turn)))).

Definition is_error_event (m : Handler.message) : bool :=
  match m with
  | Handler.Msg_error _ => true
  | _ => false
  end.

Definition error_events (log : list Handler.message) : nat :=
  List.length (filter is_error_event log).

(** A session in which the remote connection closes under the send loop:
    the client sends a chunk, [session.send] raises with the connection-closed
    signature, the coordinator's wait returns. *)
Definition closed_on_send : Endpoint.state :=
  Endpoint.websocket_endpoint Handler.reliable "key" None
    [Endpoint.Client (Endpoint.Binary [x01; x02]);
     Endpoint.Gemini (Session.SendTurn (Send.SendRaises "ConnectionClosed"));
     Endpoint.Gemini Session.Wake].

(** A session in which the remote connection closes under the send loop
    while the receive loop awaits the first callback of a response: the
    second callback of that response is made after the event is set. *)
Definition closed_mid_response : Session.state :=
  Session.run (Session.start None false)
    [Session.Put (Some [x01]);
     Session.Receive
       (Receive.Begins
          (Some (Receive.mkContent false
                   (Some [Receive.mkPart None (Some "a"%string);
                          Receive.mkPart None (Some "b"%string)])
                   false)));
     Session.SendTurn (Send.SendRaises "ConnectionClosed");
     Session.Receive Receive.Resumes].

(** Three chunks and the sentinel; the send of the second fails with a
    transient error. *)
Definition lossy_run : Send.state :=
  Send.send_audio_task Send.initial
    [Send.Put (Some [x01]); Send.Put (Some [x02]); Send.Put (Some [x03]);
     Send.Put None; Send.Turn Send.Sent;
     Send.Turn (Send.SendRaises "timeout"); Send.Turn Send.Sent;
     Send.Turn Send.Sent; Send.Turn Send.Sent].

(** The send task ended by an exception, the receive task still running
    when the coordinator's wait returns. *)
Definition send_fault : Coordinator.run :=
  Coordinator.run_gemini_session None false
    [Coordinator.Wait (Coordinator.Failed "boom") Coordinator.Pending]
    (fun t => match t with
              | Coordinator.send_task => Coordinator.AwaitRaises "boom"
              | Coordinator.receive_task => Coordinator.AwaitCancelled
              end).

(* ===================================================================== *)
(** * The health check ([main.py], [root])                               *)
(* ===================================================================== *)

Module Health.

(** The JSON object [root()] returns. *)
Record health : Type := mkHealth {
  status : string;
  service : string;
  gemini_configured : bool
}.

(** [bool(s)] of a [str]. *)
Definition bool_of_str (s : string) : bool :=
  match s with
  | EmptyString => false
  | String _ _ => true
  end.

Definition root (GEMINI_API_KEY : string) : health :=
  {| status := "ok"; service := "Her Voice Server";
     gemini_configured := bool_of_str GEMINI_API_KEY |}.

End Health.

(* ===================================================================== *)
(** * What is observed of a run                                          *)
(* ===================================================================== *)

(** [Subseq l1 l2]: [l1] is [l2] with some elements left out. *)
Inductive Subseq {A : Type} : list A -> list A -> Prop :=
| Subseq_nil : Subseq [] []
| Subseq_take (x : A) (l1 l2 : list A) : Subseq l1 l2 -> Subseq (x :: l1) (x :: l2)
| Subseq_skip (x : A) (l1 l2 : list A) : Subseq l1 l2 -> Subseq l1 (x :: l2).

(** The items the producer puts on the queue during [es], in order. *)
Definition put_of (e : Send.event) : list (option bytes) :=
  match e with
  | Send.Put item => [item]
  | _ => []
  end.

Definition puts (es : list Send.event) : list (option bytes) :=
  flat_map put_of es.

(** A schedule of the send loop in which every send succeeds, nothing is
    cancelled and nobody else sets the event. *)
Definition smooth_event (e : Send.event) : bool :=
  match e with
  | Send.Turn Send.Sent => true
  | Send.Put _ => true
  | Send.Wait => true
  | _ => false
  end.

(** The callbacks the receive loop has still to make for the response
    whose body is in progress. *)
Definition outstanding (st : Receive.state) : list call :=
  match Receive.task st, Receive.at_ st with
  | Running, Receive.InBody => Receive.pending st
  | _, _ => []
  end.

(** The events at which a log call of a loop raises. *)
Definition log_fails (e : Receive.event) : bool :=
  match e with
  | Receive.LogRaises _ _ _ => true
  | _ => false
  end.

Definition orderly (e : Session.event) : bool :=
  match e with
  | Session.SendTurn (Send.SendFaults _ _) => false
  | Session.Receive e => negb (log_fails e)
  | _ => true
  end.

(** The turn-complete callbacks among calls. *)
Definition completes (c : call) : bool :=
  match c with
  | Response Handler.turn_complete => true
  | _ => false
  end.

(** The turns of the send loop in a schedule. *)
Definition is_turn (e : Send.event) : bool :=
  match e with
  | Send.Turn _ => true
  | _ => false
  end.

Definition turns (es : list Send.event) : nat :=
  List.length (filter is_turn es).

(** A send loop that is not in its wait on the queue. *)
Definition idle (st : Send.state) : Prop :=
  Send.task st = Returned \/ Send.waiting st = false.

(** A log with no Audio message. *)
Definition no_audio (log : list Handler.message) : bool :=
  forallb (fun m => negb (Handler.is_audio_message m)) log.

(** The message a response other than audio is relayed as. *)
Definition relay_of (r : Handler.response) : list Handler.message :=
  match r with
  | Handler.audio _ => []
  | Handler.text t => [Handler.Msg_transcript t]
  | Handler.turn_complete => [Handler.Msg_assistant_silent]
  | Handler.interrupted => [Handler.Msg_interrupted]
  | Handler.error e => [Handler.Msg_error e]
  end.

(** The messages of a log that are not Audio messages. *)
Definition relayed (log : list Handler.message) : list Handler.message :=
  filter (fun m => negb (Handler.is_audio_message m)) log.

(** The number of audio responses in a list. *)
Definition audio_responses (rs : list Handler.response) : Z :=
  len (filter (fun r => match r with
                        | Handler.audio _ => true
                        | _ => false
                        end) rs).

(** The audio a response of the remote model carries for the client: the
    inline data of its parts, unless it is an interruption. *)
Definition inline_audio (server : option Receive.server_content) : bytes :=
  match server with
  | Some content =>
      if Receive.interrupted content then []
      else match Receive.model_turn content with
           | Some parts =>
               flat_map (fun p => match Receive.inline_data p with
                                  | Some audio_bytes => audio_bytes
                                  | None => []
                                  end) parts
           | None => []
           end
  | None => []
  end.

Definition is_error_call (c : call) : bool :=
  match c with
  | Response (Handler.error _) => true
  | _ => false
  end.

Definition is_response_call (c : call) : bool :=
  match c with
  | Response _ => true
  | Log _ _ => false
  end.

(** What the session task wrote: a log less the notice the endpoint itself
    writes. *)
Definition task_messages (log : list Handler.message) : list Handler.message :=
  filter (fun m => match m with
                   | Handler.Msg_session_started => false
                   | _ => true
                   end) log.

(** The messages of a log that are not log messages. *)
Definition is_log_message (m : Handler.message) : bool :=
  match m with
  | Handler.Msg_server_log _ _ => true
  | _ => false
  end.

Definition without_logs (log : list Handler.message) : list Handler.message :=
  filter (fun m => negb (is_log_message m)) log.

(** Two states of the client that differ by log messages only. *)
Definition same_relay (c1 c2 : Handler.state) : Prop :=
  Handler.is_connected c1 = Handler.is_connected c2
  /\ Handler.audio_chunk_count c1 = Handler.audio_chunk_count c2
  /\ Handler.audio_buffer c1 = Handler.audio_buffer c2
  /\ without_logs (Handler.sent c1) = without_logs (Handler.sent c2).

(** The responses among the calls of a session, in order. *)
Definition responses_in (cs : list call) : list Handler.response :=
  flat_map (fun c => match c with
                     | Response r => [r]
                     | Log _ _ => []
                     end) cs.

(** An error message with neither signature. *)
Definition transient (error_str : string) : bool :=
  negb (Str.cancellation error_str) && negb (Str.connection_closed error_str).

(** The warning the receive loop logs for a transient error. *)
Definition receive_warning (error_str : string) : call :=
  Log ("⚠️ Receive error: " ++ error_str) "warn".

(** A task that ended by an exception or a cancellation. *)
Definition ended_badly (t : Coordinator.task_state) : bool :=
  match t with
  | Coordinator.Failed _ => true
  | Coordinator.TaskCancelled => true
  | _ => false
  end.

(** A return of the coordinator's wait on which no task has ended badly
    and a task is still pending. *)
Definition quiet (w : Coordinator.wake) : bool :=
  match w with
  | Coordinator.Wait send receive =>
      negb (ended_badly send) && negb (ended_badly receive)
      && negb (Coordinator.is_done send && Coordinator.is_done receive)
  | _ => false
  end.


(** Calls among which there is no error response. *)
Definition no_error_calls (cs : list call) : bool :=
  forallb (fun c => negb (is_error_call c)) cs.

(** A session that no exception has left. *)
Definition not_raised (r : Coordinator.result) : bool :=
  match r with
  | Coordinator.Raised _ => false
  | _ => true
  end.

(** A session in which no exception has ended a loop task, and whose
    receive loop has no error callback left to make. *)
Definition unfaulted (s : Session.state) : Prop :=
  Send.fault (Session.send s) = None
  /\ Receive.fault (Session.receive s) = None
  /\ no_error_calls (Receive.pending (Session.receive s)) = true.

(** The endpoint has written no Error event and no exception has left
    its session or ended a loop task. *)
Definition clean (st : Endpoint.state) : Prop :=
  error_events (Handler.sent (Endpoint.client st)) = 0%nat
  /\ forall s, Endpoint.session st = Some s ->
               not_raised (Session.outcome s) = true /\ unfaulted s.

(** The events of the endpoint at which no log call of a loop raises. *)
Definition log_returns (e : Endpoint.event) : bool :=
  match e with
  | Endpoint.Gemini e => orderly e
  | Endpoint.Client _ => true
  end.

(** The endpoint events of the upstream path: binary data from the client
    and turns of the send loop whose send succeeds. *)
Definition upstream (e : Endpoint.event) : bool :=
  match e with
  | Endpoint.Client (Endpoint.Binary _) => true
  | Endpoint.Gemini (Session.SendTurn Send.Sent) => true
  | Endpoint.Gemini Session.SendWait => true
  | _ => false
  end.

(** The binary data the client sends during [es], in order. *)
Definition binaries (es : list Endpoint.event) : list bytes :=
  flat_map (fun e => match e with
                     | Endpoint.Client (Endpoint.Binary data) => [data]
                     | _ => []
                     end) es.

(** A serving endpoint whose send loop runs, with what it has forwarded
    and what is queued making up [chunks]. *)
Definition carries (st : Endpoint.state) (chunks : list bytes) : Prop :=
  Endpoint.at_ st = Endpoint.Serving
  /\ Handler.is_connected (Endpoint.client st) = true
  /\ exists s,
       Endpoint.session st = Some s
       /\ Session.outcome s = Coordinator.Supervising
       /\ Send.task (Session.send s) = Running
       /\ Send.shutdown_event (Session.send s) = false
       /\ map Some (Send.forwarded (Session.send s))
            ++ Send.audio_queue (Session.send s)
          = map Some chunks.


(* ===================================================================== *)
(** * Byte strings                                                       *)
(* ===================================================================== *)

Lemma len_app {A : Type} (l1 l2 : list A) : len (l1 ++ l2) = len l1 + len l2.
Proof. unfold len. rewrite List.length_app. lia. Qed.

Lemma len_nonneg {A : Type} (l : list A) : 0 <= len l.
Proof. unfold len. lia. Qed.

Lemma len_nil_iff {A : Type} (l : list A) : len l = 0 <-> l = [].
Proof.
  unfold len. destruct l as [|a l]; simpl; split; intro H;
    try reflexivity; try discriminate; lia.
Qed.

(* ===================================================================== *)
(** * Facts about the framer                                             *)
(* ===================================================================== *)

Module WavFacts.
Import Wav.

Lemma Z_of_byte_of_Z (z : Z) : Z_of_byte (byte_of_Z z) = z mod 256.
Proof.
  unfold Z_of_byte, byte_of_Z.
  assert (Hr : 0 <= z mod 256 < 256) by (apply Z.mod_pos_bound; lia).
  destruct (Byte.of_N (Z.to_N (z mod 256))) as [b|] eqn:E.
  - apply Byte.to_of_N in E. rewrite E. rewrite Z2N.id; lia.
  - apply Byte.of_N_None_iff in E. lia.
Qed.

Lemma length_le_bytes (n : nat) (z : Z) : List.length (le_bytes n z) = n.
Proof. revert z. induction n as [|n IH]; intro z; simpl; auto. Qed.

Lemma le_value_le_bytes (n : nat) (z : Z) :
  le_value (le_bytes n z) = z mod 256 ^ Z.of_nat n.
Proof.
  revert z. induction n as [|n IH]; intro z.
  - simpl. now rewrite Z.mod_1_r.
  - cbn [le_bytes le_value]. rewrite Z_of_byte_of_Z, IH.
    rewrite Nat2Z.inj_succ, Z.pow_succ_r by lia.
    assert (Hp : 0 < 256 ^ Z.of_nat n) by (apply Z.pow_pos_nonneg; lia).
    rewrite (Z.mod_eq z (256 * 256 ^ Z.of_nat n)) by lia.
    rewrite (Z.mod_eq (z / 256) (256 ^ Z.of_nat n)) by lia.
    rewrite (Z.mod_eq z 256) by lia.
    rewrite Z.div_div by lia. ring.
Qed.

Lemma le_value_pack (width : nat) (v : Z) (p : bytes) :
  pack width v = Some p -> le_value p = v /\ List.length p = width.
Proof.
  unfold pack, fits. destruct (_ && _) eqn:E; [|discriminate].
  intro H. injection H as <-.
  apply andb_true_iff in E. destruct E as [E1 E2].
  apply Z.leb_le in E1. apply Z.ltb_lt in E2.
  split; [|apply length_le_bytes].
  rewrite le_value_le_bytes. apply Z.mod_small. lia.
Qed.

Lemma fits_spec (width : nat) (v : Z) :
  fits width v = true <-> 0 <= v < 256 ^ Z.of_nat width.
Proof.
  unfold fits. rewrite andb_true_iff, Z.leb_le, Z.ltb_lt. tauto.
Qed.

Lemma pack_fits (width : nat) (v : Z) :
  fits width v = true -> pack width v = Some (le_bytes width v).
Proof. unfold pack. now intros ->. Qed.

Lemma pack_unfit (width : nat) (v : Z) :
  fits width v = false -> pack width v = None.
Proof. unfold pack. now intros ->. Qed.

Lemma fits_I_bound (v : Z) : fits 4 v = true <-> 0 <= v <= 2 ^ 32 - 1.
Proof. rewrite fits_spec. change (256 ^ Z.of_nat 4) with (2 ^ 32). lia. Qed.

Lemma fits_H_bound (v : Z) : fits 2 v = true <-> 0 <= v <= 2 ^ 16 - 1.
Proof. rewrite fits_spec. change (256 ^ Z.of_nat 2) with (2 ^ 16). lia. Qed.

(** ** What [pcm_to_wav] returns, and when *)

Lemma pcm_to_wav_Some (pcm : bytes) (sr ch sw : Z) :
  fits 4 (36 + len pcm) = true ->
  params_fit sr ch sw = true ->
  pcm_to_wav pcm sr ch sw = Some (header (len pcm) sr ch sw ++ pcm).
Proof.
  intros Hsize Hp. unfold params_fit in Hp.
  do 4 (apply andb_true_iff in Hp; destruct Hp as [Hp ?]).
  assert (Hds : fits 4 (len pcm) = true).
  { apply fits_I_bound. apply fits_I_bound in Hsize.
    pose proof (len_nonneg pcm). lia. }
  unfold pcm_to_wav, pack_I, pack_H.
  rewrite !pack_fits by (assumption || reflexivity).
  cbn [obind]. unfold write, header.
  rewrite <- !app_assoc. reflexivity.
Qed.

Lemma pcm_to_wav_inv (pcm : bytes) (sr ch sw : Z) (out : bytes) :
  pcm_to_wav pcm sr ch sw = Some out ->
  fits 4 (36 + len pcm) = true /\ params_fit sr ch sw = true
  /\ out = header (len pcm) sr ch sw ++ pcm.
Proof.
  intro H.
  destruct (fits 4 (36 + len pcm)) eqn:E1.
  2: { unfold pcm_to_wav, pack_I in H. rewrite (pack_unfit _ _ E1) in H.
       discriminate. }
  destruct (params_fit sr ch sw) eqn:E2.
  - rewrite (pcm_to_wav_Some _ _ _ _ E1 E2) in H. injection H as <-. auto.
  - exfalso. unfold pcm_to_wav, pack_I, pack_H in H.
    unfold params_fit in E2. unfold pack in H.
    destruct (fits 4 (36 + len pcm)); [|discriminate].
    destruct (fits 2 ch); [|discriminate].
    destruct (fits 4 sr); [|discriminate].
    destruct (fits 4 (sr * ch * sw)); [|discriminate].
    destruct (fits 2 (ch * sw)); [|discriminate].
    destruct (fits 2 (sw * 8)); discriminate.
Qed.

(** The size pack is the first to run: past 32 bits, nothing is returned. *)
Lemma pcm_to_wav_overflow (pcm : bytes) (sr ch sw : Z) :
  2 ^ 32 - 37 < len pcm ->
  pack_I (36 + len pcm) = None /\ pcm_to_wav pcm sr ch sw = None.
Proof.
  intro H.
  assert (E : fits 4 (36 + len pcm) = false).
  { destruct (fits 4 (36 + len pcm)) eqn:E; [|reflexivity].
    apply fits_I_bound in E. lia. }
  unfold pcm_to_wav, pack_I. rewrite (pack_unfit _ _ E). auto.
Qed.

Lemma defaults_fit : params_fit default_sample_rate default_channels
                       default_sample_width = true.
Proof. reflexivity. Qed.

(** ** The layout of the header *)

Lemma length_header (ds sr ch sw : Z) :
  List.length (header ds sr ch sw) = 44%nat.
Proof. reflexivity. Qed.

Lemma payload_header (ds sr ch sw : Z) (pcm : bytes) :
  payload (header ds sr ch sw ++ pcm) = pcm.
Proof. reflexivity. Qed.

Section Layout.
Variables (ds sr ch sw : Z) (pcm : bytes).
Let w := header ds sr ch sw ++ pcm.

Lemma tag_riff : firstn 4 w = RIFF.
Proof. reflexivity. Qed.

Lemma tag_wave : firstn 4 (skipn 8 w) = WAVE.
Proof. reflexivity. Qed.

Lemma tag_fmt : firstn 4 (skipn 12 w) = fmt_.
Proof. reflexivity. Qed.

Lemma tag_data : firstn 4 (skipn 36 w) = data.
Proof. reflexivity. Qed.

Lemma field_file_size : field 4 4 w = (36 + ds) mod 256 ^ 4.
Proof.
  change (field 4 4 w) with (le_value (le_bytes 4 (36 + ds))).
  apply le_value_le_bytes.
Qed.

Lemma field_fmt_size : field 16 4 w = 16.
Proof.
  change (field 16 4 w) with (le_value (le_bytes 4 16)).
  now rewrite le_value_le_bytes.
Qed.

Lemma field_format_tag : field 20 2 w = 1.
Proof.
  change (field 20 2 w) with (le_value (le_bytes 2 1)).
  now rewrite le_value_le_bytes.
Qed.

Lemma field_channels : field 22 2 w = ch mod 256 ^ 2.
Proof.
  change (field 22 2 w) with (le_value (le_bytes 2 ch)).
  apply le_value_le_bytes.
Qed.

Lemma field_sample_rate : field 24 4 w = sr mod 256 ^ 4.
Proof.
  change (field 24 4 w) with (le_value (le_bytes 4 sr)).
  apply le_value_le_bytes.
Qed.

Lemma field_byte_rate : field 28 4 w = (sr * ch * sw) mod 256 ^ 4.
Proof.
  change (field 28 4 w) with (le_value (le_bytes 4 (sr * ch * sw))).
  apply le_value_le_bytes.
Qed.

Lemma field_block_align : field 32 2 w = (ch * sw) mod 256 ^ 2.
Proof.
  change (field 32 2 w) with (le_value (le_bytes 2 (ch * sw))).
  apply le_value_le_bytes.
Qed.

Lemma field_bits_per_sample : field 34 2 w = (sw * 8) mod 256 ^ 2.
Proof.
  change (field 34 2 w) with (le_value (le_bytes 2 (sw * 8))).
  apply le_value_le_bytes.
Qed.

Lemma field_data_size : field 40 4 w = ds mod 256 ^ 4.
Proof.
  change (field 40 4 w) with (le_value (le_bytes 4 ds)).
  apply le_value_le_bytes.
Qed.
End Layout.

Lemma mod_fits (width : nat) (v : Z) :
  fits width v = true -> v mod 256 ^ Z.of_nat width = v.
Proof. intro H. apply fits_spec in H. now apply Z.mod_small. Qed.

End WavFacts.

(* ===================================================================== *)
(** * Facts about the response handler                                   *)
(* ===================================================================== *)

Module HandlerFacts.
Import Handler.

Lemma frame_payload (b w : bytes) : frame b = Some w -> Wav.payload w = b.
Proof.
  intro H. apply WavFacts.pcm_to_wav_inv in H. destruct H as (_ & _ & ->).
  apply WavFacts.payload_header.
Qed.

Lemma frame_small (b : bytes) :
  len b <= 2 ^ 32 - 37 -> frame b = Some (Wav.header (len b) 24000 1 2 ++ b).
Proof.
  intro H. apply WavFacts.pcm_to_wav_Some; [|reflexivity].
  apply WavFacts.fits_I_bound. pose proof (len_nonneg b). lia.
Qed.

Ltac run_handler :=
  unfold handle_gemini_response, try_except, dispatch, on_audio,
    on_turn_complete, send_text, bind, get, modify, lift, ret, raise;
  cbn [is_connected audio_buffer sent audio_chunk_count negb
       set_is_connected set_audio_buffer set_sent set_audio_chunk_count
       fst snd].

Section Steps.
Variable ws_accepts : list message -> message -> bool.
Local Notation "'handle'" := (handle_gemini_response ws_accepts).
Local Notation "'run'" := (Handler.run ws_accepts).

Lemma handle_disconnected (st : state) (r : response) :
  is_connected st = false -> handle st r = st.
Proof. intro H. unfold handle_gemini_response. now rewrite H. Qed.

Lemma run_disconnected (rs : list response) (st : state) :
  is_connected st = false -> run st rs = st.
Proof.
  revert st. induction rs as [|r rs IH]; intros st H; [reflexivity|].
  cbn [Handler.run fold_left]. rewrite handle_disconnected by assumption.
  now apply IH.
Qed.

Lemma run_app (rs1 rs2 : list response) (st : state) :
  run st (rs1 ++ rs2) = run (run st rs1) rs2.
Proof. apply fold_left_app. Qed.

Lemma run_cons (r : response) (rs : list response) (st : state) :
  run st (r :: rs) = run (handle st r) rs.
Proof. reflexivity. Qed.

(** The three outcomes of an audio response. *)
Lemma handle_audio_cases (st : state) (d : bytes) :
  is_connected st = true ->
  let b := audio_buffer st ++ d in
  let n := audio_chunk_count st + 1 in
  (len b < BUFFER_TARGET_SIZE
   /\ handle st (audio d) = mkState true n b (sent st))
  \/ (BUFFER_TARGET_SIZE <= len b
      /\ exists w, frame b = Some w
           /\ ws_accepts (sent st) (Msg_audio w) = true
           /\ handle st (audio d)
              = mkState true n [] (sent st ++ [Msg_audio w]))
  \/ (BUFFER_TARGET_SIZE <= len b
      /\ handle st (audio d) = mkState false n b (sent st)).
Proof.
  intros Hc b n. subst b n. destruct st as [c k buf log].
  cbn [is_connected] in Hc. subst c. run_handler.
  destruct (BUFFER_TARGET_SIZE <=? len (buf ++ d)) eqn:E.
  - apply Z.leb_le in E. right.
    fold (frame (buf ++ d)).
    destruct (frame (buf ++ d)) as [w|] eqn:Ew; cbn.
    + destruct (ws_accepts log (Msg_audio w)) eqn:Ea; cbn.
      * left. split; [assumption|]. exists w. auto.
      * right. auto.
    + right. auto.
  - apply Z.leb_gt in E. left. auto.
Qed.

(** The outcomes of a turn-complete response. *)
Lemma handle_turn_complete_cases (st : state) :
  is_connected st = true ->
  let b := audio_buffer st in
  let n := audio_chunk_count st in
  (b = [] /\ ws_accepts (sent st) Msg_assistant_silent = true
   /\ handle st turn_complete
      = mkState true n [] (sent st ++ [Msg_assistant_silent]))
  \/ (b <> []
      /\ exists w, frame b = Some w
           /\ ws_accepts (sent st) (Msg_audio w) = true
           /\ ws_accepts (sent st ++ [Msg_audio w]) Msg_assistant_silent = true
           /\ handle st turn_complete
              = mkState true n []
                  ((sent st ++ [Msg_audio w]) ++ [Msg_assistant_silent]))
  \/ is_connected (handle st turn_complete) = false.
Proof.
  intros Hc b n. subst b n. destruct st as [c k buf log].
  cbn [is_connected] in Hc. subst c. run_handler.
  destruct buf as [|x buf].
  - cbn. destruct (ws_accepts log Msg_assistant_silent) eqn:Es; cbn; auto.
  - remember (x :: buf) as b eqn:Eb.
    assert (Hlt : (0 <? len b) = true).
    { apply Z.ltb_lt. subst b. unfold len. cbn [List.length]. lia. }
    rewrite Hlt. fold (frame b).
    destruct (frame b) as [w|] eqn:Ew; cbn; [|auto].
    destruct (ws_accepts log (Msg_audio w)) eqn:Ea; cbn; [|auto].
    destruct (ws_accepts (log ++ [Msg_audio w]) Msg_assistant_silent) eqn:Es;
      cbn; [|auto].
    right. left. split; [subst b; discriminate|]. exists w. auto.
Qed.

(** The responses that only write one message. *)
Lemma handle_plain_cases (st : state) (r : response) (m : message) :
  is_connected st = true ->
  dispatch ws_accepts r = send_text ws_accepts m ->
  (ws_accepts (sent st) m = true
   /\ handle st r = mkState true (audio_chunk_count st) (audio_buffer st)
                      (sent st ++ [m]))
  \/ is_connected (handle st r) = false.
Proof.
  intros Hc Hd. destruct st as [c k buf log].
  cbn [is_connected] in Hc. subst c.
  unfold handle_gemini_response, try_except. rewrite Hd.
  cbn [is_connected negb]. unfold send_text. cbn [sent].
  destruct (ws_accepts log m); cbn; auto.
Qed.

(** One processed response: what was written, what is left in the
    buffer. *)
Lemma handle_step (st : state) (r : response) :
  is_connected (handle st r) = true ->
  is_connected st = true
  /\ exists new,
       sent (handle st r) = sent st ++ new
       /\ pcm_of_log new ++ audio_buffer (handle st r)
          = audio_buffer st ++ audio_of r
       /\ Forall carries_audio new
       /\ (len (audio_buffer st) < BUFFER_TARGET_SIZE ->
           len (audio_buffer (handle st r)) < BUFFER_TARGET_SIZE).
Proof.
  intro Hc'.
  assert (Hc : is_connected st = true).
  { destruct (is_connected st) eqn:E; [reflexivity|].
    rewrite handle_disconnected in Hc' by assumption. congruence. }
  split; [assumption|].
  destruct r as [d| t | | | e].
  - destruct (handle_audio_cases st d Hc)
      as [[Hlt E]|[(Hge & w & Hw & Ha & E)|[Hge E]]].
    + rewrite E; cbn [sent audio_buffer].
      exists []. rewrite app_nil_r. repeat split; auto.
    + rewrite E; cbn [sent audio_buffer].
      exists [Msg_audio w]. cbn [pcm_of_log flat_map pcm_of audio_of].
      rewrite (frame_payload _ _ Hw), !app_nil_r.
      split; [reflexivity|]. split; [reflexivity|]. split.
      * constructor; [|constructor]. intros _. cbn [pcm_of].
        rewrite (frame_payload _ _ Hw). unfold BUFFER_TARGET_SIZE in Hge. lia.
      * intros _. reflexivity.
    + rewrite E in Hc'. discriminate.
  - destruct (handle_plain_cases st (text t) (Msg_transcript t) Hc eq_refl)
      as [[_ E]|E]; [|congruence].
    rewrite E; cbn [sent audio_buffer]. exists [Msg_transcript t].
    cbn [pcm_of_log flat_map pcm_of audio_of app]. rewrite !app_nil_r.
    split; [reflexivity|]. split; [reflexivity|]. split; [|auto].
    constructor; [|constructor]. intro H; discriminate.
  - destruct (handle_turn_complete_cases st Hc)
      as [(Hb & _ & E)|[(Hb & w & Hw & _ & _ & E)|E]]; [| |congruence].
    + rewrite E; cbn [sent audio_buffer]. exists [Msg_assistant_silent].
      rewrite Hb. cbn [pcm_of_log flat_map pcm_of audio_of app].
      split; [reflexivity|]. split; [reflexivity|]. split; [|auto].
      constructor; [|constructor]. intro H; discriminate.
    + rewrite E; cbn [sent audio_buffer].
      exists [Msg_audio w; Msg_assistant_silent]. rewrite <- app_assoc.
      cbn [app pcm_of_log flat_map pcm_of audio_of].
      rewrite (frame_payload _ _ Hw), !app_nil_r.
      split; [reflexivity|]. split; [reflexivity|]. split.
      * constructor; [|constructor; [|constructor]].
        -- intros _. cbn [pcm_of]. rewrite (frame_payload _ _ Hw).
           destruct (audio_buffer st); [congruence|].
           unfold len. cbn [List.length]. lia.
        -- intro H; discriminate.
      * intros _. reflexivity.
  - destruct (handle_plain_cases st interrupted Msg_interrupted Hc eq_refl)
      as [[_ E]|E]; [|congruence].
    rewrite E; cbn [sent audio_buffer]. exists [Msg_interrupted].
    cbn [pcm_of_log flat_map pcm_of audio_of app]. rewrite !app_nil_r.
    split; [reflexivity|]. split; [reflexivity|]. split; [|auto].
    constructor; [|constructor]. intro H; discriminate.
  - destruct (handle_plain_cases st (error e) (Msg_error e) Hc eq_refl)
      as [[_ E]|E]; [|congruence].
    rewrite E; cbn [sent audio_buffer]. exists [Msg_error e].
    cbn [pcm_of_log flat_map pcm_of audio_of app]. rewrite !app_nil_r.
    split; [reflexivity|]. split; [reflexivity|]. split; [|auto].
    constructor; [|constructor]. intro H; discriminate.
Qed.

Lemma pcm_of_log_app (l1 l2 : list message) :
  pcm_of_log (l1 ++ l2) = pcm_of_log l1 ++ pcm_of_log l2.
Proof. apply flat_map_app. Qed.

Lemma received_app (rs1 rs2 : list response) :
  received (rs1 ++ rs2) = received rs1 ++ received rs2.
Proof. apply flat_map_app. Qed.

(** The same over a whole run, by induction on the responses. *)
Lemma run_steps (rs : list response) (st : state) :
  is_connected (run st rs) = true ->
  is_connected st = true
  /\ exists new,
       sent (run st rs) = sent st ++ new
       /\ pcm_of_log new ++ audio_buffer (run st rs)
          = audio_buffer st ++ received rs
       /\ Forall carries_audio new
       /\ (len (audio_buffer st) < BUFFER_TARGET_SIZE ->
           len (audio_buffer (run st rs)) < BUFFER_TARGET_SIZE).
Proof.
  revert st. induction rs as [|r rs IH]; intros st Hc.
  - cbn in *. split; [assumption|]. exists []. cbn.
    rewrite !app_nil_r. auto.
  - rewrite run_cons in *.
    destruct (IH _ Hc) as (Hc1 & new2 & Hs2 & Hp2 & Hf2 & Hb2).
    destruct (handle_step _ _ Hc1) as (Hc0 & new1 & Hs1 & Hp1 & Hf1 & Hb1).
    split; [assumption|]. exists (new1 ++ new2).
    repeat split.
    + rewrite Hs2, Hs1. now rewrite app_assoc.
    + rewrite pcm_of_log_app, <- app_assoc, Hp2.
      cbn [received flat_map]. rewrite !app_assoc. f_equal. exact Hp1.
    + apply Forall_app. auto.
    + auto.
Qed.

(** A log whose PCM is not empty holds an Audio message. *)
Lemma pcm_of_log_audio (log : list message) :
  pcm_of_log log <> [] ->
  exists l1 w l2, log = l1 ++ Msg_audio w :: l2.
Proof.
  induction log as [|m log IH]; intro H; [now destruct H|].
  destruct m as [w| | | | | |];
    try (cbn in H; destruct (IH H) as (l1 & w & l2 & ->);
         eexists (_ :: l1), w, l2; reflexivity).
  exists [], w, log. reflexivity.
Qed.

End Steps.

(** With a websocket that takes every message, the handler stays connected
    as long as the buffer can be framed. *)
Lemma handle_reliable (st : state) (r : response) :
  is_connected st = true ->
  len (audio_buffer st ++ audio_of r) <= 2 ^ 32 - 37 ->
  is_connected (handle_gemini_response reliable st r) = true.
Proof.
  intros Hc Hn. destruct st as [c k buf log]. cbn in Hc, Hn. subst c.
  destruct r as [d|t| | |e]; cbn [audio_of] in Hn;
    try rewrite app_nil_r in Hn; run_handler; unfold reliable;
    try reflexivity.
  - destruct (BUFFER_TARGET_SIZE <=? len (buf ++ d)); [|reflexivity].
    fold (frame (buf ++ d)). now rewrite (frame_small _ Hn).
  - destruct (0 <? len buf); [|reflexivity].
    fold (frame buf). now rewrite (frame_small _ Hn).
Qed.

Lemma reliable_stays_connected (rs : list response) :
  len (received rs) <= 2 ^ 32 - 37 ->
  is_connected (run reliable initial rs) = true.
Proof.
  induction rs as [|r rs IH] using rev_ind; intro Hn; [reflexivity|].
  rewrite received_app, len_app in Hn. pose proof (len_nonneg (received [r])).
  rewrite run_app. cbn [run fold_left].
  assert (Hc : is_connected (run reliable initial rs) = true) by (apply IH; lia).
  apply handle_reliable; [assumption|].
  destruct (run_steps reliable rs initial Hc) as (_ & new & _ & Hp & _).
  cbn [audio_buffer initial app] in Hp.
  apply (f_equal len) in Hp. rewrite len_app in Hp.
  pose proof (len_nonneg (pcm_of_log new)).
  rewrite len_app. cbn [received flat_map] in Hn. rewrite app_nil_r in Hn. lia.
Qed.

End HandlerFacts.

(* ===================================================================== *)
(** * The claims on the response handler                                 *)
(* ===================================================================== *)

Section HandlerClaims.
Import Handler HandlerFacts.
Variable ws_accepts : list message -> message -> bool.
Local Notation "'handle'" := (handle_gemini_response ws_accepts).
Local Notation "'run'" := (Handler.run ws_accepts).

(** C1. For every sequence of responses [pre ++ turn ++ [turn_complete]]
    the handler processes (the client connection is still up at the end),
    whatever the websocket: when the buffer left by [pre] and the audio of
    [turn] make at least 48,000 bytes, an Audio message is written while
    [turn] is processed, hence before the turn-complete notification
    ([assistant_silent]); at the turn-complete the messages written are the
    residual flush, if the buffer is not empty, and then the notification;
    the residual flush carries exactly the buffer, which is what was
    received and not flushed yet (the bytes appended since the last flush);
    and the buffer is empty afterwards. *)
Theorem C1_flush_precedes_turn_complete (pre turn : list response) :
  let st1 := run initial pre in
  let st2 := run st1 turn in
  let st3 := handle st2 turn_complete in
  is_connected st3 = true ->
  (BUFFER_TARGET_SIZE <= len (audio_buffer st1) + len (received turn) ->
   exists l1 w l2, sent st2 = sent st1 ++ l1 ++ Msg_audio w :: l2)
  /\ (exists residual,
        sent st3 = sent st2 ++ residual ++ [Msg_assistant_silent]
        /\ (audio_buffer st2 = [] -> residual = [])
        /\ (audio_buffer st2 <> [] ->
            exists w, residual = [Msg_audio w]
                      /\ pcm_of (Msg_audio w) = audio_buffer st2))
  /\ pcm_of_log (sent st2) ++ audio_buffer st2 = received (pre ++ turn)
  /\ (forall rs1 rs2,
        turn = rs1 ++ rs2 ->
        audio_buffer (run st1 rs1) = [] ->
        sent st2 = sent (run st1 rs1) ->
        audio_buffer st2 = received rs2)
  /\ audio_buffer st3 = [].
Proof.
  intros st1 st2 st3 Hc3.
  destruct (handle_step ws_accepts _ _ Hc3) as (Hc2 & _).
  fold st2 in Hc2.
  destruct (run_steps ws_accepts turn st1 Hc2) as (Hc1 & new2 & Hs2 & Hp2 & _ & Hb2).
  fold st2 in Hs2, Hp2, Hb2.
  destruct (run_steps ws_accepts pre initial Hc1) as (_ & new1 & Hs1 & Hp1 & _ & Hb1).
  fold st1 in Hs1, Hp1, Hb1. cbn [sent audio_buffer initial app] in Hs1, Hp1, Hb1.
  assert (Hlt1 : len (audio_buffer st1) < BUFFER_TARGET_SIZE)
    by (apply Hb1; reflexivity).
  specialize (Hb2 Hlt1).
  split; [|split; [|split; [|split]]].
  - intro Hacc. destruct (pcm_of_log_audio new2) as (l1 & w & l2 & E).
    + intro En. rewrite En in Hp2. cbn [app] in Hp2.
      apply (f_equal len) in Hp2. rewrite len_app in Hp2. lia.
    + exists l1, w, l2. now rewrite Hs2, E.
  - destruct (handle_turn_complete_cases ws_accepts st2 Hc2)
      as [(Hb & _ & E)|[(Hb & w & Hw & _ & _ & E)|E]].
    + exists []. fold st3 in E. rewrite E. cbn [sent app].
      split; [reflexivity|]. split; [reflexivity|]. intro Hn. now destruct Hn.
    + exists [Msg_audio w]. fold st3 in E. rewrite E. cbn [sent app].
      split; [now rewrite <- app_assoc|]. split; [intro Hn; congruence|].
      intros _. exists w. split; [reflexivity|]. cbn [pcm_of].
      exact (frame_payload _ _ Hw).
    + fold st3 in E. congruence.
  - rewrite Hs2, Hs1. cbn [app]. rewrite pcm_of_log_app, received_app.
    rewrite <- app_assoc, Hp2, app_assoc. now rewrite Hp1.
  - intros rs1 rs2 Et Hb Hsent.
    assert (E2 : st2 = run (run st1 rs1) rs2).
    { unfold st2. rewrite Et. apply run_app. }
    rewrite E2 in Hc2, Hsent |- *.
    destruct (run_steps ws_accepts rs2 _ Hc2) as (_ & new & Hs & Hp & _).
    rewrite Hs in Hsent.
    rewrite <- (app_nil_r (sent (run st1 rs1))) in Hsent at 2.
    apply app_inv_head in Hsent. subst new.
    rewrite Hb in Hp. exact Hp.
  - destruct (handle_turn_complete_cases ws_accepts st2 Hc2)
      as [(_ & _ & E)|[(_ & w & _ & _ & _ & E)|E]];
      fold st3 in E; [now rewrite E|now rewrite E|congruence].
Qed.

(** C9. Audio-byte conservation: after any sequence of responses the
    handler has processed (audio and turn-complete, and the other kinds too),
    the PCM payloads of the Audio messages written, in order, followed by the
    buffer, are the audio bytes received, in order; every Audio message
    written carries at least one PCM byte; and an Audio message written on an
    audio response (a threshold flush) carries the whole buffer, at least
    48,000 bytes. *)
Theorem C9_audio_byte_conservation (rs : list response) :
  let st := run initial rs in
  is_connected st = true ->
  pcm_of_log (sent st) ++ audio_buffer st = received rs
  /\ Forall carries_audio (sent st)
  /\ (forall st0 d,
        is_connected (handle st0 (audio d)) = true ->
        sent (handle st0 (audio d)) = sent st0
        \/ exists w,
             sent (handle st0 (audio d)) = sent st0 ++ [Msg_audio w]
             /\ pcm_of (Msg_audio w) = audio_buffer st0 ++ d
             /\ BUFFER_TARGET_SIZE <= len (pcm_of (Msg_audio w))).
Proof.
  intros st Hc.
  destruct (run_steps ws_accepts rs initial Hc) as (_ & new & Hs & Hp & Hf & _).
  fold st in Hs, Hp. cbn [sent audio_buffer initial app] in Hs, Hp.
  rewrite Hs. repeat split; try assumption.
  intros st0 d Hc0.
  assert (Hc00 : is_connected st0 = true)
    by (destruct (handle_step ws_accepts _ _ Hc0); assumption).
  destruct (handle_audio_cases ws_accepts st0 d Hc00)
    as [[_ E]|[(Hge & w & Hw & _ & E)|[_ E]]].
  - left. now rewrite E.
  - right. exists w. rewrite E. cbn [sent pcm_of].
    rewrite (frame_payload _ _ Hw). auto.
  - rewrite E in Hc0. discriminate.
Qed.

End HandlerClaims.

(* ===================================================================== *)
(** * The claims on the container framer                                 *)
(* ===================================================================== *)

Section FramerClaims.
Import Wav WavFacts.

Lemma len_four_gib : len four_gib = 2 ^ 32 - 36.
Proof.
  unfold len, four_gib. rewrite repeat_length. apply Z2Nat.id. lia.
Qed.

(** C2, as stated, fails on an input of 2^32 - 36 bytes: nothing is
    returned for it. *)
Lemma C2_counterexample :
  ~ exists out,
      pcm_to_wav four_gib default_sample_rate default_channels
        default_sample_width = Some out
      /\ len out = 44 + len four_gib.
Proof.
  intros (out & H & _).
  assert (P : 2 ^ 32 - 37 < len four_gib) by (rewrite len_four_gib; lia).
  pose proof (pcm_to_wav_overflow four_gib default_sample_rate
                default_channels default_sample_width P) as Q.
  destruct Q as [_ E]. rewrite E in H. inversion H.
Qed.

(** C2 (amended). For every PCM byte string of length N <= 2^32 - 37 and
    format parameters whose header fields fit their widths (the defaults
    do), [pcm_to_wav] returns a byte string of length 44 + N whose file-size
    field (bytes 4..7, little-endian) is 36 + N and whose data-size field
    (bytes 40..43) is N, and whose bytes from offset 44 on are the input;
    for no input, that is the 44-byte header with data size 0. *)
Theorem C2_framing_sizes (pcm : bytes) (sr ch sw : Z) :
  len pcm <= 2 ^ 32 - 37 ->
  params_fit sr ch sw = true ->
  exists out,
    pcm_to_wav pcm sr ch sw = Some out
    /\ len out = 44 + len pcm
    /\ field 4 4 out = 36 + len pcm
    /\ field 40 4 out = len pcm
    /\ payload out = pcm
    /\ (pcm = [] ->
        out = header 0 sr ch sw /\ len out = 44 /\ field 40 4 out = 0).
Proof.
  intros Hn Hp. pose proof (len_nonneg pcm) as H0.
  assert (Hsize : fits 4 (36 + len pcm) = true) by (apply fits_I_bound; lia).
  assert (Hds : fits 4 (len pcm) = true) by (apply fits_I_bound; lia).
  exists (header (len pcm) sr ch sw ++ pcm).
  split; [now apply pcm_to_wav_Some|].
  assert (Hlen : len (header (len pcm) sr ch sw ++ pcm) = 44 + len pcm).
  { rewrite len_app. unfold len at 1. now rewrite length_header. }
  assert (Hfield : field 40 4 (header (len pcm) sr ch sw ++ pcm) = len pcm).
  { rewrite field_data_size. now apply (mod_fits 4). }
  split; [exact Hlen|]. split.
  { rewrite field_file_size. now apply (mod_fits 4). }
  split; [exact Hfield|]. split; [apply payload_header|].
  intros ->. rewrite app_nil_r in *. change (len (@nil byte)) with 0 in *.
  auto.
Qed.

Lemma C2_framing_sizes_witness :
  exists out,
    pcm_to_wav [x01; x02; x03] 24000 1 2 = Some out
    /\ len out = 44 + len [x01; x02; x03]
    /\ field 4 4 out = 36 + len [x01; x02; x03]
    /\ field 40 4 out = len [x01; x02; x03]
    /\ payload out = [x01; x02; x03]
    /\ ([x01; x02; x03] = [] ->
        out = header 0 24000 1 2 /\ len out = 44 /\ field 40 4 out = 0).
Proof.
  apply (C2_framing_sizes [x01; x02; x03] 24000 1 2).
  - vm_compute. discriminate.
  - reflexivity.
Defined.

(** C3. For every input and format parameters, [pcm_to_wav] produces a
    header whenever the values fit their fields, and the header it produces
    carries, at the positions of the uncompressed WAV layout: the channel
    count (offset 22), the sample rate (24), the byte rate
    [sample_rate * channels * sample_width] (28), the block align
    [channels * sample_width] (32) and the bits per sample
    [sample_width * 8] (34; 16 for the default width), after the chunk tags,
    the [fmt] chunk size 16 and the PCM format tag 1. *)
Theorem C3_header_fields (pcm : bytes) (sr ch sw : Z) :
  (fits 4 (36 + len pcm) = true -> params_fit sr ch sw = true ->
   exists out, pcm_to_wav pcm sr ch sw = Some out)
  /\ forall out,
       pcm_to_wav pcm sr ch sw = Some out ->
       field 24 4 out = sr
       /\ field 22 2 out = ch
       /\ field 34 2 out = sw * 8
       /\ field 28 4 out = sr * ch * sw
       /\ field 32 2 out = ch * sw
       /\ field 20 2 out = 1
       /\ field 16 4 out = 16
       /\ firstn 4 out = RIFF
       /\ firstn 4 (skipn 8 out) = WAVE
       /\ firstn 4 (skipn 12 out) = fmt_
       /\ firstn 4 (skipn 36 out) = data
       /\ (sw = default_sample_width -> field 34 2 out = 16).
Proof.
  split; [intros Hs Hp; eexists; now apply pcm_to_wav_Some|].
  intros out H. apply pcm_to_wav_inv in H. destruct H as (_ & Hp & ->).
  unfold params_fit in Hp.
  do 4 (apply andb_true_iff in Hp; destruct Hp as [Hp ?]).
  assert (Hbits : field 34 2 (header (len pcm) sr ch sw ++ pcm) = sw * 8).
  { rewrite field_bits_per_sample. now apply (mod_fits 2). }
  split; [rewrite field_sample_rate; now apply (mod_fits 4)|].
  split; [rewrite field_channels; now apply (mod_fits 2)|].
  split; [exact Hbits|].
  split; [rewrite field_byte_rate; now apply (mod_fits 4)|].
  split; [rewrite field_block_align; now apply (mod_fits 2)|].
  split; [apply field_format_tag|].
  split; [apply field_fmt_size|].
  split; [apply tag_riff|]. split; [apply tag_wave|].
  split; [apply tag_fmt|]. split; [apply tag_data|].
  intros ->. rewrite Hbits. reflexivity.
Qed.

Lemma C3_header_fields_witness :
  (exists out, pcm_to_wav [x01; x02] 24000 1 2 = Some out)
  /\ let out := header 2 24000 1 2 ++ [x01; x02] in
     field 24 4 out = 24000
     /\ field 22 2 out = 1
     /\ field 34 2 out = 2 * 8
     /\ field 28 4 out = 24000 * 1 * 2
     /\ field 32 2 out = 1 * 2
     /\ field 20 2 out = 1
     /\ field 16 4 out = 16
     /\ firstn 4 out = RIFF
     /\ firstn 4 (skipn 8 out) = WAVE
     /\ firstn 4 (skipn 12 out) = fmt_
     /\ firstn 4 (skipn 36 out) = data
     /\ (2 = default_sample_width -> field 34 2 out = 16).
Proof.
  split.
  - apply (proj1 (C3_header_fields [x01; x02] 24000 1 2)); reflexivity.
  - apply (proj2 (C3_header_fields [x01; x02] 24000 1 2)). reflexivity.
Defined.

(** C10. With format parameters that fit their fields, [pcm_to_wav]
    returns for every input of at most 2^32 - 37 bytes; for a longer input
    the 32-bit pack of [file_size = 36 + len(pcm_data)] fails and the
    function raises: no size field is wrapped. *)
Theorem C10_total_iff_sizes_fit (pcm : bytes) (sr ch sw : Z) :
  params_fit sr ch sw = true ->
  (len pcm <= 2 ^ 32 - 37 -> exists out, pcm_to_wav pcm sr ch sw = Some out)
  /\ (2 ^ 32 - 37 < len pcm ->
      pack_I (36 + len pcm) = None /\ pcm_to_wav pcm sr ch sw = None).
Proof.
  intro Hp. split.
  - intro Hn. pose proof (len_nonneg pcm).
    eexists. apply pcm_to_wav_Some; [|assumption].
    apply fits_I_bound. lia.
  - apply pcm_to_wav_overflow.
Qed.

Lemma four_gib_too_long : 2 ^ 32 - 37 < len four_gib.
Proof. rewrite len_four_gib. lia. Qed.

Lemma C10_total_iff_sizes_fit_witness :
  (exists out, pcm_to_wav [x01; x02] 24000 1 2 = Some out)
  /\ pcm_to_wav four_gib 24000 1 2 = None.
Proof.
  split.
  - refine (proj1 (C10_total_iff_sizes_fit [x01; x02] 24000 1 2 eq_refl) _).
    vm_compute. discriminate.
  - exact (proj2 (proj2 (C10_total_iff_sizes_fit four_gib 24000 1 2 eq_refl)
                    four_gib_too_long)).
Defined.

End FramerClaims.

(* ===================================================================== *)
(** * The handler claims at concrete runs, and the interruption          *)
(* ===================================================================== *)

Section HandlerRuns.
Import Handler HandlerFacts.

Lemma C1_flush_precedes_turn_complete_witness :
  let st1 := run reliable initial [] in
  let st2 := run reliable st1 [audio one_second; audio [x02; x03]] in
  let st3 := handle_gemini_response reliable st2 turn_complete in
  (BUFFER_TARGET_SIZE
   <= len (audio_buffer st1) + len (received [audio one_second; audio [x02; x03]]) ->
   exists l1 w l2, sent st2 = sent st1 ++ l1 ++ Msg_audio w :: l2)
  /\ (exists residual,
        sent st3 = sent st2 ++ residual ++ [Msg_assistant_silent]
        /\ (audio_buffer st2 = [] -> residual = [])
        /\ (audio_buffer st2 <> [] ->
            exists w, residual = [Msg_audio w]
                      /\ pcm_of (Msg_audio w) = audio_buffer st2))
  /\ pcm_of_log (sent st2) ++ audio_buffer st2
     = received ([] ++ [audio one_second; audio [x02; x03]])
  /\ (forall rs1 rs2,
        [audio one_second; audio [x02; x03]] = rs1 ++ rs2 ->
        audio_buffer (run reliable st1 rs1) = [] ->
        sent st2 = sent (run reliable st1 rs1) ->
        audio_buffer st2 = received rs2)
  /\ audio_buffer st3 = [].
Proof.
  apply (C1_flush_precedes_turn_complete reliable []
           [audio one_second; audio [x02; x03]]).
  vm_compute. reflexivity.
Defined.

Lemma C9_audio_byte_conservation_witness :
  let rs := [audio [x01]; text "hi"; audio one_second; audio [x02];
             turn_complete] in
  let st := run reliable initial rs in
  pcm_of_log (sent st) ++ audio_buffer st = received rs
  /\ Forall carries_audio (sent st)
  /\ (forall st0 d,
        is_connected (handle_gemini_response reliable st0 (audio d)) = true ->
        sent (handle_gemini_response reliable st0 (audio d)) = sent st0
        \/ exists w,
             sent (handle_gemini_response reliable st0 (audio d))
             = sent st0 ++ [Msg_audio w]
             /\ pcm_of (Msg_audio w) = audio_buffer st0 ++ d
             /\ BUFFER_TARGET_SIZE <= len (pcm_of (Msg_audio w))).
Proof.
  apply (C9_audio_byte_conservation reliable
           [audio [x01]; text "hi"; audio one_second; audio [x02];
            turn_complete]).
  vm_compute. reflexivity.
Defined.

(** The threshold flush of the run above does happen, before the
    notification. *)
Example one_second_is_flushed :
  map is_audio_message
    (sent (run reliable initial
             [audio one_second; audio [x02; x03]; turn_complete]))
  = [true; true; false].
Proof. vm_compute. reflexivity. Qed.

(** C4, as stated, fails: the two bytes buffered before the interruption
    are not discarded, the Audio message written after the Interrupted
    message carries them. *)
Lemma C4_counterexample :
  exists w,
    sent interrupted_run = [Msg_interrupted; Msg_audio w; Msg_assistant_silent]
    /\ pcm_of (Msg_audio w) = [x01; x02]
    /\ ~ (forall m, In m (skipn 1 (sent interrupted_run)) -> pcm_of m = []).
Proof.
  eexists. split; [vm_compute; reflexivity|]. split; [reflexivity|].
  intro H. specialize (H _ (or_introl eq_refl)). discriminate H.
Qed.

Variable ws_accepts : list message -> message -> bool.
Local Notation "'handle'" := (handle_gemini_response ws_accepts).
Local Notation "'run'" := (Handler.run ws_accepts).

Lemma handle_interrupted_buffer (st : state) :
  audio_buffer (handle st interrupted) = audio_buffer st
  /\ audio_chunk_count (handle st interrupted) = audio_chunk_count st.
Proof.
  destruct st as [c k buf log]. run_handler.
  destruct c; cbn; [|auto]. destruct (ws_accepts log Msg_interrupted); cbn; auto.
Qed.

(** What a processed response writes: no Audio message, the bytes going to
    the buffer, or an Audio message first, which carries the buffer and the
    bytes. *)
Lemma handle_first_audio (st : state) (r : response) :
  is_connected (handle st r) = true ->
  exists new,
    sent (handle st r) = sent st ++ new
    /\ ((no_audio new = true
         /\ audio_buffer (handle st r) = audio_buffer st ++ audio_of r)
        \/ exists w rest,
             new = Msg_audio w :: rest
             /\ pcm_of (Msg_audio w) = audio_buffer st ++ audio_of r).
Proof.
  intro Hc.
  assert (Hc0 : is_connected st = true)
    by (destruct (handle_step ws_accepts _ _ Hc); assumption).
  assert (Hplain : forall m,
            is_audio_message m = false ->
            audio_of r = [] ->
            dispatch ws_accepts r = send_text ws_accepts m ->
            exists new,
              sent (handle st r) = sent st ++ new
              /\ ((no_audio new = true
                   /\ audio_buffer (handle st r) = audio_buffer st ++ audio_of r)
                  \/ exists w rest,
                       new = Msg_audio w :: rest
                       /\ pcm_of (Msg_audio w) = audio_buffer st ++ audio_of r)).
  { intros m Hm Ha Hd.
    destruct (handle_plain_cases ws_accepts st r m Hc0 Hd) as [[_ E]|E];
      [|congruence].
    exists [m]. rewrite E, Ha, app_nil_r. cbn [sent audio_buffer no_audio forallb].
    rewrite Hm. auto. }
  destruct r as [d|t| | |e];
    try (eapply Hplain; [| |reflexivity]; reflexivity).
  - destruct (handle_audio_cases ws_accepts st d Hc0)
      as [[_ E]|[(_ & w & Hw & _ & E)|[_ E]]].
    + exists []. rewrite E. cbn. rewrite app_nil_r. auto.
    + exists [Msg_audio w]. rewrite E. cbn [sent audio_buffer audio_of].
      split; [reflexivity|]. right. exists w, []. split; [reflexivity|].
      cbn [pcm_of]. now apply frame_payload.
    + rewrite E in Hc. discriminate.
  - destruct (handle_turn_complete_cases ws_accepts st Hc0)
      as [(Hb & _ & E)|[(_ & w & Hw & _ & _ & E)|E]]; [| |congruence].
    + exists [Msg_assistant_silent]. rewrite E, Hb. cbn. auto.
    + exists [Msg_audio w; Msg_assistant_silent]. rewrite E.
      cbn [sent audio_buffer audio_of]. rewrite <- app_assoc.
      split; [reflexivity|]. right. exists w, [Msg_assistant_silent].
      split; [reflexivity|]. cbn [pcm_of]. rewrite app_nil_r.
      now apply frame_payload.
Qed.

Lemma no_audio_prefix (l1 l2 before after : list message) (w : bytes) :
  no_audio l1 = true ->
  no_audio before = true ->
  l1 ++ l2 = before ++ Msg_audio w :: after ->
  exists before', before = l1 ++ before' /\ l2 = before' ++ Msg_audio w :: after.
Proof.
  revert before. induction l1 as [|x l1 IH]; intros before H1 Hb E.
  - exists before. auto.
  - cbn [no_audio forallb] in H1. apply andb_true_iff in H1.
    destruct H1 as [Hx H1].
    destruct before as [|y before]; cbn [app] in E; injection E as -> E.
    + discriminate Hx.
    + cbn [no_audio forallb] in Hb. apply andb_true_iff in Hb.
      destruct Hb as [_ Hb].
      destruct (IH before H1 Hb E) as (before' & -> & ->).
      exists before'. auto.
Qed.

(** The first Audio message written from a state on starts with the bytes
    that were in the buffer. *)
Lemma run_first_audio (rs : list response) (st : state)
    (before after : list message) (w : bytes) :
  is_connected (run st rs) = true ->
  sent (run st rs) = sent st ++ before ++ Msg_audio w :: after ->
  no_audio before = true ->
  exists more, pcm_of (Msg_audio w) = audio_buffer st ++ more.
Proof.
  revert st before. induction rs as [|r rs IH]; intros st before Hc Hs Hb.
  - cbn in Hs. rewrite <- (app_nil_r (sent st)) in Hs at 1.
    apply app_inv_head in Hs. now destruct before.
  - rewrite run_cons in Hc, Hs.
    assert (Hc1 : is_connected (handle st r) = true)
      by (destruct (run_steps ws_accepts _ _ Hc); assumption).
    destruct (handle_first_audio st r Hc1) as (new1 & Hs1 & Hcase).
    destruct (run_steps ws_accepts rs _ Hc) as (_ & new' & Hs' & _).
    rewrite Hs', Hs1, <- app_assoc in Hs. apply app_inv_head in Hs.
    destruct Hcase as [[Hn Hbuf]|(w1 & rest & -> & Hw1)].
    + destruct (no_audio_prefix _ _ _ _ _ Hn Hb Hs) as (before' & -> & ->).
      assert (Hb' : no_audio before' = true).
      { unfold no_audio in Hb. rewrite forallb_app in Hb.
        now apply andb_true_iff in Hb. }
      destruct (IH (handle st r) before' Hc Hs' Hb') as [more Hm].
      exists (audio_of r ++ more). now rewrite Hm, Hbuf, app_assoc.
    + destruct before as [|y before]; cbn [app] in Hs; injection Hs as Hy Hs.
      * subst w1. now exists (audio_of r).
      * subst y. discriminate Hb.
Qed.

(** C4 (amended). A response whose interrupted flag is set makes the
    receive loop call the handler once, with [interrupted], whatever else the
    response holds (the rest of it is skipped, no turn is counted), and the
    handler writes the Interrupted message and leaves the playback buffer as
    it is, neither flushed nor discarded: the next Audio message written
    starts with the bytes accumulated before the interruption. *)
Theorem C4_interrupted_keeps_buffer (content : Receive.server_content)
    (st : state) :
  Receive.interrupted content = true ->
  (forall rcv,
     Receive.task rcv = Running ->
     Receive.shutdown_event rcv = false ->
     Receive.at_ rcv <> Receive.InBody ->
     let whole := Receive.step rcv (Receive.Yields (Some content)) in
     let first := Receive.step rcv (Receive.Begins (Some content)) in
     Receive.calls whole = Receive.calls rcv ++ [Response interrupted]
     /\ Receive.turn_count whole = Receive.turn_count rcv
     /\ Receive.task whole = Running
     /\ Receive.calls first = Receive.calls rcv ++ [Response interrupted]
     /\ Receive.pending first = []
     /\ Receive.calls (Receive.step first Receive.Resumes)
        = Receive.calls first)
  /\ audio_buffer (handle st interrupted) = audio_buffer st
  /\ (is_connected (handle st interrupted) = true ->
      sent (handle st interrupted) = sent st ++ [Msg_interrupted])
  /\ (forall rs,
        is_connected (run (handle st interrupted) rs) = true ->
        exists new,
          sent (run (handle st interrupted) rs)
          = sent (handle st interrupted) ++ new
          /\ pcm_of_log new ++ audio_buffer (run (handle st interrupted) rs)
             = audio_buffer st ++ received rs
          /\ forall before w after,
               new = before ++ Msg_audio w :: after ->
               no_audio before = true ->
               exists more, pcm_of (Msg_audio w) = audio_buffer st ++ more).
Proof.
  intro Hi. split; [|split; [|split]].
  - intros rcv Ht Hs Hp whole first. subst whole first.
    destruct rcv as [sd n p t cs pd ft]. cbn in Ht, Hs, Hp. subst t sd.
    unfold Receive.step.
    cbn [Receive.task Receive.at_ Receive.shutdown_event].
    destruct p; [| |congruence];
      cbn [Receive.in_for Receive.goto Receive.shutdown_event
           Receive.response_calls];
      unfold Receive.content_calls, Receive.count_turn; rewrite Hi;
      cbn; auto 10.
  - apply handle_interrupted_buffer.
  - intro Hc.
    assert (Hc0 : is_connected st = true)
      by (destruct (handle_step ws_accepts _ _ Hc); assumption).
    destruct (handle_plain_cases ws_accepts st interrupted Msg_interrupted
                Hc0 eq_refl) as [[_ E]|E]; [now rewrite E|congruence].
  - intros rs Hc.
    destruct (run_steps ws_accepts rs _ Hc) as (_ & new & Hs & Hp & _).
    exists new. split; [assumption|]. split.
    + rewrite Hp. now rewrite (proj1 (handle_interrupted_buffer st)).
    + intros before w after -> Hb.
      destruct (run_first_audio rs _ before after w Hc Hs Hb) as [more Hm].
      exists more. now rewrite Hm, (proj1 (handle_interrupted_buffer st)).
Qed.

End HandlerRuns.

Lemma C4_interrupted_keeps_buffer_witness :
  let content := Receive.mkContent true
                   (Some [Receive.mkPart (Some [x09]) None]) true in
  let st := Handler.mkState true 1 [x01; x02] [] in
  let st' := Handler.handle_gemini_response Handler.reliable st
               Handler.interrupted in
  Receive.calls (Receive.step Receive.initial (Receive.Yields (Some content)))
  = [Response Handler.interrupted]
  /\ Handler.audio_buffer st' = [x01; x02]
  /\ exists new,
       Handler.sent
         (Handler.run Handler.reliable st'
            [Handler.audio [x03]; Handler.turn_complete])
       = Handler.sent st' ++ new
       /\ forall before w after,
            new = before ++ Handler.Msg_audio w :: after ->
            no_audio before = true ->
            exists more,
              Handler.pcm_of (Handler.Msg_audio w) = [x01; x02] ++ more.
Proof.
  intros content st st'.
  pose proof (C4_interrupted_keeps_buffer Handler.reliable content st eq_refl)
    as (Hloop & Hbuf & _ & Hnext).
  destruct (Hloop Receive.initial eq_refl eq_refl ltac:(discriminate))
    as (Hcalls & _).
  destruct (Hnext [Handler.audio [x03]; Handler.turn_complete] eq_refl)
    as (new & Hs & _ & Hfirst).
  split; [exact Hcalls|]. split; [exact Hbuf|].
  exists new. split; [exact Hs|exact Hfirst].
Defined.

(* ===================================================================== *)
(** * Facts about the loops and the coordinator                          *)
(* ===================================================================== *)

Module LoopFacts.

(** ** The event is only ever set *)

Lemma send_step_keeps_set (st : Send.state) (e : Send.event) :
  Send.shutdown_event st = true -> Send.shutdown_event (Send.step st e) = true.
Proof.
  intro H. destruct st as [sd q n f t cs w ft]. cbn in H. subst sd.
  destruct e as [o| |item| |]; destruct t; try reflexivity.
  - unfold Send.step, Send.turn, Send.after_get, Send.on_exception.
    cbn [Send.task Send.waiting Send.shutdown_event Send.audio_queue].
    destruct w; destruct q as [|[d|] rest]; try reflexivity;
      destruct o as [|error_str| |error_str exc]; try reflexivity;
      destruct (Str.connection_closed error_str); reflexivity.
  - destruct w; reflexivity.
Qed.

Lemma send_task_keeps_set (es : list Send.event) (st : Send.state) :
  Send.shutdown_event st = true ->
  Send.shutdown_event (Send.send_audio_task st es) = true.
Proof.
  revert st. induction es as [|e es IH]; intros st H; [assumption|].
  cbn [Send.send_audio_task fold_left]. apply IH. now apply send_step_keeps_set.
Qed.

Lemma receive_on_exception_keeps_set (error_str : string) (st : Receive.state) :
  Receive.shutdown_event st = true ->
  Receive.shutdown_event (Receive.on_exception error_str st) = true.
Proof.
  intro H. unfold Receive.on_exception.
  destruct (Str.cancellation error_str); [assumption|].
  destruct (Str.connection_closed error_str); [reflexivity|assumption].
Qed.

Lemma receive_on_log_exception_keeps_set (error_str exc : string)
    (report : option string) (st : Receive.state) :
  Receive.shutdown_event st = true ->
  Receive.shutdown_event (Receive.on_log_exception error_str exc report st)
  = true.
Proof.
  intro H. unfold Receive.on_log_exception.
  destruct (Str.cancellation error_str); [assumption|].
  destruct report; assumption.
Qed.

Lemma receive_make_flag (c : call) (st : Receive.state) :
  Receive.shutdown_event (Receive.make c st) = Receive.shutdown_event st.
Proof. destruct c as [[| | | |]|]; reflexivity. Qed.

Lemma receive_continue_flag (st : Receive.state) :
  Receive.shutdown_event (Receive.continue st) = Receive.shutdown_event st.
Proof.
  unfold Receive.continue. destruct (Receive.pending st); [reflexivity|].
  now rewrite receive_make_flag.
Qed.

Lemma receive_step_keeps_set (st : Receive.state) (e : Receive.event) :
  Receive.shutdown_event st = true ->
  Receive.shutdown_event (Receive.step st e) = true.
Proof.
  intro H. unfold Receive.step.
  destruct e as [server| |error_str| | |server| |error_str exc report];
    try reflexivity;
    (destruct (Receive.task st); [|assumption]); try assumption;
    (destruct (Receive.at_ st); [now rewrite H| |]);
    cbn [Receive.in_for Receive.in_body Receive.goto Receive.shutdown_event];
    rewrite ?H;
    first [ assumption | reflexivity
          | now apply receive_on_exception_keeps_set
          | now apply receive_on_log_exception_keeps_set
          | now rewrite receive_continue_flag ].
Qed.

Lemma receive_task_keeps_set (es : list Receive.event) (st : Receive.state) :
  Receive.shutdown_event st = true ->
  Receive.shutdown_event (Receive.receive_responses_task st es) = true.
Proof.
  revert st. induction es as [|e es IH]; intros st H; [assumption|].
  cbn [Receive.receive_responses_task fold_left]. apply IH.
  now apply receive_step_keeps_set.
Qed.

Lemma waiting_keeps_set (ws : list Coordinator.wake) :
  fst (fst (Coordinator.waiting true ws)) = true.
Proof.
  induction ws as [|w ws IH]; [reflexivity|].
  destruct w as [s r| |]; cbn [Coordinator.waiting]; [|reflexivity|assumption].
  destruct (Coordinator.exceptions s r) as [set|]; [|reflexivity].
  cbn [orb]. destruct (Coordinator.is_done s && Coordinator.is_done r);
    reflexivity.
Qed.

Lemma supervise_keeps_set (ws : list Coordinator.wake) :
  fst (fst (Coordinator.supervise true ws)) = true.
Proof. reflexivity. Qed.

Lemma run_gemini_session_keeps_set (connect : option string)
    (ws : list Coordinator.wake)
    (final : Coordinator.task_id -> Coordinator.awaited) :
  Coordinator.shutdown_event
    (Coordinator.run_gemini_session connect true ws final) = true.
Proof.
  unfold Coordinator.run_gemini_session. destruct connect; [reflexivity|].
  cbn. destruct (Coordinator.finally_ final). reflexivity.
Qed.

(** Setting the event twice is setting it once. *)
Lemma send_set_twice (st : Send.state) :
  Send.set_shutdown (Send.set_shutdown st) = Send.set_shutdown st.
Proof. reflexivity. Qed.

Lemma receive_set_twice (st : Receive.state) :
  Receive.set_shutdown (Receive.set_shutdown st) = Receive.set_shutdown st.
Proof. reflexivity. Qed.

(** ** A task that returned makes no further call *)

Lemma send_returned_step (st : Send.state) (e : Send.event) :
  Send.task st = Returned ->
  Send.task (Send.step st e) = Returned
  /\ Send.calls (Send.step st e) = Send.calls st
  /\ Send.forwarded (Send.step st e) = Send.forwarded st.
Proof.
  intro H. destruct st as [sd q n f t cs w ft]. cbn in H. subst t.
  destruct e; cbn; auto.
Qed.

Lemma send_returned_run (es : list Send.event) (st : Send.state) :
  Send.task st = Returned ->
  Send.calls (Send.send_audio_task st es) = Send.calls st
  /\ Send.forwarded (Send.send_audio_task st es) = Send.forwarded st.
Proof.
  revert st. induction es as [|e es IH]; intros st H; [auto|].
  cbn [Send.send_audio_task fold_left].
  destruct (send_returned_step st e H) as (Ht & Hc & Hf).
  destruct (IH _ Ht) as [Hc' Hf']. unfold Send.send_audio_task in *.
  rewrite Hc', Hf'. auto.
Qed.

Lemma receive_returned_step (st : Receive.state) (e : Receive.event) :
  Receive.task st = Returned ->
  Receive.task (Receive.step st e) = Returned
  /\ Receive.calls (Receive.step st e) = Receive.calls st.
Proof.
  intro H. unfold Receive.step. destruct e; rewrite ?H; auto.
Qed.

Lemma receive_returned_task (es : list Receive.event) (st : Receive.state) :
  Receive.task st = Returned ->
  Receive.task (Receive.receive_responses_task st es) = Returned.
Proof.
  revert st. induction es as [|e es IH]; intros st H; [exact H|].
  cbn [Receive.receive_responses_task fold_left]. apply IH.
  now destruct (receive_returned_step st e H).
Qed.

Lemma receive_returned_run (es : list Receive.event) (st : Receive.state) :
  Receive.task st = Returned ->
  Receive.calls (Receive.receive_responses_task st es) = Receive.calls st.
Proof.
  revert st. induction es as [|e es IH]; intros st H; [reflexivity|].
  cbn [Receive.receive_responses_task fold_left].
  destruct (receive_returned_step st e H) as [Ht Hc].
  unfold Receive.receive_responses_task in IH. now rewrite (IH _ Ht).
Qed.

(** ** The loops once the event is set *)

Lemma responses_in_app (l1 l2 : list call) :
  responses_in (l1 ++ l2) = responses_in l1 ++ responses_in l2.
Proof. apply flat_map_app. Qed.

Ltac receive_case :=
  cbn; rewrite ?app_nil_r; repeat split; intros;
  try solve [auto | congruence | discriminate].

(** With the event set and every log call returning, a step of the
    receive loop makes at most the next callback of the body in progress. *)
Lemma receive_step_when_set (st : Receive.state) (e : Receive.event) :
  Receive.shutdown_event st = true ->
  log_fails e = false ->
  exists made dropped new,
    outstanding st = made ++ outstanding (Receive.step st e) ++ dropped
    /\ Receive.calls (Receive.step st e) = Receive.calls st ++ new
    /\ responses_in new = responses_in made.
Proof.
  intros Hs Hl. destruct st as [sd n p t cs pd ft]. cbn in Hs. subst sd.
  destruct t; [|exists [], [], []; destruct e; receive_case].
  destruct p.
  - exists [], [], []. destruct e; receive_case.
  - destruct e as [server| |error_str| | |server| |error_str exc report];
      try discriminate; try solve [exists [], [], []; receive_case].
    unfold Receive.step, Receive.in_for, Receive.on_exception.
    cbn [Receive.task Receive.at_].
    destruct (Str.cancellation error_str);
      [|destruct (Str.connection_closed error_str)];
      [exists [], [], []; receive_case
      |exists [], [], [Log "❌ Gemini connection lost" "error"]; receive_case
      |exists [], [], [Log ("⚠️ Receive error: " ++ error_str) "warn"];
       receive_case].
  - destruct e as [server| |error_str| | |server| |error_str exc report];
      try discriminate; try solve [exists [], [], []; receive_case].
    + unfold Receive.step, Receive.in_body, Receive.on_exception.
      cbn [Receive.task Receive.at_].
      destruct (Str.cancellation error_str);
        [|destruct (Str.connection_closed error_str)];
        [exists [], pd, []; receive_case
        |exists [], pd, [Log "❌ Gemini connection lost" "error"];
         receive_case
        |exists [], pd, [Log ("⚠️ Receive error: " ++ error_str) "warn"];
         receive_case].
    + exists [], pd, []. receive_case.
    + destruct pd as [|c rest]; [exists [], [], []; receive_case|].
      exists [c], [], [c]. destruct c as [[| | | |]|]; receive_case.
Qed.

Lemma receive_run_when_set (es : list Receive.event) (st : Receive.state) :
  Receive.shutdown_event st = true ->
  forallb (fun e => negb (log_fails e)) es = true ->
  exists made dropped,
    outstanding st
    = made ++ outstanding (Receive.receive_responses_task st es) ++ dropped
    /\ responses_in (Receive.calls (Receive.receive_responses_task st es))
       = responses_in (Receive.calls st) ++ responses_in made.
Proof.
  revert st. induction es as [|e es IH]; intros st Hs Hl.
  - exists [], []. cbn. rewrite !app_nil_r. auto.
  - cbn [forallb] in Hl. apply andb_true_iff in Hl. destruct Hl as [He Hl].
    apply negb_true_iff in He.
    cbn [Receive.receive_responses_task fold_left].
    destruct (receive_step_when_set st e Hs He)
      as (m1 & d1 & new & Ho1 & Hc1 & Hr1).
    destruct (IH _ (receive_step_keeps_set st e Hs) Hl)
      as (m2 & d2 & Ho2 & Hr2).
    exists (m1 ++ m2), (d2 ++ d1).
    unfold Receive.receive_responses_task in *.
    rewrite Hr2, Hc1, Ho1, Ho2, !responses_in_app, Hr1, <- !app_assoc. auto.
Qed.

(** With the event set, a loop that is not in a body returns when the
    iterator yields. *)
Lemma receive_step_outside_body (st : Receive.state) (e : Receive.event) :
  Receive.shutdown_event st = true ->
  Receive.at_ st <> Receive.InBody ->
  Receive.at_ (Receive.step st e) <> Receive.InBody
  /\ (forall server, e = Receive.Yields server ->
        Receive.task (Receive.step st e) = Returned).
Proof.
  intros Hs Hp. destruct st as [sd n p t cs pd ft]. cbn in Hs, Hp. subst sd.
  destruct p; [| |congruence];
    (destruct e as [server| |error_str| | |server| |error_str exc report];
     destruct t; cbn;
     unfold Receive.on_exception, Receive.on_log_exception;
     try destruct (Str.cancellation error_str);
     try destruct (Str.connection_closed error_str);
     try destruct report;
     cbn; split; intros; try discriminate; try reflexivity).
Qed.

(** ** The coordinator *)

(** Once the event is set, the next return of the wait leaves the loop. *)
Lemma waiting_set_exits (w : Coordinator.wake) (ws : list Coordinator.wake) :
  w <> Coordinator.SetElsewhere ->
  snd (Coordinator.waiting true (w :: ws)) = true.
Proof.
  intro H. destruct w as [s r| |]; [|reflexivity|congruence].
  cbn [Coordinator.waiting].
  destruct (Coordinator.exceptions s r) as [set|]; [|reflexivity].
  cbn [orb]. destruct (Coordinator.is_done s && Coordinator.is_done r);
    reflexivity.
Qed.

(** The [finally] block when the await of the send task does not raise:
    both tasks are awaited. *)
Lemma finally_awaits_both (final : Coordinator.task_id -> Coordinator.awaited) :
  (forall exc, final Coordinator.send_task <> Coordinator.AwaitRaises exc) ->
  fst (Coordinator.finally_ final)
  = [Coordinator.SetShutdown; Coordinator.Cancel Coordinator.send_task;
     Coordinator.Cancel Coordinator.receive_task;
     Coordinator.Await Coordinator.send_task;
     Coordinator.Await Coordinator.receive_task].
Proof.
  intro H. unfold Coordinator.finally_. cbn [Coordinator.await_all].
  destruct (final Coordinator.send_task) as [| |exc] eqn:E;
    [| |now destruct (H exc)];
    destruct (final Coordinator.receive_task); reflexivity.
Qed.

(** Every run that leaves the supervising loop goes through the start of
    the [finally] block and closes the connection. *)
Lemma run_gemini_session_leaves (sd : bool) (ws : list Coordinator.wake)
    (final : Coordinator.task_id -> Coordinator.awaited) :
  Coordinator.outcome (Coordinator.run_gemini_session None sd ws final)
  <> Coordinator.Supervising ->
  Coordinator.shutdown_event (Coordinator.run_gemini_session None sd ws final)
  = true
  /\ exists before awaits,
       Coordinator.actions (Coordinator.run_gemini_session None sd ws final)
       = before
         ++ [Coordinator.SetShutdown; Coordinator.Cancel Coordinator.send_task;
             Coordinator.Cancel Coordinator.receive_task;
             Coordinator.Await Coordinator.send_task]
         ++ awaits ++ [Coordinator.CloseConnection].
Proof.
  unfold Coordinator.run_gemini_session.
  destruct (Coordinator.supervise sd ws) as [[s acts] exited].
  destruct exited; [|cbn; congruence].
  unfold Coordinator.finally_. cbn [Coordinator.await_all].
  intros _.
  set (start := [Coordinator.OpenConnection;
                 Coordinator.CreateTask Coordinator.send_task;
                 Coordinator.CreateTask Coordinator.receive_task]).
  destruct (final Coordinator.send_task) as [| |exc].
  1, 2: destruct (final Coordinator.receive_task) as [| |exc'];
    (split; [reflexivity|]);
    exists (start ++ acts), [Coordinator.Await Coordinator.receive_task];
    cbn [Coordinator.actions]; now rewrite <- !app_assoc.
  split; [reflexivity|]. exists (start ++ acts), [].
  cbn [Coordinator.actions]. now rewrite <- !app_assoc.
Qed.

(** ** The event shared in a session *)

Lemma share_send_flag (b : bool) (st : Send.state) :
  Send.shutdown_event (Session.share_send b st) = b || Send.shutdown_event st.
Proof. destruct b; reflexivity. Qed.

Lemma share_receive_flag (b : bool) (st : Receive.state) :
  Receive.shutdown_event (Session.share_receive b st)
  = b || Receive.shutdown_event st.
Proof. destruct b; reflexivity. Qed.

Lemma send_step_flag (st : Send.state) (e : Send.event) :
  Send.shutdown_event (Send.step st e) = false ->
  Send.shutdown_event st = false.
Proof.
  intro H. destruct (Send.shutdown_event st) eqn:E; [|reflexivity].
  now rewrite (send_step_keeps_set st e E) in H.
Qed.

Lemma receive_step_flag (st : Receive.state) (e : Receive.event) :
  Receive.shutdown_event (Receive.step st e) = false ->
  Receive.shutdown_event st = false.
Proof.
  intro H. destruct (Receive.shutdown_event st) eqn:E; [|reflexivity].
  now rewrite (receive_step_keeps_set st e E) in H.
Qed.

Lemma finalize_fields (acts : list Coordinator.action) (s : Session.state) :
  Session.shutdown_event (Session.finalize acts s) = true
  /\ Session.send (Session.finalize acts s)
     = Send.step (Send.set_shutdown (Session.send s)) Send.Cancelled
  /\ Session.receive (Session.finalize acts s)
     = Receive.step (Receive.set_shutdown (Session.receive s))
         Receive.Cancelled
  /\ Session.calls (Session.finalize acts s) = Session.calls s
  /\ Session.outcome (Session.finalize acts s) <> Coordinator.Supervising.
Proof.
  unfold Session.finalize.
  destruct (Coordinator.finally_ _) as [facts [exc|]]; cbn;
    repeat split; discriminate.
Qed.

Lemma finalize_tasks (acts : list Coordinator.action) (s : Session.state) :
  Send.task (Session.send (Session.finalize acts s)) = Returned
  /\ Receive.task (Session.receive (Session.finalize acts s)) = Returned.
Proof.
  destruct (finalize_fields acts s) as (_ & -> & -> & _). split.
  - destruct (Session.send s) as [sd q n f [] cs w ft]; reflexivity.
  - destruct (Session.receive s) as [sd n p [] cs pd ft]; reflexivity.
Qed.

(** With no task ended by an exception the whole teardown runs and the
    session returns. *)
Lemma finalize_completes (acts : list Coordinator.action) (s : Session.state) :
  Send.fault (Session.send s) = None ->
  Receive.fault (Session.receive s) = None ->
  Session.outcome (Session.finalize acts s) = Coordinator.Completed
  /\ Session.actions (Session.finalize acts s)
     = Session.actions s ++ acts ++ Coordinator.teardown.
Proof.
  intros Hf1 Hf2.
  assert (E1 : Send.fault
                 (Send.step (Send.set_shutdown (Session.send s)) Send.Cancelled)
               = None)
    by (destruct (Session.send s) as [sd q n f [] cs w ft]; exact Hf1).
  assert (E2 : Receive.fault
                 (Receive.step (Receive.set_shutdown (Session.receive s))
                    Receive.Cancelled) = None)
    by (destruct (Session.receive s) as [sd n p [] cs pd ft]; exact Hf2).
  unfold Session.finalize. cbn zeta. rewrite E1, E2.
  cbn -[Send.step Receive.step]. auto.
Qed.

Lemma finalize_shared (acts : list Coordinator.action) (s : Session.state) :
  Session.shared (Session.finalize acts s)
  /\ Session.shutdown_event (Session.finalize acts s) = true.
Proof.
  destruct (finalize_fields acts s) as (Hf & Hs & Hr & _).
  unfold Session.shared. rewrite Hf, Hs, Hr. repeat split.
  - apply send_step_keeps_set. reflexivity.
  - apply receive_step_keeps_set. reflexivity.
Qed.

Lemma coordinate_shared (w : Coordinator.wake) (s : Session.state) :
  Session.shared s -> Session.shared (Session.coordinate w s).
Proof.
  intros [H1 H2]. unfold Session.coordinate.
  destruct (Coordinator.waiting (Session.shutdown_event s) [w])
    as [[sd acts] exited] eqn:Ew.
  destruct exited; [apply finalize_shared|].
  unfold Session.shared. cbn. rewrite share_send_flag, share_receive_flag, H1, H2.
  assert (Hsd : sd = true \/ sd = Session.shutdown_event s).
  { destruct w as [a b| |]; cbn in Ew.
    - destruct (Coordinator.exceptions a b) as [set|]; [|congruence].
      destruct (Coordinator.is_done a && Coordinator.is_done b); [congruence|].
      destruct (Session.shutdown_event s || set) eqn:Es; [congruence|].
      inversion Ew; subst. apply orb_false_iff in Es. right.
      destruct Es as [-> _]. reflexivity.
    - congruence.
    - inversion Ew; subst. now left. }
  destruct Hsd as [->| ->]; [split; reflexivity|].
  destruct (Session.shutdown_event s); split; reflexivity.
Qed.

Lemma start_shared (connect : option string) (sd : bool) :
  Session.shared (Session.start connect sd).
Proof.
  unfold Session.start. destruct connect as [exc|].
  - destruct sd; split; reflexivity.
  - destruct sd; [apply finalize_shared|split; reflexivity].
Qed.

Lemma session_step_shared (s : Session.state) (e : Session.event) :
  Session.shared s -> Session.shared (Session.step s e).
Proof.
  intros Hs. pose proof Hs as [H1 H2]. unfold Session.step.
  destruct (Session.outcome s); [|assumption|assumption].
  destruct e as [o| |e| |item| |].
  - unfold Session.shared. cbn -[Send.step]. split; [reflexivity|].
    rewrite share_receive_flag, H2, <- H1.
    destruct (Send.shutdown_event (Send.step (Session.send s) (Send.Turn o)))
      eqn:E; [reflexivity|].
    now rewrite (send_step_flag _ _ E).
  - unfold Session.shared. cbn -[Send.step]. split; [|assumption].
    rewrite <- H1. destruct (Session.send s) as [sd q n f t cs w ft].
    destruct t; [|reflexivity]. cbn. unfold Send.wait. cbn.
    destruct w; [reflexivity|]. destruct sd; reflexivity.
  - unfold Session.shared. cbn -[Receive.step]. split; [|reflexivity].
    rewrite share_send_flag, H1, <- H2.
    destruct (Receive.shutdown_event (Receive.step (Session.receive s) e))
      eqn:E; [reflexivity|].
    now rewrite (receive_step_flag _ _ E).
  - now apply coordinate_shared.
  - unfold Session.shared. cbn. split; [|assumption]. rewrite <- H1.
    now destruct (Session.send s).
  - split; reflexivity.
  - now apply coordinate_shared.
Qed.

Lemma session_run_shared (es : list Session.event) (s : Session.state) :
  Session.shared s -> Session.shared (Session.run s es).
Proof.
  revert s. induction es as [|e es IH]; intros s H; [assumption|].
  cbn [Session.run fold_left]. apply IH. now apply session_step_shared.
Qed.

(** No step of a session clears the event. *)
Lemma session_step_keeps_set (s : Session.state) (e : Session.event) :
  Session.shared s ->
  Session.shutdown_event s = true ->
  Session.shutdown_event (Session.step s e) = true.
Proof.
  intros [H1 H2] Hs. rewrite Hs in H1, H2. unfold Session.step.
  destruct (Session.outcome s); [|assumption|assumption].
  assert (Hco : forall w, Session.shutdown_event (Session.coordinate w s) = true).
  { intro w. unfold Session.coordinate. rewrite Hs.
    pose proof (waiting_keeps_set [w]) as Hk.
    destruct (Coordinator.waiting true [w]) as [[sd acts] exited].
    cbn in Hk. subst sd. destruct exited; [apply finalize_shared|reflexivity]. }
  destruct e as [o| |e| |item| |]; try apply Hco;
    cbn -[Send.step Receive.step]; auto.
  - now apply send_step_keeps_set.
  - now apply receive_step_keeps_set.
Qed.

Lemma session_run_keeps_set (es : list Session.event) (s : Session.state) :
  Session.shared s ->
  Session.shutdown_event s = true ->
  Session.shutdown_event (Session.run s es) = true.
Proof.
  revert s. induction es as [|e es IH]; intros s Hsh Hs; [assumption|].
  cbn [Session.run fold_left]. apply IH.
  - now apply session_step_shared.
  - now apply session_step_keeps_set.
Qed.

(** ** The calls of a session *)

Lemma added_same (l : list call) : Session.added l l = [].
Proof. unfold Session.added. apply skipn_all. Qed.

Lemma added_app (l new : list call) : Session.added l (l ++ new) = new.
Proof.
  unfold Session.added. rewrite skipn_app, skipn_all, Nat.sub_diag.
  reflexivity.
Qed.

Lemma outstanding_set_shutdown (r : Receive.state) :
  outstanding (Receive.set_shutdown r) = outstanding r.
Proof. reflexivity. Qed.

Lemma outstanding_share (b : bool) (r : Receive.state) :
  outstanding (Session.share_receive b r) = outstanding r.
Proof. destruct b; reflexivity. Qed.

Lemma outstanding_cancelled (r : Receive.state) :
  outstanding (Receive.step (Receive.set_shutdown r) Receive.Cancelled) = [].
Proof. destruct r as [sd n p [] cs pd ft]; reflexivity. Qed.

(** The send loop calls the log callback only. *)
Lemma send_step_logs (st : Send.state) (e : Send.event) :
  exists new,
    Send.calls (Send.step st e) = Send.calls st ++ new
    /\ responses_in new = [].
Proof.
  destruct st as [sd q n f t cs w ft].
  assert (Hnone : forall st0, Send.calls st0 = cs ->
            exists new, Send.calls st0 = cs ++ new /\ responses_in new = [])
    by (intros st0 H; exists []; now rewrite app_nil_r).
  destruct e as [o| |item| |]; cbn [Send.step Send.task Send.calls];
    try (destruct t; apply Hnone; reflexivity).
  - destruct t; [|now apply Hnone].
    assert (Hget : exists new,
              Send.calls
                (Send.after_get o (Send.mkState sd q n f Running cs w ft))
              = cs ++ new /\ responses_in new = []).
    { unfold Send.after_get. cbn [Send.audio_queue].
      destruct q as [|[d|] rest]; try (apply Hnone; reflexivity).
      destruct o as [|error_str| |error_str exc];
        try (apply Hnone; reflexivity).
      - unfold Send.on_exception.
        destruct (Str.connection_closed error_str); cbn;
          eexists; split; reflexivity.
      - unfold Send.error_log.
        destruct (Str.connection_closed error_str); cbn;
          eexists; split; reflexivity. }
    unfold Send.turn. cbn [Send.waiting Send.shutdown_event].
    destruct w; [exact Hget|].
    destruct sd; [now apply Hnone|exact Hget].
  - destruct t; [|now apply Hnone]. unfold Send.wait.
    cbn [Send.waiting Send.shutdown_event].
    destruct w; [|destruct sd]; now apply Hnone.
Qed.

(** With the event set and every log call returning, a step of a session
    makes at most the next callback of the body the receive loop is in. *)
Lemma session_step_when_set (s : Session.state) (e : Session.event) :
  Session.shared s ->
  Session.shutdown_event s = true ->
  orderly e = true ->
  exists made dropped,
    outstanding (Session.receive s)
    = made ++ outstanding (Session.receive (Session.step s e)) ++ dropped
    /\ responses_in (Session.calls (Session.step s e))
       = responses_in (Session.calls s) ++ responses_in made.
Proof.
  intros [H1 H2] Hs Hor. rewrite Hs in H1, H2.
  assert (Hsame : forall s',
            outstanding (Session.receive s') = outstanding (Session.receive s) ->
            Session.calls s' = Session.calls s ->
            exists made dropped,
              outstanding (Session.receive s)
              = made ++ outstanding (Session.receive s') ++ dropped
              /\ responses_in (Session.calls s')
                 = responses_in (Session.calls s) ++ responses_in made).
  { intros s' Ho Hc. exists [], []. rewrite Ho, Hc. cbn.
    now rewrite !app_nil_r. }
  assert (Hfin : forall acts,
            exists made dropped,
              outstanding (Session.receive s)
              = made ++ outstanding (Session.receive (Session.finalize acts s))
                ++ dropped
              /\ responses_in (Session.calls (Session.finalize acts s))
                 = responses_in (Session.calls s) ++ responses_in made).
  { intro acts. destruct (finalize_fields acts s) as (_ & _ & -> & -> & _).
    exists [], (outstanding (Session.receive s)).
    rewrite outstanding_cancelled. cbn. now rewrite app_nil_r. }
  assert (Hco : forall w,
            exists made dropped,
              outstanding (Session.receive s)
              = made ++ outstanding (Session.receive (Session.coordinate w s))
                ++ dropped
              /\ responses_in (Session.calls (Session.coordinate w s))
                 = responses_in (Session.calls s) ++ responses_in made).
  { intro w. unfold Session.coordinate.
    destruct (Coordinator.waiting (Session.shutdown_event s) [w])
      as [[sd acts] exited].
    destruct exited; [apply Hfin|].
    apply Hsame; [apply outstanding_share|reflexivity]. }
  unfold Session.step.
  destruct (Session.outcome s); try (now apply Hsame).
  destruct e as [o| |e| |item| |]; try apply Hco;
    try (apply Hsame; reflexivity).
  - destruct (send_step_logs (Session.send s) (Send.Turn o)) as (new & E & Hn).
    exists [], []. cbn [Session.receive Session.calls].
    rewrite outstanding_share, E, added_app, responses_in_app, Hn. cbn.
    now rewrite !app_nil_r.
  - cbn [orderly] in Hor. apply negb_true_iff in Hor.
    destruct (receive_step_when_set (Session.receive s) e H2 Hor)
      as (made & dropped & new & Ho & Hc & Hr).
    exists made, dropped. cbn [Session.receive Session.calls].
    split; [exact Ho|].
    now rewrite Hc, added_app, responses_in_app, Hr.
Qed.

Lemma session_run_when_set (es : list Session.event) (s : Session.state) :
  Session.shared s ->
  Session.shutdown_event s = true ->
  forallb orderly es = true ->
  Session.shutdown_event (Session.run s es) = true
  /\ exists made dropped,
       outstanding (Session.receive s)
       = made ++ outstanding (Session.receive (Session.run s es)) ++ dropped
       /\ responses_in (Session.calls (Session.run s es))
          = responses_in (Session.calls s) ++ responses_in made.
Proof.
  revert s. induction es as [|e es IH]; intros s Hsh Hs Hor.
  - split; [exact Hs|]. exists [], []. cbn. now rewrite !app_nil_r.
  - cbn [forallb] in Hor. apply andb_true_iff in Hor. destruct Hor as [He Hor].
    cbn [Session.run fold_left].
    destruct (session_step_when_set s e Hsh Hs He) as (m1 & d1 & Ho1 & Hr1).
    destruct (IH _ (session_step_shared s e Hsh)
                (session_step_keeps_set s e Hsh Hs) Hor)
      as (Hs2 & m2 & d2 & Ho2 & Hr2).
    split; [exact Hs2|]. exists (m1 ++ m2), (d2 ++ d1).
    unfold Session.run in *.
    rewrite Hr2, Hr1, Ho1, Ho2, responses_in_app, <- !app_assoc. auto.
Qed.

(** ** What the send loop forwards *)

Lemma Subseq_nil_l {A : Type} (l : list A) : Subseq [] l.
Proof. induction l; constructor; assumption. Qed.

Lemma send_run_cons (e : Send.event) (es : list Send.event) (st : Send.state) :
  Send.send_audio_task st (e :: es) = Send.send_audio_task (Send.step st e) es.
Proof. reflexivity. Qed.

Ltac step_fields :=
  cbn; rewrite ?app_nil_r; unfold len; cbn;
  split; [reflexivity|split; [lia|]].

Ltac same_queue :=
  step_fields; intros tail more H; cbn; rewrite <- ?app_assoc in H; exact H.

Ltac shorter_queue :=
  step_fields; intros tail more H; cbn; now constructor.

(** What one step forwards is the head of the queue, or nothing. *)
Lemma send_step_subseq (st : Send.state) (e : Send.event) :
  exists first,
    Send.forwarded (Send.step st e) = Send.forwarded st ++ first
    /\ Send.chunks_sent (Send.step st e) = Send.chunks_sent st + len first
    /\ forall tail more,
         Subseq (map Some more) (Send.audio_queue (Send.step st e) ++ tail) ->
         Subseq (map Some (first ++ more))
           (Send.audio_queue st ++ put_of e ++ tail).
Proof.
  destruct st as [sd q n f t cs w ft].
  destruct e as [o| |item| |]; cbn [Send.step put_of app].
  - destruct t; [|exists []; same_queue].
    cbn [Send.task].
    assert (Hget :
      exists first,
        Send.forwarded (Send.after_get o
                          (Send.mkState sd q n f Running cs w ft))
        = f ++ first
        /\ Send.chunks_sent (Send.after_get o
                               (Send.mkState sd q n f Running cs w ft))
           = n + len first
        /\ forall tail more,
             Subseq (map Some more)
               (Send.audio_queue
                  (Send.after_get o
                     (Send.mkState sd q n f Running cs w ft)) ++ tail) ->
             Subseq (map Some (first ++ more)) (q ++ tail)).
    { unfold Send.after_get. cbn [Send.audio_queue].
      destruct q as [|[d|] rest];
        [exists []; same_queue| |exists []; shorter_queue].
      destruct o as [|error_str| |error_str exc];
        [exists [d]; shorter_queue| |exists []; shorter_queue
        |exists []; shorter_queue].
      exists []. unfold Send.on_exception.
      destruct (Str.connection_closed error_str); shorter_queue. }
    unfold Send.turn. cbn [Send.waiting Send.shutdown_event].
    destruct w; [exact Hget|].
    destruct sd; [exists []; same_queue|exact Hget].
  - exists []. destruct t; same_queue.
  - exists []. same_queue.
  - exists []. same_queue.
  - exists []. destruct t; [|same_queue]. cbn [Send.task]. unfold Send.wait.
    cbn [Send.waiting Send.shutdown_event].
    destruct w; [same_queue|]. destruct sd; same_queue.
Qed.

(** What the loop forwards comes from its queue and from later puts. *)
Lemma send_forwards_from_queue (es : list Send.event) (st : Send.state) :
  exists added,
    Send.forwarded (Send.send_audio_task st es) = Send.forwarded st ++ added
    /\ Subseq (map Some added) (Send.audio_queue st ++ puts es).
Proof.
  revert st. induction es as [|e es IH]; intro st.
  - exists []. cbn. rewrite !app_nil_r. split; [reflexivity|apply Subseq_nil_l].
  - rewrite send_run_cons.
    destruct (send_step_subseq st e) as (first & Hf1 & _ & Hsub).
    destruct (IH (Send.step st e)) as (more & Hf2 & Hs2).
    exists (first ++ more). split.
    + rewrite Hf2, Hf1. now rewrite app_assoc.
    + cbn [puts flat_map]. now apply Hsub.
Qed.

End LoopFacts.

(* ===================================================================== *)
(** * The claims on the loops, the coordinator and the endpoint          *)
(* ===================================================================== *)

Section RelayClaims.
Import LoopFacts.

(** C5, as stated, fails. When the connection closes under the send loop
    the event is set and the teardown runs, but the client gets a log
    message of level error and no Error event; and a callback of a response
    the receive loop was processing is still made after the event is set. *)
Lemma C5_counterexample :
  (option_map Session.shutdown_event (Endpoint.session closed_on_send)
   = Some true
   /\ option_map Session.outcome (Endpoint.session closed_on_send)
      = Some Coordinator.Completed
   /\ In (Handler.Msg_server_log "❌ Gemini connection closed" "error")
        (Handler.sent (Endpoint.client closed_on_send))
   /\ error_events (Handler.sent (Endpoint.client closed_on_send)) <> 1%nat)
  /\ exists before,
       Session.calls closed_mid_response
       = before
         ++ [Response (Handler.text "a");
             Log "❌ Gemini connection closed" "error";
             Response (Handler.text "b")]
       /\ Session.shutdown_event closed_mid_response = true.
Proof.
  split.
  - split; [vm_compute; reflexivity|]. split; [vm_compute; reflexivity|].
    split; [vm_compute; tauto|]. vm_compute. discriminate.
  - exists [Log ("🔌 Connecting to Gemini Live (" ++ Session.model ++ ")...")
              "info";
            Log "✅ Connected to Gemini Live" "info"].
    split; vm_compute; reflexivity.
Qed.

(** C5 (amended). An error with the connection-closed signature is fatal
    to the session. The loop that meets it (the send loop; the receive loop
    when the message holds no cancellation marker) makes one call to the log
    callback, at level error, sets the event of the session and returns.
    From then on, as long as the log calls return, the session takes up no
    response of the remote model: the only callbacks with a response that
    can follow are the next ones of the body the receive loop was in when
    the event was set, and there is none when the receive loop met the
    error. With the event set the coordinator leaves its loop when its wait
    returns, and tears the session down. The log call reaches the client as
    a [server_log] message, not as an Error event. *)
Theorem C5_connection_closed_is_fatal (error_str : string) :
  Str.connection_closed error_str = true ->
  (forall s audio_data rest,
     Session.outcome s = Coordinator.Supervising ->
     Session.shared s ->
     Send.task (Session.send s) = Running ->
     Send.waiting (Session.send s) = true \/ Session.shutdown_event s = false ->
     Send.audio_queue (Session.send s) = Some audio_data :: rest ->
     let s' := Session.step s (Session.SendTurn (Send.SendRaises error_str)) in
     Session.shutdown_event s' = true
     /\ Session.shared s'
     /\ Send.task (Session.send s') = Returned
     /\ Send.forwarded (Session.send s') = Send.forwarded (Session.send s)
     /\ Session.calls s'
        = Session.calls s ++ [Log "❌ Gemini connection closed" "error"]
     /\ outstanding (Session.receive s') = outstanding (Session.receive s))
  /\ (Str.cancellation error_str = false ->
      forall s,
        Session.outcome s = Coordinator.Supervising ->
        Session.shared s ->
        Receive.task (Session.receive s) = Running ->
        Receive.at_ (Session.receive s) <> Receive.AtWhile
        \/ Session.shutdown_event s = false ->
        let s' := Session.step s (Session.Receive (Receive.Raises error_str)) in
        Session.shutdown_event s' = true
        /\ Session.shared s'
        /\ Receive.task (Session.receive s') = Returned
        /\ Session.calls s'
           = Session.calls s ++ [Log "❌ Gemini connection lost" "error"]
        /\ outstanding (Session.receive s') = [])
  /\ (forall s es,
        Session.shared s ->
        Session.shutdown_event s = true ->
        forallb orderly es = true ->
        Session.shutdown_event (Session.run s es) = true
        /\ exists made rest,
             outstanding (Session.receive s) = made ++ rest
             /\ responses_in (Session.calls (Session.run s es))
                = responses_in (Session.calls s) ++ responses_in made)
  /\ (forall s,
        Session.outcome s = Coordinator.Supervising ->
        Session.shutdown_event s = true ->
        Send.fault (Session.send s) = None ->
        Receive.fault (Session.receive s) = None ->
        let s' := Session.step s Session.Wake in
        Session.outcome s' = Coordinator.Completed
        /\ Session.actions s' = Session.actions s ++ Coordinator.teardown
        /\ Session.calls s' = Session.calls s
        /\ Send.task (Session.send s') = Returned
        /\ Receive.task (Session.receive s') = Returned)
  /\ (forall ws_accepts c msg,
        let c' := Endpoint.deliver ws_accepts c (Log msg "error") in
        Handler.sent c' = Handler.sent c
        \/ Handler.sent c'
           = Handler.sent c ++ [Handler.Msg_server_log msg "error"]).
Proof.
  intro Hsig. split; [|split; [|split; [|split]]].
  - intros s audio_data rest Ho Hsh Ht Hw Hq s'.
    assert (Hsh' : Session.shared s') by (now apply session_step_shared).
    subst s'. unfold Session.step. rewrite Ho.
    destruct Hsh as [H1 H2].
    destruct s as [sd [sd1 q n f t1 cs1 w ft] rcv cs acts o].
    cbn in Ho, H1, H2, Ht, Hw, Hq. subst o sd1 t1 q.
    assert (E : Send.step
                  (Send.mkState sd (Some audio_data :: rest) n f Running cs1
                     w ft)
                  (Send.Turn (Send.SendRaises error_str))
                = Send.mkState true rest n f Returned
                    (cs1 ++ [Log "❌ Gemini connection closed" "error"])
                    false ft).
    { cbn [Send.step Send.task]. unfold Send.turn, Send.after_get,
        Send.on_exception.
      cbn [Send.waiting Send.shutdown_event Send.audio_queue]. rewrite Hsig.
      destruct w; [reflexivity|].
      destruct Hw as [Hw|Hw]; [discriminate|]. cbn in Hw. rewrite Hw.
      reflexivity. }
    unfold Session.step in Hsh'. cbn [Session.outcome] in Hsh'.
    cbn [Session.send Session.receive Session.calls Session.shutdown_event]
      in Hsh' |- *.
    rewrite E in Hsh' |- *.
    cbn [Send.shutdown_event Send.task Send.forwarded Send.calls
         Session.shutdown_event Session.send Session.calls Session.receive].
    rewrite added_app.
    split; [reflexivity|]. split; [exact Hsh'|]. repeat split.
  - intros Hcan s Ho Hsh Ht Hat s'.
    assert (Hsh' : Session.shared s') by (now apply session_step_shared).
    subst s'. unfold Session.step. rewrite Ho.
    destruct Hsh as [H1 H2].
    destruct s as [sd snd [sd2 n p t2 cs2 pd ft] cs acts o].
    cbn in Ho, H1, H2, Ht, Hat. subst o sd2 t2.
    assert (E : exists p',
              Receive.step (Receive.mkState sd n p Running cs2 pd ft)
                (Receive.Raises error_str)
              = Receive.mkState true n p' Returned
                  (cs2 ++ [Log "❌ Gemini connection lost" "error"])
                  (match p with Receive.InBody => [] | _ => pd end) ft).
    { unfold Receive.step, Receive.in_for, Receive.in_body,
        Receive.on_exception.
      cbn [Receive.task Receive.at_ Receive.shutdown_event].
      destruct p.
      - destruct Hat as [Hat|Hat]; [congruence|]. cbn in Hat. rewrite Hat.
        cbn [Receive.goto Receive.shutdown_event]. rewrite Hcan, Hsig.
        eexists. reflexivity.
      - rewrite Hcan, Hsig. eexists. reflexivity.
      - rewrite Hcan, Hsig. eexists. reflexivity. }
    destruct E as [p' E].
    unfold Session.step in Hsh'. cbn [Session.outcome] in Hsh'.
    cbn [Session.send Session.receive Session.calls Session.shutdown_event]
      in Hsh' |- *.
    rewrite E in Hsh' |- *.
    cbn [Receive.shutdown_event Receive.task Receive.calls
         Session.shutdown_event Session.send Session.calls Session.receive].
    rewrite added_app.
    split; [reflexivity|]. split; [exact Hsh'|]. repeat split.
  - intros s es Hsh Hs Hor.
    destruct (session_run_when_set es s Hsh Hs Hor)
      as (Hs' & made & dropped & Ho & Hr).
    split; [exact Hs'|].
    exists made, (outstanding (Session.receive (Session.run s es)) ++ dropped).
    auto.
  - intros s Ho Hs Hf1 Hf2 s'. subst s'.
    unfold Session.step, Session.coordinate. rewrite Ho, Hs, Hf1, Hf2.
    assert (Ew : exists sd,
              Coordinator.waiting true
                [Coordinator.Wait
                   (Session.observe (Send.task (Session.send s)) None)
                   (Session.observe (Receive.task (Session.receive s)) None)]
              = (sd, [], true)).
    { destruct (Send.task (Session.send s));
        destruct (Receive.task (Session.receive s)); eexists; reflexivity. }
    destruct Ew as [sd ->].
    destruct (finalize_fields [] s) as (_ & _ & _ & Hc & _).
    destruct (LoopFacts.finalize_completes [] s Hf1 Hf2) as (Hout & Hacts).
    destruct (LoopFacts.finalize_tasks [] s) as [Hst Hrt].
    auto.
  - intros ws_accepts c msg c'. subst c'. cbn [Endpoint.deliver].
    unfold Handler.send_log, Handler.try_except, Handler.send_text.
    destruct (Handler.is_connected c); cbn; [|auto].
    destruct (ws_accepts (Handler.sent c) (Handler.Msg_server_log msg "error"));
      cbn; auto.
Qed.

Lemma C5_connection_closed_is_fatal_witness :
  let s := Session.run (Session.start None false)
             [Session.SendWait; Session.Put (Some [x01]);
              Session.Receive
                (Receive.Begins
                   (Some (Receive.mkContent false
                            (Some [Receive.mkPart None (Some "a"%string);
                                   Receive.mkPart None (Some "b"%string)])
                            false)))] in
  let s' := Session.step s
              (Session.SendTurn (Send.SendRaises "ConnectionClosed")) in
  (Session.shutdown_event s' = true
   /\ Session.shared s'
   /\ Send.task (Session.send s') = Returned
   /\ Send.forwarded (Session.send s') = Send.forwarded (Session.send s)
   /\ Session.calls s'
      = Session.calls s ++ [Log "❌ Gemini connection closed" "error"]
   /\ outstanding (Session.receive s') = outstanding (Session.receive s))
  /\ exists made rest,
       outstanding (Session.receive s') = made ++ rest
       /\ responses_in
            (Session.calls
               (Session.run s'
                  [Session.Receive Receive.Resumes;
                   Session.Receive Receive.Resumes;
                   Session.Receive
                     (Receive.Yields
                        (Some (Receive.mkContent false None true)));
                   Session.Wake]))
          = responses_in (Session.calls s') ++ responses_in made.
Proof.
  intros s s'.
  pose proof (C5_connection_closed_is_fatal "ConnectionClosed" eq_refl)
    as (Hsend & _ & Hafter & _).
  assert (Hstep : Session.shutdown_event s' = true
                  /\ Session.shared s'
                  /\ Send.task (Session.send s') = Returned
                  /\ Send.forwarded (Session.send s')
                     = Send.forwarded (Session.send s)
                  /\ Session.calls s'
                     = Session.calls s
                       ++ [Log "❌ Gemini connection closed" "error"]
                  /\ outstanding (Session.receive s')
                     = outstanding (Session.receive s)).
  { apply (Hsend s [x01] []); try reflexivity;
      [split; reflexivity|now left]. }
  split; [exact Hstep|].
  destruct Hstep as (Hev & Hsh & _).
  exact (proj2 (Hafter s'
                  [Session.Receive Receive.Resumes;
                   Session.Receive Receive.Resumes;
                   Session.Receive
                     (Receive.Yields
                        (Some (Receive.mkContent false None true)));
                   Session.Wake]
                  Hsh Hev eq_refl)).
Defined.

(** C6. With no credential the endpoint starts nothing: no session task
    (hence no remote connection, queue consumer or loop task) is created,
    nothing of the environment is consulted (no connection attempt, no
    retry, no message loop); the one message written is the configuration
    error, and when the websocket takes it the client connection is closed
    (code 1011) and the endpoint returns. *)
Theorem C6_missing_credential
    (ws_accepts : list Handler.message -> Handler.message -> bool)
    (connect : option string) (es : list Endpoint.event) :
  let notice := Handler.Msg_error "GEMINI_API_KEY not configured on server" in
  let st := Endpoint.websocket_endpoint ws_accepts EmptyString connect es in
  Endpoint.session st = None
  /\ Endpoint.at_ st <> Endpoint.Serving
  /\ st = Endpoint.websocket_endpoint ws_accepts EmptyString None []
  /\ (ws_accepts [] notice = true ->
      Handler.sent (Endpoint.client st) = [notice]
      /\ Endpoint.closed st = Some (1011, "API key not configured"%string)
      /\ Endpoint.at_ st = Endpoint.Ended)
  /\ (ws_accepts [] notice = false ->
      Handler.sent (Endpoint.client st) = []
      /\ Endpoint.at_ st = Endpoint.Escaped).
Proof.
  intros notice st. subst st.
  unfold Endpoint.websocket_endpoint, Handler.send_text.
  cbn [Handler.sent Handler.initial]. fold notice.
  destruct (ws_accepts [] notice); cbn;
    repeat split; try discriminate; auto; intro H; discriminate.
Qed.

Lemma C6_missing_credential_witness :
  Handler.sent
    (Endpoint.client
       (Endpoint.websocket_endpoint Handler.reliable EmptyString None
          [Endpoint.Client (Endpoint.Binary [x01])]))
  = [Handler.Msg_error "GEMINI_API_KEY not configured on server"]
  /\ Endpoint.closed
       (Endpoint.websocket_endpoint Handler.reliable EmptyString None
          [Endpoint.Client (Endpoint.Binary [x01])])
     = Some (1011, "API key not configured"%string)
  /\ Endpoint.at_
       (Endpoint.websocket_endpoint Handler.reliable EmptyString None
          [Endpoint.Client (Endpoint.Binary [x01])])
     = Endpoint.Ended.
Proof.
  exact (proj1 (proj2 (proj2 (proj2
           (C6_missing_credential Handler.reliable None
              [Endpoint.Client (Endpoint.Binary [x01])])))) eq_refl).
Defined.

(** With a credential the session task is created. *)
Lemma credential_starts_session
    (ws_accepts : list Handler.message -> Handler.message -> bool)
    (c : ascii) (key : string) (connect : option string) :
  Endpoint.session
    (Endpoint.websocket_endpoint ws_accepts (String c key) connect [])
  <> None.
Proof.
  unfold Endpoint.websocket_endpoint.
  destruct (Handler.send_text ws_accepts Handler.Msg_session_started
              Handler.initial) as [c0 [u|]]; cbn; discriminate.
Qed.

(** C7. One turn of the send loop that reaches the queue (from its wait,
    or from its test with the event unset). On an empty queue (the wait
    times out) nothing is forwarded or logged and the loop is back at its
    test of the event: it returns if the event is set, and waits again if
    not. On the sentinel the task returns, with the event untouched, no
    call and no exception. On a send error with the connection-closed
    signature it logs the closure, sets the event and returns. On any other
    send error it logs the error and goes on, back at its test with the
    event untouched: the chunk was taken off the queue, is not forwarded,
    and whatever follows, what the loop forwards afterwards comes from the
    rest of the queue and from later puts. *)
Theorem C7_send_loop_policy (st : Send.state) :
  Send.task st = Running ->
  Send.waiting st = true \/ Send.shutdown_event st = false ->
  (forall o,
     Send.audio_queue st = [] ->
     let st' := Send.step st (Send.Turn o) in
     st' = Send.set_waiting false st
     /\ Send.calls st' = Send.calls st
     /\ Send.forwarded st' = Send.forwarded st
     /\ (Send.shutdown_event st = true ->
         forall o', Send.task (Send.step st' (Send.Turn o')) = Returned
                    /\ Send.task (Send.step st' Send.Wait) = Returned)
     /\ (Send.shutdown_event st = false ->
         Send.step st' Send.Wait = Send.set_waiting true st
         /\ forall o', Send.step st' (Send.Turn o') = st'))
  /\ (forall o rest,
        Send.audio_queue st = None :: rest ->
        let st' := Send.step st (Send.Turn o) in
        Send.task st' = Returned
        /\ Send.fault st' = Send.fault st
        /\ Send.shutdown_event st' = Send.shutdown_event st
        /\ Send.calls st' = Send.calls st
        /\ Send.forwarded st' = Send.forwarded st
        /\ Send.audio_queue st' = rest)
  /\ (forall audio_data rest error_str,
        Send.audio_queue st = Some audio_data :: rest ->
        Str.connection_closed error_str = true ->
        let st' := Send.step st (Send.Turn (Send.SendRaises error_str)) in
        Send.shutdown_event st' = true
        /\ Send.task st' = Returned
        /\ Send.fault st' = Send.fault st
        /\ Send.calls st'
           = Send.calls st ++ [Log "❌ Gemini connection closed" "error"]
        /\ Send.forwarded st' = Send.forwarded st
        /\ Send.audio_queue st' = rest)
  /\ (forall audio_data rest error_str,
        Send.audio_queue st = Some audio_data :: rest ->
        Str.connection_closed error_str = false ->
        let st' := Send.step st (Send.Turn (Send.SendRaises error_str)) in
        Send.calls st'
        = Send.calls st
          ++ [Log ("❌ Error sending audio: " ++ error_str) "error"]
        /\ Send.task st' = Running
        /\ Send.waiting st' = false
        /\ Send.shutdown_event st' = Send.shutdown_event st
        /\ Send.forwarded st' = Send.forwarded st
        /\ Send.chunks_sent st' = Send.chunks_sent st
        /\ Send.audio_queue st' = rest
        /\ forall es,
             exists added,
               Send.forwarded (Send.send_audio_task st' es)
               = Send.forwarded st ++ added
               /\ Subseq (map Some added) (rest ++ puts es)).
Proof.
  intros Ht Hw. destruct st as [sd q n f t cs w ft]. cbn in Ht, Hw. subst t.
  assert (E : forall o,
            Send.step (Send.mkState sd q n f Running cs w ft) (Send.Turn o)
            = Send.after_get o (Send.mkState sd q n f Running cs w ft)).
  { intro o. cbn [Send.step Send.task]. unfold Send.turn.
    cbn [Send.waiting Send.shutdown_event].
    destruct w; [reflexivity|]. destruct Hw as [Hw|Hw]; [discriminate|].
    now rewrite Hw. }
  split; [|split; [|split]].
  - intros o Hq st'. subst st'. cbn in Hq. subst q. rewrite E.
    unfold Send.after_get. cbn [Send.audio_queue].
    split; [reflexivity|]. split; [reflexivity|]. split; [reflexivity|].
    split; intro Hs; cbn in Hs; subst sd.
    + intro o'. split; reflexivity.
    + split; [reflexivity|]. intro o'. reflexivity.
  - intros o rest Hq st'. subst st'. cbn in Hq. subst q. rewrite E.
    cbn. repeat split.
  - intros audio_data rest error_str Hq Hsig st'. subst st'.
    cbn in Hq. subst q. rewrite E.
    unfold Send.after_get, Send.on_exception. cbn [Send.audio_queue].
    rewrite Hsig. cbn. repeat split.
  - intros audio_data rest error_str Hq Hsig st'. subst st'.
    cbn in Hq. subst q. rewrite E.
    unfold Send.after_get, Send.on_exception. cbn [Send.audio_queue].
    rewrite Hsig. cbn [Send.emit Send.set_waiting Send.set_queue Send.calls
      Send.task Send.waiting Send.shutdown_event Send.forwarded
      Send.chunks_sent Send.audio_queue Send.fault].
    repeat split. intro es.
    match goal with
    | |- context [Send.send_audio_task ?s0 es] =>
        destruct (send_forwards_from_queue es s0) as (added & Hf & Hsub)
    end.
    exists added. split; [exact Hf|exact Hsub].
Qed.

Example lossy_run_drops_the_chunk :
  Send.forwarded lossy_run = [[x01]; [x03]]
  /\ Send.task lossy_run = Returned
  /\ Send.shutdown_event lossy_run = false
  /\ Send.calls lossy_run = [Log "❌ Error sending audio: timeout" "error"].
Proof. vm_compute. auto. Qed.

Lemma C7_send_loop_policy_witness :
  let st := Send.send_audio_task Send.initial
              [Send.Wait; Send.Put (Some [x02]); Send.Put (Some [x03])] in
  let st' := Send.step st (Send.Turn (Send.SendRaises "timeout")) in
  Send.calls st'
  = Send.calls st ++ [Log ("❌ Error sending audio: " ++ "timeout") "error"]
  /\ Send.task st' = Running
  /\ Send.waiting st' = false
  /\ Send.shutdown_event st' = Send.shutdown_event st
  /\ Send.forwarded st' = Send.forwarded st
  /\ Send.chunks_sent st' = Send.chunks_sent st
  /\ Send.audio_queue st' = [Some [x03]]
  /\ forall es,
       exists added,
         Send.forwarded (Send.send_audio_task st' es)
         = Send.forwarded st ++ added
         /\ Subseq (map Some added) ([Some [x03]] ++ puts es).
Proof.
  exact (proj2 (proj2 (proj2
           (C7_send_loop_policy
              (Send.send_audio_task Send.initial
                 [Send.Wait; Send.Put (Some [x02]); Send.Put (Some [x03])])
              eq_refl (or_introl eq_refl))))
           [x02] [Some [x03]] "timeout"%string eq_refl eq_refl).
Defined.

(** C8 at an internal fault of the send task: the [finally] block sets the
    event and cancels both tasks, but the await of the send task raises the
    task's exception, which is not a cancellation, so the receive task is
    not awaited; the connection is closed and the exception leaves
    [run_gemini_session]. *)
Theorem C8_send_fault_skips_an_await :
  Coordinator.actions send_fault
  = [Coordinator.OpenConnection;
     Coordinator.CreateTask Coordinator.send_task;
     Coordinator.CreateTask Coordinator.receive_task;
     Coordinator.SetShutdown;
     Coordinator.SetShutdown; Coordinator.Cancel Coordinator.send_task;
     Coordinator.Cancel Coordinator.receive_task;
     Coordinator.Await Coordinator.send_task;
     Coordinator.CloseConnection]
  /\ Coordinator.outcome send_fault = Coordinator.Raised "boom"
  /\ Coordinator.shutdown_event send_fault = true
  /\ ~ In (Coordinator.Await Coordinator.receive_task)
         (Coordinator.actions send_fault).
Proof.
  split; [reflexivity|]. split; [reflexivity|]. split; [reflexivity|].
  cbn. intuition discriminate.
Qed.

(** The same fault in a session of the two loops: the log call of the
    send loop's [except] clause raises, the coordinator's wait returns, the
    await of the send task raises in the [finally] block and the receive
    task is not awaited. *)
Example send_fault_in_a_session :
  let s := Session.run (Session.start None false)
             [Session.Put (Some [x01]);
              Session.SendTurn (Send.SendFaults "503" "boom");
              Session.Wake] in
  Session.outcome s = Coordinator.Raised "boom"
  /\ Session.actions s = Coordinator.actions send_fault
  /\ Receive.task (Session.receive s) = Returned.
Proof. repeat split. Qed.

(** The other ways out, at concrete runs: both tasks returned; the event
    set from outside; the receive task ended by an exception. *)
Example teardown_on_completion :
  Coordinator.actions
    (Coordinator.run_gemini_session None false
       [Coordinator.Wait Coordinator.Pending Coordinator.Pending;
        Coordinator.Wait Coordinator.Done Coordinator.Done]
       (fun _ => Coordinator.AwaitReturns))
  = [Coordinator.OpenConnection;
     Coordinator.CreateTask Coordinator.send_task;
     Coordinator.CreateTask Coordinator.receive_task]
    ++ Coordinator.teardown.
Proof. reflexivity. Qed.

Example teardown_on_external_shutdown :
  Coordinator.actions
    (Coordinator.run_gemini_session None false
       [Coordinator.SetElsewhere;
        Coordinator.Wait Coordinator.Pending Coordinator.Pending]
       (fun _ => Coordinator.AwaitCancelled))
  = [Coordinator.OpenConnection;
     Coordinator.CreateTask Coordinator.send_task;
     Coordinator.CreateTask Coordinator.receive_task]
    ++ Coordinator.teardown.
Proof. reflexivity. Qed.

Example teardown_on_receive_fault :
  let r := Coordinator.run_gemini_session None false
             [Coordinator.Wait Coordinator.Pending (Coordinator.Failed "boom")]
             (fun t => match t with
                       | Coordinator.send_task => Coordinator.AwaitCancelled
                       | Coordinator.receive_task =>
                           Coordinator.AwaitRaises "boom"
                       end) in
  Coordinator.actions r
  = [Coordinator.OpenConnection;
     Coordinator.CreateTask Coordinator.send_task;
     Coordinator.CreateTask Coordinator.receive_task;
     Coordinator.SetShutdown]
    ++ Coordinator.teardown
  /\ Coordinator.outcome r = Coordinator.Raised "boom".
Proof. split; reflexivity. Qed.

(** On the other ways out (no exception from the await of the send task)
    the whole teardown runs, whatever the loop met. *)
Lemma teardown_without_send_fault (sd : bool) (ws : list Coordinator.wake)
    (final : Coordinator.task_id -> Coordinator.awaited) :
  (forall exc, final Coordinator.send_task <> Coordinator.AwaitRaises exc) ->
  Coordinator.outcome (Coordinator.run_gemini_session None sd ws final)
  <> Coordinator.Supervising ->
  exists before,
    Coordinator.actions (Coordinator.run_gemini_session None sd ws final)
    = before ++ Coordinator.teardown.
Proof.
  intros Hf. pose proof (finally_awaits_both final Hf) as Hfin.
  unfold Coordinator.run_gemini_session.
  destruct (Coordinator.supervise sd ws) as [[s acts] exited].
  destruct exited; [|cbn; congruence].
  destruct (Coordinator.finally_ final) as [facts r]. cbn in Hfin. subst facts.
  intros _. cbn [Coordinator.actions].
  exists ([Coordinator.OpenConnection;
           Coordinator.CreateTask Coordinator.send_task;
           Coordinator.CreateTask Coordinator.receive_task] ++ acts).
  unfold Coordinator.teardown. now rewrite <- !app_assoc.
Qed.

End RelayClaims.


(* ===================================================================== *)
(** * Further properties of the framer                                   *)
(* ===================================================================== *)

Module WavMore.
Import Wav WavFacts.

Lemma byte_of_Z_of_byte (b : byte) : byte_of_Z (Z_of_byte b) = b.
Proof.
  unfold byte_of_Z, Z_of_byte.
  pose proof (Byte.to_N_bounded b) as Hb.
  rewrite Z.mod_small by lia. rewrite N2Z.id. now rewrite Byte.of_to_N.
Qed.

Lemma Z_of_byte_range (b : byte) : 0 <= Z_of_byte b < 256.
Proof. unfold Z_of_byte. pose proof (Byte.to_N_bounded b). lia. Qed.

Lemma le_value_range (bs : bytes) :
  0 <= le_value bs < 256 ^ Z.of_nat (List.length bs).
Proof.
  induction bs as [|b bs IH].
  - cbn. lia.
  - cbn [le_value List.length]. rewrite Nat2Z.inj_succ, Z.pow_succ_r by lia.
    pose proof (Z_of_byte_range b). lia.
Qed.

Lemma le_bytes_le_value (bs : bytes) :
  le_bytes (List.length bs) (le_value bs) = bs.
Proof.
  induction bs as [|b bs IH]; [reflexivity|].
  cbn [le_value List.length le_bytes].
  pose proof (Z_of_byte_range b) as Hb.
  assert (E1 : (Z_of_byte b + 256 * le_value bs) / 256 = le_value bs).
  { rewrite Z.mul_comm, Z.div_add by lia. rewrite Z.div_small by lia. lia. }
  assert (E2 : byte_of_Z (Z_of_byte b + 256 * le_value bs) = b).
  { rewrite <- (byte_of_Z_of_byte b) at 2. unfold byte_of_Z.
    rewrite Z.mul_comm, Z.mod_add by lia. reflexivity. }
  now rewrite E1, E2, IH.
Qed.

Lemma fit4 (v : Z) : fits 4 v = true -> v mod 256 ^ 4 = v.
Proof. exact (mod_fits 4 v). Qed.

Lemma fit2 (v : Z) : fits 2 v = true -> v mod 256 ^ 2 = v.
Proof. exact (mod_fits 2 v). Qed.

(** Packing and little-endian decoding are inverse of each other:
    packing the value of a byte string on as many bytes gives the byte
    string back, and what [struct.pack] returns for [v] has the width of the
    field and decodes to [v]. *)
Theorem pack_round_trip :
  (forall bs : bytes, pack (List.length bs) (le_value bs) = Some bs)
  /\ (forall (width : nat) (v : Z) (p : bytes),
        pack width v = Some p -> le_value p = v /\ List.length p = width).
Proof.
  split.
  - intro bs. rewrite pack_fits; [now rewrite le_bytes_le_value|].
    apply fits_spec. apply le_value_range.
  - apply le_value_pack.
Qed.

Lemma pack_round_trip_witness :
  le_value (le_bytes 4 48000) = 48000 /\ List.length (le_bytes 4 48000) = 4%nat.
Proof.
  exact (proj2 pack_round_trip 4%nat 48000 (le_bytes 4 48000) eq_refl).
Defined.

(** X1. Every file [pcm_to_wav] returns is self-consistent: the RIFF size
    field is the length of the file less 8, the data size field is its
    length less 44, the byte rate is the sample rate times the block align,
    and the block align in bits is the channel count times the bits per
    sample. *)
Theorem wav_header_consistent (pcm : bytes) (sr ch sw : Z) (out : bytes) :
  pcm_to_wav pcm sr ch sw = Some out ->
  field 4 4 out = len out - 8
  /\ field 40 4 out = len out - 44
  /\ field 28 4 out = field 24 4 out * field 32 2 out
  /\ field 32 2 out * 8 = field 22 2 out * field 34 2 out.
Proof.
  intro H. apply pcm_to_wav_inv in H. destruct H as (Hs & Hp & ->).
  unfold params_fit in Hp.
  do 4 (apply andb_true_iff in Hp; destruct Hp as [Hp ?]).
  assert (Hds : fits 4 (len pcm) = true).
  { apply fits_I_bound. apply fits_I_bound in Hs.
    pose proof (len_nonneg pcm). lia. }
  rewrite field_file_size, field_data_size, field_byte_rate,
    field_sample_rate, field_block_align, field_channels,
    field_bits_per_sample.
  rewrite !fit4, !fit2 by assumption.
  assert (Hh : len (header (len pcm) sr ch sw) = 44) by reflexivity.
  rewrite len_app, Hh. repeat split; lia.
Qed.

Lemma wav_header_consistent_witness :
  let out := header 3 24000 1 2 ++ [x01; x02; x03] in
  field 4 4 out = len out - 8
  /\ field 40 4 out = len out - 44
  /\ field 28 4 out = field 24 4 out * field 32 2 out
  /\ field 32 2 out * 8 = field 22 2 out * field 34 2 out.
Proof.
  apply (wav_header_consistent [x01; x02; x03] 24000 1 2). reflexivity.
Defined.

(** X2. Framing loses nothing: a file [pcm_to_wav] returns determines the
    PCM bytes and the three format parameters it was made from. *)
Theorem pcm_to_wav_injective (pcm pcm' : bytes) (sr ch sw sr' ch' sw' : Z)
    (out : bytes) :
  pcm_to_wav pcm sr ch sw = Some out ->
  pcm_to_wav pcm' sr' ch' sw' = Some out ->
  pcm = pcm' /\ sr = sr' /\ ch = ch' /\ sw = sw'.
Proof.
  intros H H'.
  pose proof (pcm_to_wav_inv _ _ _ _ _ H) as (_ & Hp & E).
  pose proof (pcm_to_wav_inv _ _ _ _ _ H') as (_ & Hp' & E').
  unfold params_fit in Hp, Hp'.
  do 4 (apply andb_true_iff in Hp; destruct Hp as [Hp ?]).
  do 4 (apply andb_true_iff in Hp'; destruct Hp' as [Hp' ?]).
  assert (Epcm : pcm = pcm').
  { rewrite <- (payload_header (len pcm) sr ch sw pcm), <- E, E'.
    apply payload_header. }
  assert (Esr : sr = sr').
  { rewrite <- (fit4 sr), <- (fit4 sr') by assumption.
    rewrite <- (field_sample_rate (len pcm) sr ch sw pcm), <- E, E'.
    apply field_sample_rate. }
  assert (Ech : ch = ch').
  { rewrite <- (fit2 ch), <- (fit2 ch') by assumption.
    rewrite <- (field_channels (len pcm) sr ch sw pcm), <- E, E'.
    apply field_channels. }
  assert (Esw : sw * 8 = sw' * 8).
  { rewrite <- (fit2 (sw * 8)), <- (fit2 (sw' * 8)) by assumption.
    rewrite <- (field_bits_per_sample (len pcm) sr ch sw pcm), <- E, E'.
    apply field_bits_per_sample. }
  repeat split; try assumption. lia.
Qed.

Lemma pcm_to_wav_injective_witness :
  [x01; x02] = [x01; x02] /\ 24000 = 24000 /\ 1 = 1 /\ 2 = 2.
Proof.
  apply (pcm_to_wav_injective [x01; x02] [x01; x02] 24000 1 2 24000 1 2
           (header 2 24000 1 2 ++ [x01; x02])); reflexivity.
Defined.

(** X3. [pcm_to_wav] returns exactly when every value it packs fits its
    field: the input has at most 2^32 - 37 bytes, the channel count, the
    block align and the bits per sample are 16-bit values, the sample rate
    and the byte rate 32-bit values, none negative; it raises otherwise. *)
Theorem pcm_to_wav_returns_iff (pcm : bytes) (sr ch sw : Z) :
  (exists out, pcm_to_wav pcm sr ch sw = Some out)
  <-> (len pcm <= 2 ^ 32 - 37
       /\ 0 <= ch <= 2 ^ 16 - 1
       /\ 0 <= sr <= 2 ^ 32 - 1
       /\ 0 <= sr * ch * sw <= 2 ^ 32 - 1
       /\ 0 <= ch * sw <= 2 ^ 16 - 1
       /\ 0 <= sw * 8 <= 2 ^ 16 - 1).
Proof.
  pose proof (len_nonneg pcm) as H0. split.
  - intros [out H]. apply pcm_to_wav_inv in H. destruct H as (Hs & Hp & _).
    unfold params_fit in Hp.
    do 4 (apply andb_true_iff in Hp; destruct Hp as [Hp ?]).
    apply fits_I_bound in Hs.
    repeat match goal with
           | H : fits 4 _ = true |- _ => apply fits_I_bound in H
           | H : fits 2 _ = true |- _ => apply fits_H_bound in H
           end.
    repeat split; lia.
  - intros (Hn & Hch & Hsr & Hbr & Hba & Hbits).
    eexists. apply pcm_to_wav_Some; [apply fits_I_bound; lia|].
    unfold params_fit. rewrite !andb_true_iff.
    repeat split; (apply fits_I_bound || apply fits_H_bound); lia.
Qed.

End WavMore.

(* ===================================================================== *)
(** * Further properties of the error signatures                         *)
(* ===================================================================== *)

Module StrMore.
Local Open Scope string_scope.

Lemma prefix_spec (needle hay : string) :
  String.prefix needle hay = true <-> exists post, hay = needle ++ post.
Proof.
  revert hay. induction needle as [|a needle IH]; intro hay.
  - split; [intros _; now exists hay|intros _; now destruct hay].
  - destruct hay as [|b hay]; cbn.
    + split; [discriminate|]. intros [post H]. discriminate.
    + destruct (ascii_dec a b) as [->|Hne].
      * rewrite IH. split; intros [post H]; exists post; congruence.
      * split; [discriminate|]. intros [post H]. congruence.
Qed.

Lemma contains_here (needle hay : string) :
  String.prefix needle hay = true -> Str.contains needle hay = true.
Proof. intro H. destruct hay; cbn [Str.contains]; now rewrite H. Qed.

Lemma contains_later (needle : string) (c : ascii) (hay : string) :
  Str.contains needle hay = true -> Str.contains needle (String c hay) = true.
Proof.
  intro H. cbn [Str.contains].
  now destruct (String.prefix needle (String c hay)).
Qed.

Lemma contains_splits (needle hay : string) :
  Str.contains needle hay = true ->
  exists pre post, hay = pre ++ needle ++ post.
Proof.
  induction hay as [|c hay IH]; cbn [Str.contains].
  - destruct (String.prefix needle "") eqn:E; [|discriminate].
    intros _. apply prefix_spec in E. destruct E as [post E].
    now exists "", post.
  - destruct (String.prefix needle (String c hay)) eqn:E.
    + intros _. apply prefix_spec in E. destruct E as [post E].
      now exists "", post.
    + intro H. destruct (IH H) as (pre & post & ->).
      now exists (String c pre), post.
Qed.

Lemma contains_inside (needle pre post : string) :
  Str.contains needle (pre ++ needle ++ post) = true.
Proof.
  induction pre as [|c pre IH].
  - apply contains_here. apply prefix_spec. now exists post.
  - cbn [append]. now apply contains_later.
Qed.

(** [needle in hay] holds exactly when [hay] is some text, then
    [needle], then some text. *)
Theorem contains_spec (needle hay : string) :
  Str.contains needle hay = true
  <-> exists pre post, hay = pre ++ needle ++ post.
Proof.
  split; [apply contains_splits|].
  intros (pre & post & ->). apply contains_inside.
Qed.

Lemma lower_append (s1 s2 : string) :
  Str.lower (s1 ++ s2) = Str.lower s1 ++ Str.lower s2.
Proof. induction s1 as [|c s1 IH]; cbn; [reflexivity|now rewrite IH]. Qed.

(** X4. The signatures are looked for anywhere in [str(e)]: a message
    that holds [1008] or [ConnectionClosed] is a closed connection, and only
    such a message is; a message that holds the word cancelled, in any
    capitalisation, is a cancellation. *)
Theorem signatures_anywhere (pre post : string) :
  Str.connection_closed (pre ++ "1008" ++ post) = true
  /\ Str.connection_closed (pre ++ "ConnectionClosed" ++ post) = true
  /\ (forall w, Str.lower w = "cancelled" ->
                Str.cancellation (pre ++ w ++ post) = true)
  /\ (forall e, Str.connection_closed e = true ->
                exists pre' post',
                  e = pre' ++ "1008" ++ post'
                  \/ e = pre' ++ "ConnectionClosed" ++ post').
Proof.
  unfold Str.connection_closed, Str.cancellation.
  split; [|split; [|split]].
  - apply orb_true_iff. left. apply contains_inside.
  - apply orb_true_iff. right. apply contains_inside.
  - intros w Hw. rewrite !lower_append, Hw. apply contains_inside.
  - intros e H. apply orb_true_iff in H.
    destruct H as [H|H]; apply contains_splits in H;
      destruct H as (pre' & post' & ->); exists pre', post'; auto.
Qed.

Lemma signatures_anywhere_witness :
  Str.cancellation ("Task was " ++ "CANCELLED" ++ " by peer") = true.
Proof.
  exact (proj1 (proj2 (proj2 (signatures_anywhere "Task was " " by peer")))
           "CANCELLED" eq_refl).
Defined.

End StrMore.

(* ===================================================================== *)
(** * Further properties of the response handler                         *)
(* ===================================================================== *)

Module HandlerMore.
Import Handler HandlerFacts.

Section AnyWebsocket.
Variable ws_accepts : list message -> message -> bool.
Local Notation "'handle'" := (handle_gemini_response ws_accepts).
Local Notation "'run'" := (Handler.run ws_accepts).
Local Notation "'deliver'" := (Endpoint.deliver ws_accepts).

(** X5. At most 47,999 bytes wait in the playback buffer: after any
    sequence of responses the handler has processed, the buffer is shorter
    than the target size. *)
Theorem buffer_below_target (rs : list response) :
  is_connected (run initial rs) = true ->
  len (audio_buffer (run initial rs)) < BUFFER_TARGET_SIZE.
Proof.
  intro Hc. destruct (run_steps ws_accepts rs initial Hc) as (_ & _ & _ & _ & _ & Hb).
  apply Hb. reflexivity.
Qed.

Lemma send_log_disconnected (msg level : string) (st : state) :
  is_connected st = false -> send_log ws_accepts msg level st = st.
Proof. intro H. unfold send_log. now rewrite H. Qed.

Lemma send_log_fields (msg level : string) (st : state) :
  is_connected (send_log ws_accepts msg level st) = is_connected st
  /\ audio_buffer (send_log ws_accepts msg level st) = audio_buffer st
  /\ audio_chunk_count (send_log ws_accepts msg level st) = audio_chunk_count st
  /\ (sent (send_log ws_accepts msg level st) = sent st
      \/ sent (send_log ws_accepts msg level st)
         = sent st ++ [Msg_server_log msg level]).
Proof.
  destruct st as [c k buf log]. unfold send_log, try_except, send_text.
  cbn [is_connected sent negb]. destruct c; cbn; [|auto].
  destruct (ws_accepts log (Msg_server_log msg level)); cbn; auto.
Qed.

(** X6. A client that is gone stays gone: once [is_connected] is false no
    response and no log message changes the state or writes to the
    websocket, and [is_connected] never turns true again. *)
Theorem disconnected_is_final (cs : list call) (st : state) :
  is_connected st = false ->
  fold_left deliver cs st = st.
Proof.
  intro H. induction cs as [|c cs IH]; [reflexivity|].
  cbn [fold_left]. destruct c as [r|msg level]; cbn [Endpoint.deliver].
  - now rewrite handle_disconnected.
  - now rewrite send_log_disconnected.
Qed.

(** What one processed response adds to the log apart from Audio
    messages, and to the counter. *)
Lemma handle_step_relay (st : state) (r : response) :
  is_connected (handle st r) = true ->
  exists new,
    sent (handle st r) = sent st ++ new
    /\ relayed new = relay_of r
    /\ audio_chunk_count (handle st r)
       = audio_chunk_count st + audio_responses [r].
Proof.
  intro Hc'.
  assert (Hc : is_connected st = true)
    by (destruct (handle_step ws_accepts _ _ Hc'); assumption).
  destruct r as [d|t| | |e].
  - destruct (handle_audio_cases ws_accepts st d Hc)
      as [[_ E]|[(_ & w & _ & _ & E)|[_ E]]]; rewrite E in *;
      cbn [sent audio_chunk_count is_connected] in *.
    + exists []. rewrite app_nil_r. auto.
    + exists [Msg_audio w]. auto.
    + discriminate.
  - destruct (handle_plain_cases ws_accepts st (text t) (Msg_transcript t)
                Hc eq_refl) as [[_ E]|E]; [|congruence].
    rewrite E. exists [Msg_transcript t]. cbn. split; [reflexivity|].
    split; [reflexivity|lia].
  - destruct (handle_turn_complete_cases ws_accepts st Hc)
      as [(_ & _ & E)|[(_ & w & _ & _ & _ & E)|E]]; [| |congruence].
    + rewrite E. exists [Msg_assistant_silent]. cbn. split; [reflexivity|].
      split; [reflexivity|lia].
    + rewrite E. exists [Msg_audio w; Msg_assistant_silent]. cbn.
      rewrite <- app_assoc. split; [reflexivity|]. split; [reflexivity|lia].
  - destruct (handle_plain_cases ws_accepts st interrupted Msg_interrupted
                Hc eq_refl) as [[_ E]|E]; [|congruence].
    rewrite E. exists [Msg_interrupted]. cbn. split; [reflexivity|].
    split; [reflexivity|lia].
  - destruct (handle_plain_cases ws_accepts st (error e) (Msg_error e)
                Hc eq_refl) as [[_ E]|E]; [|congruence].
    rewrite E. exists [Msg_error e]. cbn. split; [reflexivity|].
    split; [reflexivity|lia].
Qed.

Lemma relayed_app (l1 l2 : list message) :
  relayed (l1 ++ l2) = relayed l1 ++ relayed l2.
Proof. apply filter_app. Qed.

Lemma audio_responses_cons (r : response) (rs : list response) :
  audio_responses (r :: rs) = audio_responses [r] + audio_responses rs.
Proof.
  unfold audio_responses, len. destruct r; cbn [filter List.length]; lia.
Qed.

Lemma run_relay (rs : list response) (st : state) :
  is_connected (run st rs) = true ->
  exists new,
    sent (run st rs) = sent st ++ new
    /\ relayed new = flat_map relay_of rs
    /\ audio_chunk_count (run st rs) = audio_chunk_count st + audio_responses rs.
Proof.
  revert st. induction rs as [|r rs IH]; intros st Hc.
  - exists []. cbn. rewrite app_nil_r. split; [reflexivity|].
    split; [reflexivity|]. unfold audio_responses, len. cbn. lia.
  - rewrite run_cons in *.
    destruct (IH _ Hc) as (new2 & Hs2 & Hr2 & Hk2).
    assert (Hc1 : is_connected (handle st r) = true)
      by (destruct (run_steps ws_accepts rs _ Hc); assumption).
    destruct (handle_step_relay _ _ Hc1) as (new1 & Hs1 & Hr1 & Hk1).
    exists (new1 ++ new2). split; [|split].
    + rewrite Hs2, Hs1. now rewrite app_assoc.
    + rewrite relayed_app, Hr1, Hr2. reflexivity.
    + rewrite Hk2, Hk1, (audio_responses_cons r rs). lia.
Qed.

(** X7. Apart from audio nothing is coalesced, dropped or reordered: the
    messages written that are not Audio messages are, in order, one
    transcript per text response, one [assistant_silent] per turn-complete,
    one [interrupted] per interruption and one error per error response. *)
Theorem relay_is_one_to_one (rs : list response) :
  is_connected (run initial rs) = true ->
  relayed (sent (run initial rs)) = flat_map relay_of rs.
Proof.
  intro Hc. destruct (run_relay rs initial Hc) as (new & Hs & Hr & _).
  rewrite Hs. exact Hr.
Qed.

(** X8. [audio_chunk_count] counts the audio responses processed. *)
Theorem audio_chunk_count_counts (rs : list response) :
  is_connected (run initial rs) = true ->
  audio_chunk_count (run initial rs) = audio_responses rs.
Proof.
  intro Hc. destruct (run_relay rs initial Hc) as (new & _ & _ & Hk).
  rewrite Hk. reflexivity.
Qed.

End AnyWebsocket.

Lemma disconnected_is_final_witness :
  fold_left (Endpoint.deliver reliable)
    [Response (audio [x01]); Log "late" "info"; Response turn_complete]
    (mkState false 3 [x07] [Msg_session_started])
  = mkState false 3 [x07] [Msg_session_started].
Proof.
  exact (disconnected_is_final reliable
           [Response (audio [x01]); Log "late" "info"; Response turn_complete]
           (mkState false 3 [x07] [Msg_session_started]) eq_refl).
Defined.

Lemma buffer_below_target_witness :
  len (audio_buffer
         (run reliable initial [audio one_second; audio [x02; x03]]))
  < BUFFER_TARGET_SIZE.
Proof.
  apply (buffer_below_target reliable [audio one_second; audio [x02; x03]]).
  vm_compute. reflexivity.
Defined.

Lemma relay_is_one_to_one_witness :
  relayed (sent (run reliable initial
                   [text "a"; audio [x01]; interrupted; text "b";
                    turn_complete]))
  = flat_map relay_of
      [text "a"; audio [x01]; interrupted; text "b"; turn_complete].
Proof.
  apply (relay_is_one_to_one reliable
           [text "a"; audio [x01]; interrupted; text "b"; turn_complete]).
  reflexivity.
Defined.

Lemma audio_chunk_count_counts_witness :
  audio_chunk_count
    (run reliable initial [audio [x01]; text "a"; audio [x02]; turn_complete])
  = audio_responses [audio [x01]; text "a"; audio [x02]; turn_complete].
Proof.
  apply (audio_chunk_count_counts reliable
           [audio [x01]; text "a"; audio [x02]; turn_complete]).
  reflexivity.
Defined.

End HandlerMore.

(* ===================================================================== *)
(** * Logs and the relay                                                 *)
(* ===================================================================== *)

Module LogsMore.
Import Handler HandlerFacts.

Ltac split_cases :=
  repeat match goal with
         | |- context [if ?b then _ else _] => destruct b eqn:?
         | |- context [match ?o with Some _ => _ | None => _ end] =>
             destruct o eqn:?
         end.

Lemma without_logs_app (l1 l2 : list message) :
  without_logs (l1 ++ l2) = without_logs l1 ++ without_logs l2.
Proof. apply filter_app. Qed.

Lemma handle_same_relay (c1 c2 : state) (r : response) :
  same_relay c1 c2 ->
  same_relay (handle_gemini_response reliable c1 r)
    (handle_gemini_response reliable c2 r).
Proof.
  destruct c1 as [c k buf log1], c2 as [c' k' buf' log2].
  intros (Hc & Hk & Hb & Hl).
  cbn [is_connected audio_chunk_count audio_buffer sent] in Hc, Hk, Hb, Hl.
  subst c' k' buf'.
  destruct r as [d|t| | |e]; run_handler; unfold reliable;
    destruct c; cbn [negb]; split_cases; cbn;
    unfold same_relay; cbn; rewrite ?without_logs_app, ?Hl; auto.
Qed.

Lemma send_log_same_relay (msg level : string) (c : state) :
  same_relay (send_log reliable msg level c) c.
Proof.
  destruct c as [c k buf log]. unfold send_log, try_except, send_text, reliable.
  destruct c; cbn; unfold same_relay; cbn; rewrite ?without_logs_app; cbn;
    rewrite ?app_nil_r; auto.
Qed.

Lemma same_relay_trans (c1 c2 c3 : state) :
  same_relay c1 c2 -> same_relay c2 c3 -> same_relay c1 c3.
Proof.
  unfold same_relay. intros (?&?&?&?) (?&?&?&?). repeat split; congruence.
Qed.

Lemma deliver_same_relay (cs : list call) (c1 c2 : state) :
  same_relay c1 c2 ->
  same_relay (fold_left (Endpoint.deliver reliable) cs c1)
    (run reliable c2 (responses_in cs)).
Proof.
  revert c1 c2. induction cs as [|c cs IH]; intros c1 c2 H; [exact H|].
  cbn [fold_left]. destruct c as [r|msg level]; cbn [Endpoint.deliver].
  - cbn [responses_in flat_map app]. rewrite run_cons. apply IH.
    now apply handle_same_relay.
  - cbn [responses_in flat_map app]. apply IH.
    eapply same_relay_trans; [apply send_log_same_relay|exact H].
Qed.

(** The handler writes no log message. *)
Lemma handle_writes_no_log (c : state) (r : response) :
  without_logs (sent c) = sent c ->
  without_logs (sent (handle_gemini_response reliable c r))
  = sent (handle_gemini_response reliable c r).
Proof.
  destruct c as [c k buf log]. cbn [sent]. intro Hl.
  destruct r as [d|t| | |e]; run_handler; unfold reliable;
    destruct c; cbn [negb]; split_cases; cbn;
    rewrite ?without_logs_app, ?Hl; auto.
Qed.

Lemma run_writes_no_log (rs : list response) (c : state) :
  without_logs (sent c) = sent c ->
  without_logs (sent (run reliable c rs)) = sent (run reliable c rs).
Proof.
  revert c. induction rs as [|r rs IH]; intros c H; [exact H|].
  rewrite run_cons. apply IH. now apply handle_writes_no_log.
Qed.

(** X9. Logging does not disturb the relay: with a client that takes
    every message, whatever log calls are mixed with the responses of a
    session, the client state and the messages written other than logs are
    those the responses alone give. *)
Theorem logs_are_transparent (cs : list call) :
  let with_logs := fold_left (Endpoint.deliver reliable) cs initial in
  let alone := run reliable initial (responses_in cs) in
  is_connected with_logs = is_connected alone
  /\ audio_buffer with_logs = audio_buffer alone
  /\ audio_chunk_count with_logs = audio_chunk_count alone
  /\ without_logs (sent with_logs) = sent alone.
Proof.
  intros with_logs alone.
  destruct (deliver_same_relay cs initial initial) as (H1 & H2 & H3 & H4).
  { repeat split. }
  fold with_logs alone in H1, H2, H3, H4.
  repeat split; try assumption.
  rewrite H4. apply run_writes_no_log. reflexivity.
Qed.

End LogsMore.

(* ===================================================================== *)
(** * Further properties of the send loop                                *)
(* ===================================================================== *)

Module SendMore.
Import LoopFacts.

(** A task that returned only sees its queue grow. *)
Lemma returned_run (es : list Send.event) (st : Send.state) :
  Send.task st = Returned ->
  Send.task (Send.send_audio_task st es) = Returned
  /\ Send.forwarded (Send.send_audio_task st es) = Send.forwarded st
  /\ Send.chunks_sent (Send.send_audio_task st es) = Send.chunks_sent st
  /\ Send.audio_queue (Send.send_audio_task st es)
     = Send.audio_queue st ++ puts es.
Proof.
  revert st. induction es as [|e es IH]; intros st H.
  - cbn. rewrite app_nil_r. auto.
  - rewrite send_run_cons.
    assert (Hs : Send.task (Send.step st e) = Returned
                 /\ Send.forwarded (Send.step st e) = Send.forwarded st
                 /\ Send.chunks_sent (Send.step st e) = Send.chunks_sent st
                 /\ Send.audio_queue (Send.step st e)
                    = Send.audio_queue st ++ put_of e).
    { destruct st as [sd q n f t cs w ft]. cbn in H. subst t.
      destruct e; cbn; rewrite ?app_nil_r; auto. }
    destruct Hs as (Ht & Hf & Hn & Hq).
    destruct (IH _ Ht) as (Ht' & Hf' & Hn' & Hq').
    rewrite Ht', Hf', Hn', Hq', Hf, Hn, Hq. cbn [puts flat_map].
    rewrite <- app_assoc. auto.
Qed.

(** X10. The send loop is first in, first out, with no drop: as long as
    every send succeeds, nothing is cancelled and nobody sets the event,
    the chunks forwarded to the remote session followed by what is still
    queued are the items put on the queue, in order; the task returns on
    the sentinel only, having forwarded every chunk put before it. *)
Theorem send_is_fifo (es : list Send.event) (st : Send.state) :
  Send.task st = Running ->
  Send.shutdown_event st = false ->
  forallb smooth_event es = true ->
  let st' := Send.send_audio_task st es in
  exists added,
    Send.forwarded st' = Send.forwarded st ++ added
    /\ Send.chunks_sent st' = Send.chunks_sent st + len added
    /\ (Send.task st' = Running ->
        map Some added ++ Send.audio_queue st'
        = Send.audio_queue st ++ puts es)
    /\ (Send.task st' = Returned ->
        map Some added ++ None :: Send.audio_queue st'
        = Send.audio_queue st ++ puts es).
Proof.
  revert st. induction es as [|e es IH]; intros st Ht Hs Hsm st'; subst st'.
  - exists []. cbn. rewrite !app_nil_r. unfold len. cbn.
    repeat split; try lia. congruence.
  - cbn [forallb] in Hsm. apply andb_true_iff in Hsm. destruct Hsm as [He Hsm].
    rewrite send_run_cons.
    destruct st as [sd q n f t cs w ft]. cbn in Ht, Hs. subst t sd.
    destruct e as [o| |item| |]; try discriminate.
    + destruct o; try discriminate.
      assert (E : Send.step (Send.mkState false q n f Running cs w ft)
                    (Send.Turn Send.Sent)
                  = Send.after_get Send.Sent
                      (Send.mkState false q n f Running cs w ft))
        by (cbn; unfold Send.turn; cbn; destruct w; reflexivity).
      rewrite E. unfold Send.after_get. cbn [Send.audio_queue].
      destruct q as [|[d|] rest].
      * apply (IH (Send.mkState false [] n f Running cs false ft)
                 eq_refl eq_refl Hsm).
      * match goal with
        | |- context [Send.send_audio_task ?x es] =>
            change x with (Send.mkState false rest (n + 1) (f ++ [d]) Running
                             cs false ft)
        end.
        destruct (IH (Send.mkState false rest (n + 1) (f ++ [d]) Running
                        cs false ft)
                    eq_refl eq_refl Hsm) as (added & Hf & Hn & Hr & Hd).
        cbn [Send.forwarded Send.chunks_sent Send.audio_queue] in Hf, Hn, Hr, Hd.
        exists (d :: added).
        cbn [Send.forwarded Send.chunks_sent Send.audio_queue].
        rewrite Hf, Hn, <- app_assoc. unfold len in *.
        cbn [List.length app map].
        repeat split; try lia.
        -- intro H. now rewrite (Hr H).
        -- intro H. now rewrite (Hd H).
      * match goal with
        | |- context [Send.send_audio_task ?x es] =>
            change x with (Send.mkState false rest n f Returned cs false ft)
        end.
        destruct (returned_run es
                    (Send.mkState false rest n f Returned cs false ft)
                    eq_refl) as (Ht' & Hf' & Hn' & Hq').
        cbn [Send.forwarded Send.chunks_sent Send.audio_queue] in Hf', Hn', Hq'.
        exists []. cbn [Send.forwarded Send.chunks_sent Send.audio_queue].
        rewrite Hf', Hn', Hq'. cbn [map app]. rewrite app_nil_r.
        unfold len. cbn [List.length]. repeat split; try lia.
        intro H. congruence.
    + cbn [Send.step].
      destruct (IH (Send.set_queue (q ++ [item])
                      (Send.mkState false q n f Running cs w ft))
                  eq_refl eq_refl Hsm) as (added & Hf & Hn & Hr & Hd).
      exists added. cbn in Hf, Hn, Hr, Hd |- *.
      rewrite <- app_assoc in Hr, Hd. cbn [app] in Hr, Hd. auto.
    + assert (E : Send.step (Send.mkState false q n f Running cs w ft) Send.Wait
                  = Send.mkState false q n f Running cs true ft)
        by (destruct w; reflexivity).
      rewrite E.
      apply (IH (Send.mkState false q n f Running cs true ft)
               eq_refl eq_refl Hsm).
Qed.

Lemma send_is_fifo_witness :
  let st' := Send.send_audio_task Send.initial
               [Send.Put (Some [x01]); Send.Put (Some [x02]);
                Send.Turn Send.Sent; Send.Put None; Send.Put (Some [x03]);
                Send.Turn Send.Sent; Send.Turn Send.Sent;
                Send.Turn Send.Sent] in
  exists added,
    Send.forwarded st' = Send.forwarded Send.initial ++ added
    /\ Send.chunks_sent st' = Send.chunks_sent Send.initial + len added
    /\ (Send.task st' = Running ->
        map Some added ++ Send.audio_queue st'
        = Send.audio_queue Send.initial
          ++ puts [Send.Put (Some [x01]); Send.Put (Some [x02]);
                   Send.Turn Send.Sent; Send.Put None; Send.Put (Some [x03]);
                   Send.Turn Send.Sent; Send.Turn Send.Sent;
                   Send.Turn Send.Sent])
    /\ (Send.task st' = Returned ->
        map Some added ++ None :: Send.audio_queue st'
        = Send.audio_queue Send.initial
          ++ puts [Send.Put (Some [x01]); Send.Put (Some [x02]);
                   Send.Turn Send.Sent; Send.Put None; Send.Put (Some [x03]);
                   Send.Turn Send.Sent; Send.Turn Send.Sent;
                   Send.Turn Send.Sent]).
Proof.
  apply (send_is_fifo
           [Send.Put (Some [x01]); Send.Put (Some [x02]);
            Send.Turn Send.Sent; Send.Put None; Send.Put (Some [x03]);
            Send.Turn Send.Sent; Send.Turn Send.Sent; Send.Turn Send.Sent]
           Send.initial); reflexivity.
Defined.

(** X11. Whatever happens to the loop, what it forwards is made of
    chunks that were queued, each at most once and in the order they were
    queued, and [chunks_sent] counts exactly the chunks forwarded. *)
Theorem send_forwards_queued_chunks (es : list Send.event) (st : Send.state) :
  let st' := Send.send_audio_task st es in
  exists added,
    Send.forwarded st' = Send.forwarded st ++ added
    /\ Send.chunks_sent st' = Send.chunks_sent st + len added
    /\ Subseq (map Some added) (Send.audio_queue st ++ puts es).
Proof.
  revert st. induction es as [|e es IH]; intro st; cbn zeta.
  - exists []. cbn. rewrite !app_nil_r. unfold len. cbn.
    repeat split; try lia. apply Subseq_nil_l.
  - rewrite send_run_cons.
    destruct (send_step_subseq st e) as (first & Hf1 & Hn1 & Hsub).
    destruct (IH (Send.step st e)) as (more & Hf2 & Hn2 & Hs2).
    exists (first ++ more). split; [|split].
    + rewrite Hf2, Hf1. now rewrite app_assoc.
    + rewrite Hn2, Hn1, len_app. lia.
    + cbn [puts flat_map]. now apply Hsub.
Qed.

Ltac close_case :=
  cbn; rewrite ?app_nil_r; unfold len; cbn;
  repeat split; intros;
  try solve [ auto | lia | discriminate
            | match goal with
              | H : _ \/ _ |- _ => destruct H; discriminate
              end ].

(** One step of the loop once the event is set. *)
Lemma step_when_set (st : Send.state) (e : Send.event) :
  Send.shutdown_event st = true ->
  exists first,
    Send.forwarded (Send.step st e) = Send.forwarded st ++ first
    /\ len first <= 1
    /\ (idle st ->
        first = [] /\ Send.calls (Send.step st e) = Send.calls st
        /\ idle (Send.step st e)
        /\ (is_turn e = true -> Send.task (Send.step st e) = Returned))
    /\ (is_turn e = true -> idle (Send.step st e))
    /\ (first = [] \/ idle (Send.step st e)).
Proof.
  intro Hs. destruct st as [sd q n f t cs w ft]. cbn in Hs. subst sd.
  unfold idle.
  destruct t; [|exists []; destruct e; close_case].
  destruct e as [o| |item| |].
  - cbn [Send.step Send.task]. unfold Send.turn.
    cbn [Send.waiting Send.shutdown_event].
    destruct w; [|exists []; close_case].
    unfold Send.after_get. cbn [Send.audio_queue].
    destruct q as [|[d|] rest]; [exists []; close_case| |exists []; close_case].
    destruct o as [|error_str| |error_str exc];
      [exists [d]; close_case| |exists []; close_case|exists []; close_case].
    exists []. unfold Send.on_exception.
    destruct (Str.connection_closed error_str); close_case.
  - exists []. close_case.
  - exists []. close_case.
  - exists []. close_case.
  - exists []. cbn [Send.step Send.task]. unfold Send.wait.
    cbn [Send.waiting Send.shutdown_event]. destruct w; close_case.
Qed.

Lemma runs_when_set (es : list Send.event) (st : Send.state) :
  Send.shutdown_event st = true ->
  exists added,
    Send.forwarded (Send.send_audio_task st es) = Send.forwarded st ++ added
    /\ len added <= 1
    /\ (idle st ->
        added = []
        /\ Send.calls (Send.send_audio_task st es) = Send.calls st
        /\ ((1 <= turns es)%nat ->
            Send.task (Send.send_audio_task st es) = Returned))
    /\ ((2 <= turns es)%nat ->
        Send.task (Send.send_audio_task st es) = Returned).
Proof.
  revert st. induction es as [|e es IH]; intros st Hs.
  - exists []. cbn. rewrite app_nil_r. unfold len, turns. cbn.
    repeat split; try lia.
  - rewrite send_run_cons.
    destruct (step_when_set st e Hs) as (first & Hf1 & Hl1 & Hi1 & Ht1 & Hd1).
    destruct (IH (Send.step st e) (send_step_keeps_set st e Hs))
      as (more & Hf2 & Hl2 & Hi2 & Ht2).
    exists (first ++ more). rewrite Hf2, Hf1, <- app_assoc.
    assert (Hturns : turns (e :: es)
                     = ((if is_turn e then 1 else 0) + turns es)%nat)
      by (unfold turns; cbn [filter]; destruct (is_turn e); reflexivity).
    split; [reflexivity|]. split; [|split].
    + destruct Hd1 as [->|Hidle]; [exact Hl2|].
      destruct (Hi2 Hidle) as (-> & _). now rewrite app_nil_r.
    + intro Hidle. destruct (Hi1 Hidle) as (-> & Hc1 & Hidle1 & Hr1).
      destruct (Hi2 Hidle1) as (-> & Hc2 & Hr2).
      split; [reflexivity|]. split; [congruence|].
      rewrite Hturns. destruct (is_turn e).
      * intros _. now destruct (returned_run es _ (Hr1 eq_refl)).
      * intro H. apply Hr2. lia.
    + rewrite Hturns. destruct (is_turn e).
      * intro H. destruct (Hi2 (Ht1 eq_refl)) as (_ & _ & Hr2).
        apply Hr2. lia.
      * intro H. apply Ht2. lia.
Qed.

(** X12. Once the event is set the send loop forwards at most one more
    chunk, and none unless it was already in its wait on the queue (the
    event is not tested between the wait and the send); from outside the
    wait it makes no call either and returns on its next turn; in any case
    it has returned after two turns. *)
Theorem send_after_shutdown (es : list Send.event) (st : Send.state) :
  Send.shutdown_event st = true ->
  let st' := Send.send_audio_task st es in
  exists added,
    Send.forwarded st' = Send.forwarded st ++ added
    /\ len added <= 1
    /\ (Send.waiting st = false ->
        added = [] /\ Send.calls st' = Send.calls st
        /\ ((1 <= turns es)%nat -> Send.task st' = Returned))
    /\ ((2 <= turns es)%nat -> Send.task st' = Returned).
Proof.
  intros Hs st'. subst st'.
  destruct (runs_when_set es st Hs) as (added & Hf & Hl & Hi & Ht).
  exists added. split; [exact Hf|]. split; [exact Hl|]. split; [|exact Ht].
  intro Hw. exact (Hi (or_intror Hw)).
Qed.

Lemma send_after_shutdown_witness :
  let st := Send.send_audio_task Send.initial
              [Send.Wait; Send.Put (Some [x01]); Send.Put (Some [x02]);
               Send.SetElsewhere] in
  let st' := Send.send_audio_task st
               [Send.Turn Send.Sent; Send.Turn Send.Sent] in
  exists added,
    Send.forwarded st' = Send.forwarded st ++ added
    /\ len added <= 1
    /\ (Send.waiting st = false ->
        added = [] /\ Send.calls st' = Send.calls st
        /\ ((1 <= turns [Send.Turn Send.Sent; Send.Turn Send.Sent])%nat ->
            Send.task st' = Returned))
    /\ ((2 <= turns [Send.Turn Send.Sent; Send.Turn Send.Sent])%nat ->
        Send.task st' = Returned).
Proof.
  exact (send_after_shutdown [Send.Turn Send.Sent; Send.Turn Send.Sent]
           (Send.send_audio_task Send.initial
              [Send.Wait; Send.Put (Some [x01]); Send.Put (Some [x02]);
               Send.SetElsewhere]) eq_refl).
Defined.

(** The chunk the loop was waiting for is forwarded although the event was
    set before it was put; the next one is not. *)
Example waited_chunk_is_forwarded :
  let st := Send.send_audio_task Send.initial
              [Send.Wait; Send.SetElsewhere; Send.Put (Some [x01]);
               Send.Put (Some [x02]); Send.Turn Send.Sent;
               Send.Turn Send.Sent] in
  Send.forwarded st = [[x01]]
  /\ Send.audio_queue st = [Some [x02]]
  /\ Send.task st = Returned.
Proof. repeat split. Qed.

End SendMore.

(* ===================================================================== *)
(** * Further properties of the receive loop                             *)
(* ===================================================================== *)

Module ReceiveMore.
Import LoopFacts.

Lemma receive_run_cons (e : Receive.event) (es : list Receive.event)
    (st : Receive.state) :
  Receive.receive_responses_task st (e :: es)
  = Receive.receive_responses_task (Receive.step st e) es.
Proof. reflexivity. Qed.

(** X13. Transient receive errors never end the loop: whatever their
    number, each is logged as a warning and the loop goes back to its
    [while] test, still running, with the event untouched. *)
Theorem transient_errors_are_retried (errors : list string)
    (st : Receive.state) :
  Receive.task st = Running ->
  Receive.shutdown_event st = false ->
  forallb transient errors = true ->
  let st' := Receive.receive_responses_task st (map Receive.Raises errors) in
  Receive.task st' = Running
  /\ Receive.shutdown_event st' = false
  /\ Receive.turn_count st' = Receive.turn_count st
  /\ Receive.calls st' = Receive.calls st ++ map receive_warning errors.
Proof.
  revert st. induction errors as [|e errors IH]; intros st Ht Hs Htr st';
    subst st'.
  - cbn. rewrite app_nil_r. auto.
  - cbn [forallb] in Htr. apply andb_true_iff in Htr. destruct Htr as [He Htr].
    unfold transient in He. apply andb_true_iff in He. destruct He as [H1 H2].
    apply negb_true_iff in H1, H2.
    cbn [map]. rewrite receive_run_cons.
    assert (E : Receive.task (Receive.step st (Receive.Raises e)) = Running
                /\ Receive.shutdown_event (Receive.step st (Receive.Raises e))
                   = false
                /\ Receive.turn_count (Receive.step st (Receive.Raises e))
                   = Receive.turn_count st
                /\ Receive.calls (Receive.step st (Receive.Raises e))
                   = Receive.calls st ++ [receive_warning e]).
    { destruct st as [sd n p t cs pd ft]. cbn in Ht, Hs. subst t sd.
      unfold Receive.step. cbn [Receive.task Receive.at_ Receive.shutdown_event].
      destruct p; cbn [Receive.in_for Receive.in_body];
        unfold Receive.on_exception; rewrite H1, H2; cbn; auto. }
    destruct E as (Ht1 & Hs1 & Hn1 & Hc1).
    destruct (IH _ Ht1 Hs1 Htr) as (Ht' & Hs' & Hn' & Hc').
    rewrite Ht', Hs', Hn', Hc', Hn1, Hc1. cbn. rewrite <- app_assoc. auto.
Qed.

Lemma transient_errors_are_retried_witness :
  let st' := Receive.receive_responses_task Receive.initial
               (map Receive.Raises ["timeout"%string; "503 unavailable"%string]) in
  Receive.task st' = Running
  /\ Receive.shutdown_event st' = false
  /\ Receive.turn_count st' = Receive.turn_count Receive.initial
  /\ Receive.calls st'
     = Receive.calls Receive.initial
       ++ map receive_warning ["timeout"%string; "503 unavailable"%string].
Proof.
  apply (transient_errors_are_retried ["timeout"%string; "503 unavailable"%string]
           Receive.initial); reflexivity.
Defined.

(** X14. The cancellation marker wins over the connection-closed
    signature: an error whose message holds the marker ends the receive
    loop with no log and without setting the event, whatever else the
    message holds. *)
Theorem cancellation_is_silent (error_str : string) (st : Receive.state) :
  Str.cancellation error_str = true ->
  Receive.task st = Running ->
  Receive.at_ st = Receive.InFor \/ Receive.shutdown_event st = false ->
  let st' := Receive.step st (Receive.Raises error_str) in
  Receive.task st' = Returned
  /\ Receive.shutdown_event st' = Receive.shutdown_event st
  /\ Receive.calls st' = Receive.calls st.
Proof.
  intros Hcan Ht Hat st'. subst st'.
  destruct st as [sd n p t cs pd ft]. cbn in Ht, Hat. subst t.
  unfold Receive.step. cbn [Receive.task Receive.at_ Receive.shutdown_event].
  destruct p.
  - destruct Hat as [Hat|Hat]; [discriminate|]. subst sd.
    cbn [Receive.in_for]. unfold Receive.on_exception. rewrite Hcan.
    cbn. auto.
  - cbn [Receive.in_for]. unfold Receive.on_exception. rewrite Hcan.
    cbn. auto.
  - cbn [Receive.in_body]. unfold Receive.on_exception. rewrite Hcan.
    cbn. auto.
Qed.

Lemma cancellation_is_silent_witness :
  let st' := Receive.step Receive.initial
               (Receive.Raises "ConnectionClosed: task was cancelled") in
  Str.connection_closed "ConnectionClosed: task was cancelled" = true
  /\ Receive.task st' = Returned
  /\ Receive.shutdown_event st' = false
  /\ Receive.calls st' = [].
Proof.
  split; [reflexivity|].
  apply (cancellation_is_silent "ConnectionClosed: task was cancelled"
           Receive.initial); [reflexivity|reflexivity|now right].
Defined.

(** X15. Once the event is set the receive loop takes up no response:
    as long as the log calls return, the callbacks it still makes are the
    next ones of the body that was in progress (the event is not tested
    between the callbacks of one response), in order; a loop that is not in
    a body makes none, and returns when the iterator yields. *)
Theorem receive_after_shutdown (es : list Receive.event)
    (st : Receive.state) :
  Receive.shutdown_event st = true ->
  forallb (fun e => negb (log_fails e)) es = true ->
  let st' := Receive.receive_responses_task st es in
  (exists made rest,
     outstanding st = made ++ rest
     /\ responses_in (Receive.calls st')
        = responses_in (Receive.calls st) ++ responses_in made)
  /\ (Receive.at_ st <> Receive.InBody ->
      forall server, In (Receive.Yields server) es ->
                     Receive.task st' = Returned).
Proof.
  intros Hs Hl st'. subst st'. split.
  - destruct (receive_run_when_set es st Hs Hl) as (made & dropped & Ho & Hr).
    exists made, (outstanding (Receive.receive_responses_task st es) ++ dropped).
    auto.
  - clear Hl. revert st Hs. induction es as [|e es IH]; intros st Hs Hp server;
      [intros []|].
    rewrite receive_run_cons.
    destruct (receive_step_outside_body st e Hs Hp) as [Hp1 Hy].
    intros [->|Hin].
    + rewrite (receive_returned_task es _ (Hy server eq_refl)). reflexivity.
    + exact (IH _ (receive_step_keeps_set st e Hs) Hp1 server Hin).
Qed.

Lemma receive_after_shutdown_witness :
  let content := Receive.mkContent false
                   (Some [Receive.mkPart (Some [x01]) (Some "hi"%string)])
                   true in
  let st := Receive.receive_responses_task Receive.initial
              [Receive.Begins (Some content); Receive.SetElsewhere] in
  let es := [Receive.Resumes; Receive.Resumes; Receive.Resumes;
             Receive.Yields (Some content)] in
  let st' := Receive.receive_responses_task st es in
  (exists made rest,
     outstanding st = made ++ rest
     /\ responses_in (Receive.calls st')
        = responses_in (Receive.calls st) ++ responses_in made)
  /\ (Receive.at_ st <> Receive.InBody ->
      forall server, In (Receive.Yields server) es ->
                     Receive.task st' = Returned).
Proof.
  exact (receive_after_shutdown
           [Receive.Resumes; Receive.Resumes; Receive.Resumes;
            Receive.Yields
              (Some (Receive.mkContent false
                       (Some [Receive.mkPart (Some [x01]) (Some "hi"%string)])
                       true))]
           (Receive.receive_responses_task Receive.initial
              [Receive.Begins
                 (Some (Receive.mkContent false
                          (Some [Receive.mkPart (Some [x01])
                                   (Some "hi"%string)])
                          true));
               Receive.SetElsewhere])
           eq_refl eq_refl).
Defined.

(** The callbacks of a response in progress are made after the event is
    set; the next response is not taken up. *)
Example callbacks_after_the_event_is_set :
  let content := Receive.mkContent false
                   (Some [Receive.mkPart (Some [x01]) (Some "hi"%string)])
                   true in
  let st := Receive.receive_responses_task Receive.initial
              [Receive.Begins (Some content); Receive.SetElsewhere;
               Receive.Resumes; Receive.Resumes; Receive.Resumes;
               Receive.Yields (Some content)] in
  responses_in (Receive.calls st)
  = [Handler.audio [x01]; Handler.text "hi"; Handler.turn_complete]
  /\ Receive.turn_count st = 1
  /\ Receive.task st = Returned.
Proof. repeat split. Qed.

Lemma make_fields (c : call) (st : Receive.state) :
  Receive.make c st
  = Receive.mkState (Receive.shutdown_event st)
      (Receive.turn_count st + (if completes c then 1 else 0))
      (Receive.at_ st) (Receive.task st) (Receive.calls st ++ [c])
      (Receive.pending st) (Receive.fault st).
Proof.
  destruct st as [sd n p t cs pd ft].
  destruct c as [[| | | |]|]; cbn; rewrite ?Z.add_0_r; reflexivity.
Qed.

(** The callbacks of a body in progress return one after the other. *)
Lemma resumes_drain (pd : list call) (n : Z) (cs : list call)
    (ft : option string) :
  Receive.receive_responses_task
    (Receive.mkState false n Receive.InBody Running cs pd ft)
    (repeat Receive.Resumes (S (List.length pd)))
  = Receive.mkState false (n + len (filter completes pd)) Receive.InFor
      Running (cs ++ pd) [] ft.
Proof.
  revert n cs. induction pd as [|c pd IH]; intros n cs.
  - cbn. rewrite app_nil_r, Z.add_0_r. reflexivity.
  - cbn [List.length repeat]. rewrite receive_run_cons.
    cbn [Receive.step Receive.task Receive.at_ Receive.in_body
         Receive.continue Receive.pending].
    rewrite make_fields. cbn [Receive.set_pending Receive.shutdown_event
      Receive.turn_count Receive.at_ Receive.task Receive.calls
      Receive.pending Receive.fault].
    rewrite IH, <- app_assoc. cbn [app filter].
    f_equal. unfold len. destruct (completes c); cbn [List.length]; lia.
Qed.

Lemma part_calls_complete_nothing (parts : list Receive.part) :
  filter completes (flat_map Receive.part_calls parts) = [].
Proof.
  induction parts as [|q parts IH]; [reflexivity|].
  cbn [flat_map]. rewrite filter_app, IH, app_nil_r.
  unfold Receive.part_calls.
  destruct (Receive.inline_data q); destruct (Receive.truthy (Receive.text q));
    reflexivity.
Qed.

Lemma count_turn_fields (server : option Receive.server_content)
    (st : Receive.state) :
  Receive.count_turn server st
  = Receive.mkState (Receive.shutdown_event st)
      (Receive.turn_count st
       + len (filter completes (Receive.response_calls server)))
      (Receive.at_ st) (Receive.task st) (Receive.calls st)
      (Receive.pending st) (Receive.fault st).
Proof.
  destruct st as [sd n p t cs pd ft]. destruct server as [content|];
    [|cbn; now rewrite Z.add_0_r].
  cbn [Receive.count_turn Receive.response_calls]. unfold Receive.content_calls.
  destruct (Receive.interrupted content); [cbn; now rewrite Z.add_0_r|].
  rewrite filter_app.
  assert (E : filter completes
                match Receive.model_turn content with
                | Some parts => flat_map Receive.part_calls parts
                | None => []
                end = [])
    by (destruct (Receive.model_turn content);
        [apply part_calls_complete_nothing|reflexivity]).
  rewrite E. destruct (Receive.turn_complete content); cbn;
    rewrite ?Z.add_0_r; reflexivity.
Qed.

(** A response run in one step and run callback by callback make the same
    calls and count the same turns. *)
Lemma yields_is_begins_and_resumes (server : option Receive.server_content)
    (st : Receive.state) :
  Receive.task st = Running ->
  Receive.shutdown_event st = false ->
  Receive.at_ st = Receive.InFor ->
  Receive.pending st = [] ->
  Receive.receive_responses_task st
    (Receive.Begins server
     :: repeat Receive.Resumes (List.length (Receive.response_calls server)))
  = Receive.step st (Receive.Yields server).
Proof.
  intros Ht Hs Hp Hpd. destruct st as [sd n p t cs pd ft].
  cbn in Ht, Hs, Hp, Hpd. subst t sd p pd.
  rewrite receive_run_cons.
  cbn [Receive.step Receive.task Receive.at_ Receive.in_for
       Receive.shutdown_event].
  rewrite count_turn_fields.
  cbn [Receive.emit Receive.shutdown_event Receive.turn_count Receive.at_
       Receive.task Receive.calls Receive.pending Receive.fault].
  destruct (Receive.response_calls server) as [|c rest].
  - cbn. rewrite app_nil_r, Z.add_0_r. reflexivity.
  - rewrite make_fields.
    cbn [Receive.set_pending Receive.goto Receive.shutdown_event
         Receive.turn_count Receive.at_ Receive.task Receive.calls
         Receive.pending Receive.fault List.length].
    rewrite resumes_drain, <- app_assoc. cbn [app filter].
    f_equal. unfold len. destruct (completes c); cbn [List.length]; lia.
Qed.

End ReceiveMore.

(* ===================================================================== *)
(** * From the remote model to the client                                *)
(* ===================================================================== *)

Module RelayMore.
Import Handler HandlerFacts.

Lemma part_calls_responses (p : Receive.part) :
  forallb is_response_call (Receive.part_calls p) = true
  /\ received (responses_in (Receive.part_calls p))
     = match Receive.inline_data p with
       | Some audio_bytes => audio_bytes
       | None => []
       end.
Proof.
  destruct p as [[d|] t]; unfold Receive.part_calls; cbn [Receive.inline_data
    Receive.text]; destruct (Receive.truthy t); cbn; rewrite ?app_nil_r; auto.
Qed.

Lemma forallb_is_response_app (l1 l2 : list call) :
  forallb is_response_call l1 = true ->
  forallb is_response_call l2 = true ->
  forallb is_response_call (l1 ++ l2) = true.
Proof. intros H1 H2. rewrite forallb_app, H1, H2. reflexivity. Qed.

Lemma parts_calls_responses (parts : list Receive.part) :
  forallb is_response_call (flat_map Receive.part_calls parts) = true
  /\ received (responses_in (flat_map Receive.part_calls parts))
     = flat_map (fun p => match Receive.inline_data p with
                          | Some audio_bytes => audio_bytes
                          | None => []
                          end) parts.
Proof.
  induction parts as [|p parts [IH1 IH2]]; [split; reflexivity|].
  destruct (part_calls_responses p) as [H1 H2]. cbn [flat_map]. split.
  - now apply forallb_is_response_app.
  - unfold responses_in in *. rewrite flat_map_app, received_app.
    now rewrite H2, IH2.
Qed.

(** The callbacks of a response are responses, and their audio is the
    inline data of the parts. *)
Lemma response_calls_audio (server : option Receive.server_content) :
  forallb is_response_call (Receive.response_calls server) = true
  /\ received (responses_in (Receive.response_calls server))
     = inline_audio server.
Proof.
  destruct server as [[i mt tc]|]; [|split; reflexivity].
  unfold Receive.response_calls, Receive.content_calls, inline_audio.
  cbn [Receive.interrupted Receive.model_turn Receive.turn_complete].
  destruct i; [split; reflexivity|].
  destruct mt as [parts|].
  - destruct (parts_calls_responses parts) as [H1 H2]. split.
    + apply forallb_is_response_app; [assumption|now destruct tc].
    + unfold responses_in in *. rewrite flat_map_app, received_app, H2.
      destruct tc; cbn; now rewrite app_nil_r.
  - destruct tc; split; reflexivity.
Qed.

(** The receive loop, event unset, calls back for every response it is
    given, in order. *)
Lemma yields_calls (servers : list (option Receive.server_content))
    (st : Receive.state) :
  Receive.task st = Running ->
  Receive.shutdown_event st = false ->
  Receive.at_ st <> Receive.InBody ->
  Receive.calls
    (Receive.receive_responses_task st (map Receive.Yields servers))
  = Receive.calls st ++ flat_map Receive.response_calls servers.
Proof.
  revert st. induction servers as [|server servers IH]; intros st Ht Hs Hp.
  - cbn. now rewrite app_nil_r.
  - cbn [map flat_map]. rewrite ReceiveMore.receive_run_cons.
    assert (E : Receive.step st (Receive.Yields server)
                = Receive.mkState false
                    (Receive.turn_count st
                     + len (filter completes (Receive.response_calls server)))
                    Receive.InFor Running
                    (Receive.calls st ++ Receive.response_calls server)
                    (Receive.pending st) (Receive.fault st)).
    { destruct st as [sd n p t cs pd ft]. cbn in Ht, Hs, Hp. subst t sd.
      unfold Receive.step.
      cbn [Receive.task Receive.at_ Receive.shutdown_event].
      destruct p; [| |congruence];
        cbn [Receive.in_for Receive.goto Receive.shutdown_event];
        rewrite ReceiveMore.count_turn_fields; reflexivity. }
    rewrite E. rewrite IH; [|reflexivity|reflexivity|discriminate].
    cbn [Receive.calls]. now rewrite app_assoc.
Qed.

Lemma deliver_responses (ws_accepts : list message -> message -> bool)
    (cs : list call) (c : state) :
  forallb is_response_call cs = true ->
  fold_left (Endpoint.deliver ws_accepts) cs c
  = run ws_accepts c (responses_in cs).
Proof.
  revert c. induction cs as [|x cs IH]; intros c H; [reflexivity|].
  cbn [forallb] in H. apply andb_true_iff in H. destruct H as [Hx H].
  destruct x as [r|msg level]; [|discriminate].
  cbn [fold_left Endpoint.deliver responses_in flat_map app].
  rewrite run_cons. now apply IH.
Qed.

Lemma flat_map_forallb (servers : list (option Receive.server_content)) :
  forallb is_response_call (flat_map Receive.response_calls servers) = true
  /\ received (responses_in (flat_map Receive.response_calls servers))
     = flat_map inline_audio servers.
Proof.
  induction servers as [|server servers [IH1 IH2]]; [split; reflexivity|].
  destruct (response_calls_audio server) as [H1 H2]. cbn [flat_map]. split.
  - now apply forallb_is_response_app.
  - unfold responses_in in *. rewrite flat_map_app, received_app.
    now rewrite H2, IH2.
Qed.

(** X16. Audio is conserved from the remote model to the client: when
    the receive loop is given a sequence of responses and the handler
    processes its callbacks to the end, the PCM payloads of the Audio
    messages written, followed by the playback buffer, are the inline data
    of the parts of the responses that are not interruptions, in order. *)
Theorem remote_audio_is_conserved
    (ws_accepts : list message -> message -> bool)
    (servers : list (option Receive.server_content)) :
  let cs := Receive.calls
              (Receive.receive_responses_task Receive.initial
                 (map Receive.Yields servers)) in
  let c := fold_left (Endpoint.deliver ws_accepts) cs initial in
  is_connected c = true ->
  pcm_of_log (sent c) ++ audio_buffer c = flat_map inline_audio servers.
Proof.
  intros cs c Hc. subst c cs.
  assert (Hp0 : Receive.at_ Receive.initial <> Receive.InBody)
    by discriminate.
  rewrite (yields_calls servers Receive.initial eq_refl eq_refl Hp0) in *.
  cbn [Receive.calls Receive.initial app] in *.
  destruct (flat_map_forallb servers) as [Hall Haudio].
  rewrite (deliver_responses ws_accepts _ initial Hall) in *.
  destruct (run_steps ws_accepts _ initial Hc) as (_ & new & Hs & Hp & _).
  cbn [sent audio_buffer initial app] in Hs, Hp.
  rewrite Hs, Hp. exact Haudio.
Qed.

Lemma remote_audio_is_conserved_witness :
  let servers := interrupted_turn in
  let cs := Receive.calls
              (Receive.receive_responses_task Receive.initial
                 (map Receive.Yields servers)) in
  let c := fold_left (Endpoint.deliver reliable) cs initial in
  pcm_of_log (sent c) ++ audio_buffer c = flat_map inline_audio servers.
Proof.
  apply (remote_audio_is_conserved reliable interrupted_turn). reflexivity.
Defined.

End RelayMore.

(* ===================================================================== *)
(** * Further properties of the coordinator                              *)
(* ===================================================================== *)

Module CoordinatorMore.
Import LoopFacts.

(** X17. A return of the coordinator's wait ends the supervising loop
    exactly when a task has ended by an exception or a cancellation, or both
    tasks have ended; timeouts, and the return of one task alone while the
    other is pending, keep the session going with the event unset. *)
Theorem wait_ends_session_iff (send receive : Coordinator.task_state) :
  (snd (Coordinator.waiting false [Coordinator.Wait send receive]) = true
   <-> ended_badly send = true \/ ended_badly receive = true
       \/ (Coordinator.is_done send = true
           /\ Coordinator.is_done receive = true))
  /\ (forall ws, forallb quiet ws = true ->
                 Coordinator.waiting false ws = (false, [], false)).
Proof.
  split.
  - destruct send, receive; cbn; intuition discriminate.
  - induction ws as [|w ws IH]; intro H; [reflexivity|].
    cbn [forallb] in H. apply andb_true_iff in H. destruct H as [Hw H].
    destruct w as [s r| |]; try discriminate.
    destruct s, r; try discriminate; cbn; now rewrite (IH H).
Qed.

Lemma wait_ends_session_iff_witness :
  Coordinator.waiting false
    [Coordinator.Wait Coordinator.Pending Coordinator.Pending;
     Coordinator.Wait Coordinator.Done Coordinator.Pending;
     Coordinator.Wait Coordinator.Done Coordinator.Pending]
  = (false, [], false).
Proof.
  exact (proj2 (wait_ends_session_iff Coordinator.Pending Coordinator.Pending)
           [Coordinator.Wait Coordinator.Pending Coordinator.Pending;
            Coordinator.Wait Coordinator.Done Coordinator.Pending;
            Coordinator.Wait Coordinator.Done Coordinator.Pending] eq_refl).
Defined.

(** X18. On every way out of an opened session the event is set, both
    tasks are cancelled, the send task is awaited, the receive task is
    awaited unless that first await raised, and the remote connection is
    closed last. *)
Theorem every_exit_cancels_and_closes (sd : bool)
    (ws : list Coordinator.wake)
    (final : Coordinator.task_id -> Coordinator.awaited) :
  let r := Coordinator.run_gemini_session None sd ws final in
  Coordinator.outcome r <> Coordinator.Supervising ->
  Coordinator.shutdown_event r = true
  /\ exists before awaits,
       Coordinator.actions r
       = before
         ++ [Coordinator.SetShutdown; Coordinator.Cancel Coordinator.send_task;
             Coordinator.Cancel Coordinator.receive_task;
             Coordinator.Await Coordinator.send_task]
         ++ awaits ++ [Coordinator.CloseConnection]
       /\ ((awaits = []
            /\ exists exc, final Coordinator.send_task
                           = Coordinator.AwaitRaises exc)
           \/ awaits = [Coordinator.Await Coordinator.receive_task]).
Proof.
  cbn zeta. unfold Coordinator.run_gemini_session.
  destruct (Coordinator.supervise sd ws) as [[s acts] exited].
  destruct exited; [|cbn; congruence].
  unfold Coordinator.finally_. cbn [Coordinator.await_all].
  intros _.
  set (start := [Coordinator.OpenConnection;
                 Coordinator.CreateTask Coordinator.send_task;
                 Coordinator.CreateTask Coordinator.receive_task]).
  destruct (final Coordinator.send_task) as [| |exc].
  1, 2: destruct (final Coordinator.receive_task) as [| |exc'];
    (split; [reflexivity|]);
    exists (start ++ acts), [Coordinator.Await Coordinator.receive_task];
    cbn [Coordinator.actions]; (split; [now rewrite <- !app_assoc|now right]).
  split; [reflexivity|]. exists (start ++ acts), [].
  cbn [Coordinator.actions]. split; [now rewrite <- !app_assoc|].
  left. split; [reflexivity|]. now exists exc.
Qed.

Lemma every_exit_cancels_and_closes_witness :
  Coordinator.shutdown_event
    (Coordinator.run_gemini_session None false [Coordinator.WaitCancelled]
       (fun _ => Coordinator.AwaitCancelled)) = true.
Proof.
  refine (proj1 (every_exit_cancels_and_closes false
                   [Coordinator.WaitCancelled]
                   (fun _ => Coordinator.AwaitCancelled) _)).
  discriminate.
Defined.

Lemma session_run_app (es1 es2 : list Session.event) (s : Session.state) :
  Session.run s (es1 ++ es2) = Session.run (Session.run s es1) es2.
Proof. apply fold_left_app. Qed.

(** X19. In a session the event is one-way: from the start of
    [run_gemini_session], once the event is set at some point of a schedule
    it is set at every later point, whichever of the loops, the coordinator
    and the endpoint run. *)
Theorem session_event_is_one_way (connect : option string) (sd : bool)
    (es1 es2 : list Session.event) :
  Session.shutdown_event (Session.run (Session.start connect sd) es1) = true ->
  Session.shutdown_event
    (Session.run (Session.start connect sd) (es1 ++ es2)) = true.
Proof.
  intro H. rewrite session_run_app. apply session_run_keeps_set; [|exact H].
  apply session_run_shared. apply start_shared.
Qed.

Lemma session_event_is_one_way_witness :
  Session.shutdown_event
    (Session.run (Session.start None false)
       ([Session.Put (Some [x01]);
         Session.SendTurn (Send.SendRaises "ConnectionClosed")]
        ++ [Session.Receive Receive.IteratorEnds; Session.Put None]))
  = true.
Proof.
  apply (session_event_is_one_way None false
           [Session.Put (Some [x01]);
            Session.SendTurn (Send.SendRaises "ConnectionClosed")]
           [Session.Receive Receive.IteratorEnds; Session.Put None]).
  reflexivity.
Defined.

End CoordinatorMore.

(* ===================================================================== *)
(** * Further properties of the endpoint                                 *)
(* ===================================================================== *)

Module EndpointMore.
Import LoopFacts.

(** A session that is over takes no step. *)
Lemma over_run (es : list Session.event) (s : Session.state) :
  Session.outcome s <> Coordinator.Supervising -> Session.run s es = s.
Proof.
  intro H. induction es as [|e es IH]; [reflexivity|].
  cbn [Session.run fold_left]. unfold Session.step at 2.
  destruct (Session.outcome s) eqn:E; [congruence| |]; exact IH.
Qed.



Section AnyWebsocket.
Variable ws_accepts : list Handler.message -> Handler.message -> bool.
Local Notation "'endpoint'" := (Endpoint.websocket_endpoint ws_accepts).
Local Notation "'step'" := (Endpoint.step ws_accepts).
Local Notation "'gemini'" := (Endpoint.gemini ws_accepts).
Local Notation "'deliver'" := (Endpoint.deliver ws_accepts).

Lemma gemini_session (es : list Session.event) (st : Endpoint.state) :
  Endpoint.session (gemini es st)
  = option_map (fun s => Session.run s es) (Endpoint.session st).
Proof.
  unfold Endpoint.gemini. destruct (Endpoint.session st) eqn:E; cbn; auto.
Qed.

Lemma settle_fields (st : Endpoint.state) :
  Endpoint.session (Endpoint.settle st) = Endpoint.session st
  /\ Endpoint.client (Endpoint.settle st) = Endpoint.client st.
Proof.
  unfold Endpoint.settle. destruct (Endpoint.session st) as [s|] eqn:E;
    [destruct (Endpoint.supervising s)|]; cbn; auto.
Qed.

Lemma finally_session (st : Endpoint.state) :
  Endpoint.session (Endpoint.finally_ ws_accepts st)
  = option_map (fun s => Session.run s [Session.SetShutdown; Session.Put None])
      (Endpoint.session st).
Proof.
  unfold Endpoint.finally_.
  rewrite (proj1 (settle_fields _)), gemini_session. reflexivity.
Qed.

(** The session of the endpoint only changes by steps of the session. *)
Lemma step_session (st : Endpoint.state) (e : Endpoint.event) :
  exists es,
    Endpoint.session (step st e)
    = option_map (fun s => Session.run s es) (Endpoint.session st).
Proof.
  assert (Hid : Endpoint.session st
                = option_map (fun s => Session.run s []) (Endpoint.session st))
    by (destruct (Endpoint.session st); reflexivity).
  unfold Endpoint.step, Endpoint.recheck.
  destruct (Endpoint.at_ st); try (exists []; exact Hid).
  - destruct e as [[|data| | | |]|e];
      try (eexists; apply finally_session).
    + destruct (Handler.is_connected _).
      * eexists. apply gemini_session.
      * exists ([Session.Put (Some data)]
                ++ [Session.SetShutdown; Session.Put None]).
        rewrite finally_session, gemini_session.
        destruct (Endpoint.session st); [|reflexivity].
        cbn [option_map]. now rewrite CoordinatorMore.session_run_app.
    + destruct (Handler.is_connected _); [exists []; exact Hid|].
      eexists. apply finally_session.
    + eexists. apply gemini_session.
  - destruct e as [m|e]; [exists []; exact Hid|].
    destruct e; try (exists []; exact Hid);
      eexists; rewrite (proj1 (settle_fields _)); apply gemini_session.
Qed.

Lemma step_keeps_session (st : Endpoint.state) (e : Endpoint.event) :
  Endpoint.session st <> None -> Endpoint.session (step st e) <> None.
Proof.
  intro H. destruct (step_session st e) as [es ->].
  destruct (Endpoint.session st); [discriminate|congruence].
Qed.

Lemma steps_keep_session (es : list Endpoint.event) (st : Endpoint.state) :
  Endpoint.session st <> None ->
  Endpoint.session (fold_left step es st) <> None.
Proof.
  revert st. induction es as [|e es IH]; intros st H; [assumption|].
  cbn [fold_left]. apply IH. now apply step_keeps_session.
Qed.

(** X20. The health check and the endpoint agree: [root] reports
    [gemini_configured] exactly for the credentials with which the websocket
    endpoint creates its session task. *)
Theorem health_agrees_with_endpoint (GEMINI_API_KEY : string)
    (connect : option string) (es : list Endpoint.event) :
  Health.gemini_configured (Health.root GEMINI_API_KEY) = true
  <-> Endpoint.session (endpoint GEMINI_API_KEY connect es) <> None.
Proof.
  destruct GEMINI_API_KEY as [|c key]; cbn [Health.root Health.bool_of_str
    Health.gemini_configured].
  - unfold Endpoint.websocket_endpoint.
    destruct (Handler.send_text ws_accepts _ Handler.initial) as [c0 [u|]];
      cbn; split; congruence.
  - split; [intros _|reflexivity].
    unfold Endpoint.websocket_endpoint.
    destruct (Handler.send_text ws_accepts Handler.Msg_session_started
                Handler.initial) as [c0 [u|]]; [|cbn; discriminate].
    apply steps_keep_session. cbn. discriminate.
Qed.

Lemma gemini_over (es : list Session.event) (st : Endpoint.state)
    (s : Session.state) :
  Endpoint.session st = Some s ->
  Session.outcome s <> Coordinator.Supervising ->
  gemini es st = st.
Proof.
  intros Hs Ho. unfold Endpoint.gemini. rewrite Hs, (over_run es s Ho).
  rewrite added_same. cbn [fold_left].
  assert (E : Endpoint.supervising s = false).
  { unfold Endpoint.supervising. destruct (Session.outcome s); congruence. }
  rewrite E. destruct st. cbn in *. now subst.
Qed.











End AnyWebsocket.


(** The chunk the send loop was waiting for when the client left is
    forwarded during the teardown; the sentinel stays on the queue. *)
Example teardown_forwards_the_waited_chunk :
  let st := Endpoint.websocket_endpoint Handler.reliable "key" None
              [Endpoint.Gemini Session.SendWait;
               Endpoint.Client (Endpoint.Binary [x01]);
               Endpoint.Client Endpoint.Disconnect;
               Endpoint.Gemini (Session.SendTurn Send.Sent);
               Endpoint.Gemini Session.CancelSession] in
  Endpoint.at_ st = Endpoint.Ended
  /\ option_map (fun s => Send.forwarded (Session.send s)) (Endpoint.session st)
     = Some [[x01]]
  /\ option_map (fun s => Send.audio_queue (Session.send s))
       (Endpoint.session st)
     = Some [None].
Proof. repeat split. Qed.

Section ErrorEvents.
Variable ws_accepts : list Handler.message -> Handler.message -> bool.
Local Notation "'step'" := (Endpoint.step ws_accepts).
Local Notation "'gemini'" := (Endpoint.gemini ws_accepts).
Local Notation "'deliver'" := (Endpoint.deliver ws_accepts).

(** With a session that is over, the endpoint writes nothing more. *)
Lemma step_over (st : Endpoint.state) (e : Endpoint.event) (s : Session.state) :
  Endpoint.session st = Some s ->
  Session.outcome s <> Coordinator.Supervising ->
  Endpoint.session (step st e) = Some s
  /\ Handler.sent (Endpoint.client (step st e))
     = Handler.sent (Endpoint.client st).
Proof.
  intros Hs Ho.
  assert (Hset : forall st0,
            Endpoint.session st0 = Some s ->
            Endpoint.session (Endpoint.settle st0) = Some s
            /\ Handler.sent (Endpoint.client (Endpoint.settle st0))
               = Handler.sent (Endpoint.client st0)).
  { intros st0 H0. destruct (settle_fields st0) as [-> ->]. auto. }
  assert (Hfin : Endpoint.session (Endpoint.finally_ ws_accepts st) = Some s
                 /\ Handler.sent
                      (Endpoint.client (Endpoint.finally_ ws_accepts st))
                    = Handler.sent (Endpoint.client st)).
  { unfold Endpoint.finally_.
    rewrite (gemini_over ws_accepts _ _ s); [|exact Hs|exact Ho].
    match goal with
    | |- context [Endpoint.settle ?st0] =>
        destruct (Hset st0 Hs) as [A B]; split; [exact A|now rewrite B]
    end. }
  unfold Endpoint.step, Endpoint.recheck.
  destruct (Endpoint.at_ st); auto.
  - destruct e as [[|data| | | |]|e]; try exact Hfin.
    + rewrite (gemini_over ws_accepts _ st s Hs Ho).
      destruct (Handler.is_connected (Endpoint.client st)); auto.
    + destruct (Handler.is_connected (Endpoint.client st)); auto.
    + rewrite (gemini_over ws_accepts _ st s Hs Ho). auto.
  - destruct e as [m|e]; [auto|].
    destruct e; auto; rewrite (gemini_over ws_accepts _ st s Hs Ho);
      apply (Hset _ Hs).
Qed.

Lemma steps_over (es : list Endpoint.event) (st : Endpoint.state)
    (s : Session.state) :
  Endpoint.session st = Some s ->
  Session.outcome s <> Coordinator.Supervising ->
  Handler.sent (Endpoint.client (fold_left step es st))
  = Handler.sent (Endpoint.client st).
Proof.
  revert st. induction es as [|e es IH]; intros st Hs Ho; [reflexivity|].
  cbn [fold_left]. destruct (step_over st e s Hs Ho) as [Hs' Hsent].
  rewrite (IH _ Hs' Ho). exact Hsent.
Qed.

End ErrorEvents.

(** X22. A failed connection to the remote model is reported once: with
    a credential and a client that takes every message, when the connection
    attempt raises, the session task writes the two connecting logs, an
    error log and exactly one Error event carrying the exception text, in
    this order, and nothing else is written whatever follows; no task was
    created and no remote connection is left to close. *)
Theorem connection_failure_is_reported_once (c : ascii) (key exc : string)
    (es : list Endpoint.event) :
  let st := Endpoint.websocket_endpoint Handler.reliable (String c key)
              (Some exc) es in
  task_messages (Handler.sent (Endpoint.client st))
  = [Handler.Msg_server_log "Connecting to Gemini Live..." "info";
     Handler.Msg_server_log
       ("🔌 Connecting to Gemini Live (" ++ Session.model ++ ")...") "info";
     Handler.Msg_server_log ("Gemini error: " ++ exc) "error";
     Handler.Msg_error exc]
  /\ error_events (Handler.sent (Endpoint.client st)) = 1%nat
  /\ option_map Session.actions (Endpoint.session st) = Some [].
Proof.
  cbn zeta. unfold Endpoint.websocket_endpoint, Handler.send_text.
  cbn [Handler.sent Handler.initial].
  change (Handler.reliable [] Handler.Msg_session_started) with true.
  cbn iota beta.
  match goal with
  | |- context [fold_left _ es ?s0] => set (st0 := s0)
  end.
  assert (Hs : Endpoint.session st0 = Some (Session.start (Some exc) false))
    by reflexivity.
  assert (Ho : Session.outcome (Session.start (Some exc) false)
               <> Coordinator.Supervising) by (cbn; discriminate).
  rewrite (steps_over Handler.reliable es st0 _ Hs Ho).
  split; [reflexivity|]. split; [reflexivity|].
  assert (Hsess : forall es' st,
            Endpoint.session st = Some (Session.start (Some exc) false) ->
            Endpoint.session (fold_left (Endpoint.step Handler.reliable) es' st)
            = Some (Session.start (Some exc) false)).
  { induction es' as [|e es' IH]; intros st H; [exact H|].
    cbn [fold_left]. apply IH.
    now destruct (step_over Handler.reliable st e _ H Ho). }
  rewrite (Hsess es st0 Hs). reflexivity.
Qed.

End EndpointMore.

(* ===================================================================== *)
(** * Error events                                                       *)
(* ===================================================================== *)

Module ErrorsMore.
Import LoopFacts EndpointMore.

Lemma no_error_calls_app (l1 l2 : list call) :
  no_error_calls (l1 ++ l2) = no_error_calls l1 && no_error_calls l2.
Proof. apply forallb_app. Qed.

Lemma part_calls_no_error (p : Receive.part) :
  no_error_calls (Receive.part_calls p) = true.
Proof.
  destruct p as [[d|] t]; unfold Receive.part_calls;
    cbn [Receive.inline_data Receive.text];
    destruct (Receive.truthy t); reflexivity.
Qed.

Lemma response_calls_no_error (server : option Receive.server_content) :
  no_error_calls (Receive.response_calls server) = true.
Proof.
  destruct server as [[i mt tc]|]; [|reflexivity].
  unfold Receive.response_calls, Receive.content_calls.
  cbn [Receive.interrupted Receive.model_turn Receive.turn_complete].
  destruct i; [reflexivity|]. rewrite no_error_calls_app.
  apply andb_true_iff. split; [|now destruct tc].
  destruct mt as [parts|]; [|reflexivity].
  induction parts as [|p parts IH]; [reflexivity|].
  cbn [flat_map]. rewrite no_error_calls_app, part_calls_no_error. exact IH.
Qed.

Ltac no_new_call := exists []; cbn; rewrite ?app_nil_r; auto.

Lemma make_calls (c : call) (st : Receive.state) :
  Receive.calls (Receive.make c st) = Receive.calls st ++ [c]
  /\ Receive.fault (Receive.make c st) = Receive.fault st
  /\ Receive.pending (Receive.make c st) = Receive.pending st.
Proof. destruct c as [[| | | |]|]; cbn; auto. Qed.

(** A step of the receive loop at which no log call raises adds no error
    callback and ends the task by no exception. *)
Lemma receive_step_calls (st : Receive.state) (e : Receive.event) :
  log_fails e = false ->
  Receive.fault st = None ->
  no_error_calls (Receive.pending st) = true ->
  Receive.fault (Receive.step st e) = None
  /\ no_error_calls (Receive.pending (Receive.step st e)) = true
  /\ exists new,
       Receive.calls (Receive.step st e) = Receive.calls st ++ new
       /\ no_error_calls new = true.
Proof.
  intros Hl Hf Hp. destruct st as [sd n p t cs pd ft]. cbn in Hf, Hp. subst ft.
  assert (Hsame : forall st0,
            st0 = Receive.mkState sd n p t cs pd None
            \/ st0 = Receive.finish (Receive.mkState sd n p t cs pd None)
            \/ st0 = Receive.set_shutdown (Receive.mkState sd n p t cs pd None)
            \/ st0 = Receive.goto Receive.InFor
                       (Receive.mkState sd n p t cs pd None)
            \/ st0 = Receive.goto Receive.AtWhile
                       (Receive.goto Receive.InFor
                          (Receive.mkState sd n p t cs pd None))
            \/ st0 = Receive.goto Receive.AtWhile
                       (Receive.mkState sd n p t cs pd None)
            \/ st0 = Receive.finish
                       (Receive.goto Receive.InFor
                          (Receive.mkState sd n p t cs pd None)) ->
            Receive.fault st0 = None
            /\ no_error_calls (Receive.pending st0) = true
            /\ exists new, Receive.calls st0 = cs ++ new
                           /\ no_error_calls new = true).
  { intros st0 H. repeat (destruct H as [->|H]); try subst st0;
      cbn; (split; [reflexivity|split; [exact Hp|no_new_call]]). }
  assert (Hexc : forall error_str st0,
            Receive.fault st0 = None ->
            no_error_calls (Receive.pending st0) = true ->
            Receive.calls st0 = cs ->
            Receive.fault (Receive.on_exception error_str st0) = None
            /\ no_error_calls
                 (Receive.pending (Receive.on_exception error_str st0)) = true
            /\ exists new,
                 Receive.calls (Receive.on_exception error_str st0) = cs ++ new
                 /\ no_error_calls new = true).
  { intros error_str st0 H0 H1 H2. unfold Receive.on_exception.
    destruct (Str.cancellation error_str);
      [|destruct (Str.connection_closed error_str)]; cbn;
      rewrite H2; (split; [exact H0|split; [exact H1|]]);
      [no_new_call|eexists; split; reflexivity|eexists; split; reflexivity]. }
  assert (Hmake : forall c st0,
            is_error_call c = false ->
            Receive.fault st0 = None ->
            no_error_calls (Receive.pending st0) = true ->
            Receive.calls st0 = cs ->
            Receive.fault (Receive.make c st0) = None
            /\ no_error_calls (Receive.pending (Receive.make c st0)) = true
            /\ exists new, Receive.calls (Receive.make c st0) = cs ++ new
                           /\ no_error_calls new = true).
  { intros c st0 Hc H0 H1 H2. destruct (make_calls c st0) as (-> & -> & ->).
    rewrite H2. split; [exact H0|]. split; [exact H1|].
    exists [c]. split; [reflexivity|]. cbn. now rewrite Hc. }
  unfold Receive.step.
  destruct e as [server| |error_str| | |server| |error_str exc report];
    try discriminate; cbn [Receive.task Receive.at_ Receive.shutdown_event];
    try (apply Hsame; auto; fail);
    (destruct t; [|apply Hsame; auto]);
    try (apply Hsame; auto 10; fail).
  - (* Yields *)
    assert (Hy : forall st0,
              Receive.fault st0 = None ->
              no_error_calls (Receive.pending st0) = true ->
              Receive.calls st0 = cs ->
              Receive.fault
                (Receive.count_turn server
                   (Receive.emit (Receive.response_calls server) st0)) = None
              /\ no_error_calls
                   (Receive.pending
                      (Receive.count_turn server
                         (Receive.emit (Receive.response_calls server) st0)))
                 = true
              /\ exists new,
                   Receive.calls
                     (Receive.count_turn server
                        (Receive.emit (Receive.response_calls server) st0))
                   = cs ++ new
                   /\ no_error_calls new = true).
    { intros st0 H0 H1 H2. rewrite ReceiveMore.count_turn_fields. cbn.
      rewrite H2. split; [exact H0|]. split; [exact H1|].
      exists (Receive.response_calls server).
      split; [reflexivity|apply response_calls_no_error]. }
    destruct p; cbn [Receive.in_for Receive.in_body Receive.goto
                      Receive.shutdown_event];
      destruct sd; try (apply Hsame; auto 10; fail);
      apply Hy; auto.
  - (* IteratorEnds *)
    destruct p; cbn [Receive.in_for Receive.in_body Receive.goto
                      Receive.shutdown_event];
      destruct sd; apply Hsame; auto 10.
  - (* Raises *)
    destruct p; cbn [Receive.in_for Receive.in_body Receive.goto
                      Receive.shutdown_event].
    + destruct sd; [apply Hsame; auto 10|apply Hexc; auto].
    + apply Hexc; auto.
    + apply Hexc; auto.
  - (* Begins *)
    pose proof (response_calls_no_error server) as Hr.
    destruct p; cbn [Receive.in_for Receive.in_body Receive.goto
                      Receive.shutdown_event];
      destruct sd; try (apply Hsame; auto 10; fail);
      (destruct (Receive.response_calls server) as [|c rest];
       [apply Hsame; auto 10|]);
      cbn [no_error_calls forallb] in Hr; apply andb_true_iff in Hr;
      destruct Hr as [Hc Hrest]; apply negb_true_iff in Hc;
      apply Hmake; auto.
  - (* Resumes *)
    destruct p; cbn [Receive.in_for Receive.in_body Receive.goto
                      Receive.shutdown_event];
      try (destruct sd; apply Hsame; auto 10; fail).
    unfold Receive.continue. cbn [Receive.pending].
    destruct pd as [|c rest]; [apply Hsame; auto 10|].
    cbn [no_error_calls forallb] in Hp. apply andb_true_iff in Hp.
    destruct Hp as [Hc Hrest]. apply negb_true_iff in Hc.
    apply Hmake; auto.
Qed.

(** A step of the send loop adds log calls only; it ends the task by an
    exception only when the log call of its [except] clause raises. *)
Lemma send_step_calls (st : Send.state) (e : Send.event) :
  (exists new,
     Send.calls (Send.step st e) = Send.calls st ++ new
     /\ no_error_calls new = true)
  /\ ((forall error_str exc, e <> Send.Turn (Send.SendFaults error_str exc)) ->
      Send.fault (Send.step st e) = Send.fault st).
Proof.
  destruct st as [sd q n f t cs w ft].
  destruct e as [o| |item| |]; cbn [Send.step Send.task];
    try (destruct t; (split; [no_new_call|reflexivity])).
  - destruct t; [|split; [no_new_call|reflexivity]].
    assert (Hget :
      (exists new,
         Send.calls (Send.after_get o (Send.mkState sd q n f Running cs w ft))
         = cs ++ new /\ no_error_calls new = true)
      /\ ((forall error_str exc, Send.Turn o
                                 <> Send.Turn (Send.SendFaults error_str exc)) ->
          Send.fault (Send.after_get o (Send.mkState sd q n f Running cs w ft))
          = ft)).
    { unfold Send.after_get. cbn [Send.audio_queue].
      destruct q as [|[d|] rest]; try (split; [no_new_call|reflexivity]).
      destruct o as [|error_str| |error_str exc];
        try (split; [no_new_call|reflexivity]).
      - unfold Send.on_exception.
        destruct (Str.connection_closed error_str); cbn;
          (split; [eexists; split; reflexivity|reflexivity]).
      - split.
        + unfold Send.error_log.
          destruct (Str.connection_closed error_str); cbn;
            eexists; split; reflexivity.
        + intro H. now destruct (H error_str exc). }
    unfold Send.turn. cbn [Send.waiting Send.shutdown_event].
    destruct w; [exact Hget|].
    destruct sd; [split; [no_new_call|reflexivity]|exact Hget].
  - destruct t; [|split; [no_new_call|reflexivity]].
    unfold Send.wait. cbn [Send.waiting Send.shutdown_event].
    (destruct w; [|destruct sd]); (split; [no_new_call|reflexivity]).
Qed.

Lemma finalize_unfaulted (acts : list Coordinator.action) (s : Session.state) :
  unfaulted s ->
  Session.calls (Session.finalize acts s) = Session.calls s
  /\ Session.outcome (Session.finalize acts s) = Coordinator.Completed
  /\ unfaulted (Session.finalize acts s).
Proof.
  intros (Hf1 & Hf2 & Hp).
  assert (E1 : Send.fault
                 (Send.step (Send.set_shutdown (Session.send s)) Send.Cancelled)
               = None)
    by (destruct (Session.send s) as [sd q n f [] cs w ft]; exact Hf1).
  assert (E2 : Receive.fault
                 (Receive.step (Receive.set_shutdown (Session.receive s))
                    Receive.Cancelled) = None
               /\ Receive.pending
                    (Receive.step (Receive.set_shutdown (Session.receive s))
                       Receive.Cancelled)
                  = Receive.pending (Session.receive s))
    by (destruct (Session.receive s) as [sd n p [] cs pd ft]; split;
        try exact Hf2; reflexivity).
  destruct E2 as [E2 E3].
  unfold Session.finalize, unfaulted. cbn zeta. rewrite E1, E2.
  cbn -[Send.step Receive.step]. rewrite E1, E2, E3. auto.
Qed.

Lemma coordinate_calls (w : Coordinator.wake) (s : Session.state) :
  unfaulted s ->
  Session.calls (Session.coordinate w s) = Session.calls s
  /\ (not_raised (Session.outcome s) = true ->
      not_raised (Session.outcome (Session.coordinate w s)) = true)
  /\ unfaulted (Session.coordinate w s).
Proof.
  intro Hu. unfold Session.coordinate.
  destruct (Coordinator.waiting (Session.shutdown_event s) [w])
    as [[sd acts] exited].
  destruct exited.
  - destruct (finalize_unfaulted acts s Hu) as (-> & -> & H). auto.
  - cbn. split; [reflexivity|]. split; [auto|].
    destruct Hu as (H1 & H2 & H3). unfold unfaulted. cbn.
    destruct sd; cbn; auto.
Qed.

Lemma session_step_calls (s : Session.state) (e : Session.event) :
  orderly e = true ->
  not_raised (Session.outcome s) = true ->
  unfaulted s ->
  not_raised (Session.outcome (Session.step s e)) = true
  /\ unfaulted (Session.step s e)
  /\ exists new,
       Session.calls (Session.step s e) = Session.calls s ++ new
       /\ no_error_calls new = true.
Proof.
  intros Hor Hn Hu. unfold Session.step.
  destruct (Session.outcome s) eqn:Ho;
    try (split; [now rewrite Ho|split; [exact Hu|no_new_call]]).
  pose proof Hu as (Hf1 & Hf2 & Hp).
  destruct e as [o| |e| |item| |].
  - cbn [Session.outcome Session.calls]. split; [rewrite ?Ho; reflexivity|].
    destruct (send_step_calls (Session.send s) (Send.Turn o))
      as [(new & E & Hne) Hft].
    split.
    + unfold unfaulted. cbn [Session.send Session.receive].
      rewrite Hft; [|intros error_str exc H; injection H as ->; discriminate].
      split; [exact Hf1|].
      destruct (Send.shutdown_event _); cbn; auto.
    + exists new. rewrite E, added_app. auto.
  - cbn [Session.outcome Session.calls]. split; [rewrite ?Ho; reflexivity|].
    split; [|no_new_call].
    unfold unfaulted. cbn [Session.send Session.receive].
    destruct (send_step_calls (Session.send s) Send.Wait) as [_ Hft].
    rewrite Hft by (intros; discriminate). auto.
  - cbn [Session.outcome Session.calls]. split; [rewrite ?Ho; reflexivity|].
    cbn [orderly] in Hor. apply negb_true_iff in Hor.
    destruct (receive_step_calls (Session.receive s) e Hor Hf2 Hp)
      as (Hf2' & Hp' & new & E & Hne).
    split.
    + unfold unfaulted. cbn [Session.send Session.receive].
      split; [|auto]. destruct (Receive.shutdown_event _); cbn; auto.
    + exists new. rewrite E, added_app. auto.
  - match goal with
    | |- context [Session.coordinate ?w s] =>
        destruct (coordinate_calls w s Hu) as (Hc & Hr & Hu')
    end.
    split; [apply Hr; rewrite ?Ho; reflexivity|]. split; [exact Hu'|].
    rewrite Hc. no_new_call.
  - cbn. split; [rewrite ?Ho; reflexivity|]. split; [|no_new_call].
    unfold unfaulted. cbn. auto.
  - cbn. split; [rewrite ?Ho; reflexivity|]. split; [|no_new_call].
    unfold unfaulted. cbn. auto.
  - destruct (coordinate_calls Coordinator.WaitCancelled s Hu)
      as (Hc & Hr & Hu').
    split; [apply Hr; rewrite ?Ho; reflexivity|]. split; [exact Hu'|].
    rewrite Hc. no_new_call.
Qed.

Lemma session_run_calls (es : list Session.event) (s : Session.state) :
  forallb orderly es = true ->
  not_raised (Session.outcome s) = true ->
  unfaulted s ->
  not_raised (Session.outcome (Session.run s es)) = true
  /\ unfaulted (Session.run s es)
  /\ exists new,
       Session.calls (Session.run s es) = Session.calls s ++ new
       /\ no_error_calls new = true.
Proof.
  revert s. induction es as [|e es IH]; intros s Hor Hn Hu.
  - split; [assumption|]. split; [assumption|no_new_call].
  - cbn [forallb] in Hor. apply andb_true_iff in Hor. destruct Hor as [He Hor].
    cbn [Session.run fold_left].
    destruct (session_step_calls s e He Hn Hu) as (Hn1 & Hu1 & new1 & E1 & H1).
    destruct (IH _ Hor Hn1 Hu1) as (Hn2 & Hu2 & new2 & E2 & H2).
    split; [exact Hn2|]. split; [exact Hu2|]. exists (new1 ++ new2).
    unfold Session.run in E2. rewrite E2, E1, <- app_assoc.
    split; [reflexivity|]. rewrite no_error_calls_app, H1, H2. reflexivity.
Qed.

Section AnyWebsocket.
Variable ws_accepts : list Handler.message -> Handler.message -> bool.
Local Notation "'step'" := (Endpoint.step ws_accepts).
Local Notation "'gemini'" := (Endpoint.gemini ws_accepts).
Local Notation "'deliver'" := (Endpoint.deliver ws_accepts).

Lemma error_events_app (l1 l2 : list Handler.message) :
  error_events (l1 ++ l2) = (error_events l1 + error_events l2)%nat.
Proof. unfold error_events. now rewrite filter_app, List.length_app. Qed.

Import Handler HandlerFacts.

Lemma handle_no_error (st : state) (r : response) :
  is_error_call (Response r) = false ->
  error_events (sent (handle_gemini_response ws_accepts st r))
  = error_events (sent st).
Proof.
  destruct st as [c k buf log].
  destruct r as [d|t| | |e]; try discriminate; intros _;
    run_handler; destruct c; cbn [negb];
    LogsMore.split_cases; cbn;
    unfold error_events; rewrite ?filter_app, ?List.length_app; cbn; lia.
Qed.

Lemma send_log_no_error (msg level : string) (st : state) :
  error_events (sent (send_log ws_accepts msg level st))
  = error_events (sent st).
Proof.
  destruct (HandlerMore.send_log_fields ws_accepts msg level st)
    as (_ & _ & _ & [E|E]); rewrite E; [reflexivity|].
  rewrite error_events_app. cbn. lia.
Qed.

Lemma deliver_no_error (cs : list call) (st : state) :
  no_error_calls cs = true ->
  error_events (sent (fold_left deliver cs st)) = error_events (sent st).
Proof.
  revert st. induction cs as [|c cs IH]; intros st H; [reflexivity|].
  cbn [no_error_calls forallb] in H. apply andb_true_iff in H.
  destruct H as [Hc H]. apply negb_true_iff in Hc.
  cbn [fold_left]. rewrite (IH _ H).
  destruct c as [r|msg level]; cbn [Endpoint.deliver].
  - now apply handle_no_error.
  - apply send_log_no_error.
Qed.

Lemma after_session_no_error (r : Coordinator.result) (st : state) :
  not_raised r = true ->
  error_events (sent (Endpoint.after_session ws_accepts r st))
  = error_events (sent st).
Proof.
  destruct r; [reflexivity| |discriminate]. intros _.
  apply send_log_no_error.
Qed.

Lemma gemini_clean (es : list Session.event) (st : Endpoint.state) :
  forallb orderly es = true -> clean st -> clean (gemini es st).
Proof.
  intros Hor H. pose proof H as [He Hs]. unfold Endpoint.gemini.
  destruct (Endpoint.session st) as [s|] eqn:E; [|exact H].
  destruct (Hs s eq_refl) as [Hn0 Hu0].
  destruct (session_run_calls es s Hor Hn0 Hu0) as (Hn & Hu & new & Ec & Hne).
  split; cbn [Endpoint.client Endpoint.session].
  - assert (Hd : error_events
                   (sent (fold_left deliver
                            (Session.added (Session.calls s)
                               (Session.calls (Session.run s es)))
                            (Endpoint.client st))) = 0%nat).
    { rewrite Ec, added_app, (deliver_no_error _ _ Hne). exact He. }
    destruct (Endpoint.supervising s); [|exact Hd].
    now rewrite (after_session_no_error _ _ Hn).
  - intros s' Hs'. injection Hs' as <-. auto.
Qed.

Lemma settle_clean (st : Endpoint.state) :
  clean st -> clean (Endpoint.settle st).
Proof.
  intros [He Hs]. unfold clean.
  destruct (settle_fields st) as [-> ->]. auto.
Qed.

Lemma finally_clean (st : Endpoint.state) :
  clean st -> clean (Endpoint.finally_ ws_accepts st).
Proof.
  intro H. unfold Endpoint.finally_. apply settle_clean.
  apply gemini_clean; [reflexivity|].
  destruct H as [He Hs]. split; assumption.
Qed.

Lemma step_clean (st : Endpoint.state) (e : Endpoint.event) :
  log_returns e = true -> clean st -> clean (step st e).
Proof.
  intros Hor H. unfold Endpoint.step, Endpoint.recheck.
  destruct (Endpoint.at_ st); try assumption.
  - destruct e as [[|data| | | |]|e]; try (now apply finally_clean).
    + destruct (is_connected _); [now apply gemini_clean|].
      apply finally_clean. now apply gemini_clean.
    + destruct (is_connected _); [assumption|now apply finally_clean].
    + apply gemini_clean; [|assumption].
      cbn [forallb]. rewrite andb_true_r. exact Hor.
  - destruct e as [m|e]; [assumption|].
    destruct e; try assumption; apply settle_clean;
      (apply gemini_clean; [|assumption]);
      cbn [forallb]; rewrite andb_true_r; exact Hor.
Qed.

Lemma steps_clean (es : list Endpoint.event) (st : Endpoint.state) :
  forallb log_returns es = true -> clean st -> clean (fold_left step es st).
Proof.
  revert st. induction es as [|e es IH]; intros st Hor H; [assumption|].
  cbn [forallb] in Hor. apply andb_true_iff in Hor. destruct Hor as [He Hor].
  cbn [fold_left]. apply IH; [exact Hor|]. now apply step_clean.
Qed.

(** X23. Once the remote connection is opened, no Error event is written
    to the client by the endpoint as long as the log calls of the loops
    return, whatever the websocket does and whatever else happens: failed
    sends, closed connections, transient errors, cancellations and the
    teardown reach the client as log messages only. *)
Theorem opened_session_writes_no_error (c : ascii) (key : string)
    (es : list Endpoint.event) :
  forallb log_returns es = true ->
  error_events
    (sent (Endpoint.client
             (Endpoint.websocket_endpoint ws_accepts (String c key) None es)))
  = 0%nat.
Proof.
  intro Hor. unfold Endpoint.websocket_endpoint.
  destruct (send_text ws_accepts Msg_session_started initial)
    as [c0 [u|]] eqn:E.
  - assert (Hc0 : error_events (sent c0) = 0%nat).
    { unfold send_text in E. cbn [sent initial] in E.
      destruct (ws_accepts [] Msg_session_started); injection E as <- _;
        reflexivity. }
    apply steps_clean; [exact Hor|].
    split; cbn [Endpoint.client Endpoint.session].
    + rewrite after_session_no_error by reflexivity.
      rewrite deliver_no_error by reflexivity.
      now rewrite send_log_no_error.
    + intros s H. injection H as <-. repeat split.
  - unfold send_text in E. cbn [sent initial] in E.
    destruct (ws_accepts [] Msg_session_started); injection E as <-;
      reflexivity.
Qed.

End AnyWebsocket.

Lemma opened_session_writes_no_error_witness :
  error_events
    (Handler.sent
       (Endpoint.client
          (Endpoint.websocket_endpoint Handler.reliable "key" None
             [Endpoint.Client (Endpoint.Binary [x01]);
              Endpoint.Gemini
                (Session.SendTurn (Send.SendRaises "ConnectionClosed"));
              Endpoint.Gemini (Session.Receive (Receive.Raises "1008"));
              Endpoint.Gemini Session.Wake;
              Endpoint.Client Endpoint.Disconnect])))
  = 0%nat.
Proof.
  exact (opened_session_writes_no_error Handler.reliable "k" "ey"
           [Endpoint.Client (Endpoint.Binary [x01]);
            Endpoint.Gemini
              (Session.SendTurn (Send.SendRaises "ConnectionClosed"));
            Endpoint.Gemini (Session.Receive (Receive.Raises "1008"));
            Endpoint.Gemini Session.Wake;
            Endpoint.Client Endpoint.Disconnect] eq_refl).
Defined.

(** When a log call of a loop does raise, the fault reaches the client as
    an Error event: through the error callback of the receive loop, or, for
    the send loop, through the exception that leaves the session. *)
Example log_fault_writes_an_error :
  error_events
    (Handler.sent
       (Endpoint.client
          (Endpoint.websocket_endpoint Handler.reliable "key" None
             [Endpoint.Gemini
                (Session.Receive (Receive.LogRaises "503" "boom" None))])))
  = 1%nat
  /\ error_events
       (Handler.sent
          (Endpoint.client
             (Endpoint.websocket_endpoint Handler.reliable "key" None
                [Endpoint.Client (Endpoint.Binary [x01]);
                 Endpoint.Gemini
                   (Session.SendTurn (Send.SendFaults "503" "boom"));
                 Endpoint.Gemini Session.Wake])))
     = 1%nat.
Proof. split; reflexivity. Qed.

End ErrorsMore.

(* ===================================================================== *)
(** * Conservation whatever the websocket does                           *)
(* ===================================================================== *)

Module ConservationMore.
Import Handler HandlerFacts.

Section AnyWebsocket.
Variable ws_accepts : list message -> message -> bool.
Local Notation "'handle'" := (handle_gemini_response ws_accepts).
Local Notation "'run'" := (Handler.run ws_accepts).

(** One response, whether its sends succeed or not: the buffer is emptied
    exactly when its content has been written. *)
Lemma handle_conserves (st : state) (r : response) :
  is_connected st = true ->
  exists new,
    sent (handle st r) = sent st ++ new
    /\ pcm_of_log new ++ audio_buffer (handle st r)
       = audio_buffer st ++ audio_of r.
Proof.
  intro Hc. destruct st as [c k buf log]. cbn in Hc. subst c.
  destruct r as [d|t| | |e]; run_handler; cbn [audio_of].
  - destruct (BUFFER_TARGET_SIZE <=? len (buf ++ d)).
    + fold (frame (buf ++ d)). destruct (frame (buf ++ d)) as [w|] eqn:Ew; cbn.
      * destruct (ws_accepts log (Msg_audio w)); cbn.
        -- exists [Msg_audio w]. cbn [pcm_of_log flat_map pcm_of app].
           rewrite (frame_payload _ _ Ew).
           now rewrite !app_nil_r.
        -- exists []. now rewrite app_nil_r.
      * exists []. now rewrite app_nil_r.
    + exists []. cbn. now rewrite app_nil_r.
  - destruct (ws_accepts log (Msg_transcript t)); cbn;
      [exists [Msg_transcript t]|exists []]; cbn; now rewrite !app_nil_r.
  - destruct (0 <? len buf).
    + fold (frame buf). destruct (frame buf) as [w|] eqn:Ew; cbn.
      * destruct (ws_accepts log (Msg_audio w)); cbn.
        -- destruct (ws_accepts (log ++ [Msg_audio w]) Msg_assistant_silent);
             cbn.
           ++ exists [Msg_audio w; Msg_assistant_silent].
              rewrite <- app_assoc. cbn [pcm_of_log flat_map pcm_of app].
              rewrite (frame_payload _ _ Ew).
              now rewrite !app_nil_r.
           ++ exists [Msg_audio w]. cbn [pcm_of_log flat_map pcm_of app].
           rewrite (frame_payload _ _ Ew).
              now rewrite !app_nil_r.
        -- exists []. now rewrite !app_nil_r.
      * exists []. now rewrite !app_nil_r.
    + cbn. destruct (ws_accepts log Msg_assistant_silent); cbn;
        [exists [Msg_assistant_silent]|exists []]; cbn; now rewrite !app_nil_r.
  - destruct (ws_accepts log Msg_interrupted); cbn;
      [exists [Msg_interrupted]|exists []]; cbn; now rewrite !app_nil_r.
  - destruct (ws_accepts log (Msg_error e)); cbn;
      [exists [Msg_error e]|exists []]; cbn; now rewrite !app_nil_r.
Qed.

Lemma run_conserves (rs : list response) (st : state) :
  exists processed ignored new,
    rs = processed ++ ignored
    /\ sent (run st rs) = sent st ++ new
    /\ pcm_of_log new ++ audio_buffer (run st rs)
       = audio_buffer st ++ received processed
    /\ (is_connected (run st rs) = true -> ignored = []).
Proof.
  revert st. induction rs as [|r rs IH]; intro st.
  - exists [], [], []. cbn. rewrite !app_nil_r. auto.
  - destruct (is_connected st) eqn:Hc.
    + rewrite run_cons.
      destruct (handle_conserves st r Hc) as (new1 & Hs1 & Hp1).
      destruct (IH (handle st r)) as (processed & ignored & new2 & E & Hs2 & Hp2 & Hi).
      exists (r :: processed), ignored, (new1 ++ new2).
      split; [cbn; now rewrite E|]. split; [rewrite Hs2, Hs1; now rewrite app_assoc|].
      split; [|exact Hi].
      rewrite pcm_of_log_app, <- app_assoc, Hp2. cbn [received flat_map].
      rewrite !app_assoc. now rewrite Hp1.
    + exists [], (r :: rs), []. rewrite (run_disconnected ws_accepts _ _ Hc).
      cbn. rewrite !app_nil_r. repeat split. congruence.
Qed.

(** X24. No byte is lost, duplicated or reordered as long as the client
    is there, even when sends fail: after any sequence of responses, the PCM
    payloads of the Audio messages written, followed by the playback buffer,
    are the audio bytes of the responses up to the one on which the client
    was found gone; the responses after it are ignored, and none is when the
    client is still connected. *)
Theorem audio_is_conserved_until_disconnection (rs : list response) :
  exists processed ignored,
    rs = processed ++ ignored
    /\ pcm_of_log (sent (run initial rs)) ++ audio_buffer (run initial rs)
       = received processed
    /\ (is_connected (run initial rs) = true -> ignored = []).
Proof.
  destruct (run_conserves rs initial)
    as (processed & ignored & new & E & Hs & Hp & Hi).
  exists processed, ignored. rewrite Hs. cbn [sent initial app].
  cbn [audio_buffer initial app] in Hp. auto.
Qed.

End AnyWebsocket.
End ConservationMore.

(* ===================================================================== *)
(** * From the client to the remote model                                *)
(* ===================================================================== *)

Module UpstreamMore.
Import LoopFacts EndpointMore.

Section AnyWebsocket.
Variable ws_accepts : list Handler.message -> Handler.message -> bool.
Local Notation "'step'" := (Endpoint.step ws_accepts).

Lemma no_sentinel (fw : list bytes) (rest : list (option bytes))
    (chunks : list bytes) :
  map Some fw ++ None :: rest <> map Some chunks.
Proof.
  intro H.
  assert (Hin : In None (map Some chunks)).
  { rewrite <- H. apply in_or_app. right. now left. }
  apply in_map_iff in Hin. destruct Hin as (x & Hx & _). discriminate.
Qed.

Lemma binary_carries (st : Endpoint.state) (chunks : list bytes)
    (data : bytes) :
  carries st chunks ->
  carries (step st (Endpoint.Client (Endpoint.Binary data))) (chunks ++ [data]).
Proof.
  intros (Hat & Hc & s & Hs & Ho & Ht & Hsd & Hq).
  destruct st as [c sess cl ph]. cbn in Hat, Hc, Hs. subst ph sess.
  destruct s as [sd [sd1 q n f t1 cs1 w ft] rcv cs acts o].
  cbn in Ho, Ht, Hsd, Hq. subst o t1 sd1.
  unfold Endpoint.step, Endpoint.recheck, Endpoint.gemini.
  cbn [Endpoint.at_ Endpoint.session Endpoint.client Endpoint.closed
       Session.run fold_left Session.step Session.outcome Session.calls
       Session.send Session.receive Session.shutdown_event Session.actions].
  rewrite added_same. cbn [fold_left Endpoint.supervising Session.outcome
    Endpoint.after_session Endpoint.client]. rewrite Hc.
  split; [reflexivity|]. split; [exact Hc|].
  eexists. split; [reflexivity|]. cbn. repeat split.
  rewrite app_assoc, Hq, map_app. reflexivity.
Qed.

Lemma sent_turn_carries (st : Endpoint.state) (chunks : list bytes) :
  carries st chunks ->
  carries (step st (Endpoint.Gemini (Session.SendTurn Send.Sent))) chunks.
Proof.
  intros (Hat & Hc & s & Hs & Ho & Ht & Hsd & Hq).
  destruct st as [c sess cl ph]. cbn in Hat, Hc, Hs. subst ph sess.
  destruct s as [sd [sd1 q n f t1 cs1 w ft] rcv cs acts o].
  cbn in Ho, Ht, Hsd, Hq. subst o t1 sd1.
  unfold Endpoint.step, Endpoint.gemini.
  cbn [Endpoint.at_ Endpoint.session Endpoint.client Endpoint.closed
       Session.run fold_left Session.step Session.outcome Session.calls
       Session.send Session.receive Session.shutdown_event Session.actions].
  assert (E : Send.step (Send.mkState false q n f Running cs1 w ft)
                (Send.Turn Send.Sent)
              = Send.after_get Send.Sent
                  (Send.mkState false q n f Running cs1 w ft))
    by (cbn; unfold Send.turn; cbn; destruct w; reflexivity).
  rewrite E. clear E. unfold Send.after_get. cbn [Send.audio_queue].
  destruct q as [|[d|] rest]; [| |now destruct (no_sentinel _ _ _ Hq)].
  - cbn [Send.set_waiting Send.calls Send.shutdown_event].
    rewrite added_same, app_nil_r, added_same.
    cbn [fold_left Endpoint.supervising Session.outcome
         Endpoint.after_session].
    split; [reflexivity|]. split; [exact Hc|].
    eexists. split; [reflexivity|]. cbn. repeat split. exact Hq.
  - cbn [Send.set_waiting Send.calls Send.shutdown_event Send.forward
         Send.set_queue].
    rewrite added_same, app_nil_r, added_same.
    cbn [fold_left Endpoint.supervising Session.outcome
         Endpoint.after_session].
    split; [reflexivity|]. split; [exact Hc|].
    eexists. split; [reflexivity|]. cbn. repeat split.
    rewrite map_app, <- app_assoc. exact Hq.
Qed.

Lemma send_wait_carries (st : Endpoint.state) (chunks : list bytes) :
  carries st chunks ->
  carries (step st (Endpoint.Gemini Session.SendWait)) chunks.
Proof.
  intros (Hat & Hc & s & Hs & Ho & Ht & Hsd & Hq).
  destruct st as [c sess cl ph]. cbn in Hat, Hc, Hs. subst ph sess.
  destruct s as [sd [sd1 q n f t1 cs1 w ft] rcv cs acts o].
  cbn in Ho, Ht, Hsd, Hq. subst o t1 sd1.
  unfold Endpoint.step, Endpoint.gemini.
  cbn [Endpoint.at_ Endpoint.session Endpoint.client Endpoint.closed
       Session.run fold_left Session.step Session.outcome Session.calls
       Session.send Session.receive Session.shutdown_event Session.actions].
  rewrite added_same.
  cbn [fold_left Endpoint.supervising Session.outcome Endpoint.after_session].
  split; [reflexivity|]. split; [exact Hc|].
  eexists. split; [reflexivity|].
  destruct w; cbn; repeat split; exact Hq.
Qed.

Lemma upstream_carries (es : list Endpoint.event) (st : Endpoint.state)
    (chunks : list bytes) :
  carries st chunks ->
  forallb upstream es = true ->
  carries (fold_left step es st) (chunks ++ binaries es).
Proof.
  revert st chunks. induction es as [|e es IH]; intros st chunks H Hup.
  - cbn. now rewrite app_nil_r.
  - cbn [forallb] in Hup. apply andb_true_iff in Hup. destruct Hup as [He Hup].
    cbn [fold_left binaries flat_map].
    destruct e as [[|data| | | |]|[[| | |]| | | | | |]]; try discriminate.
    + rewrite app_assoc. apply IH; [|exact Hup]. now apply binary_carries.
    + cbn [app]. apply IH; [|exact Hup]. now apply sent_turn_carries.
    + cbn [app]. apply IH; [|exact Hup]. now apply send_wait_carries.
Qed.

End AnyWebsocket.

(** X25. Audio is conserved from the client to the remote model: with a
    credential, an opened connection and a client that takes every message,
    while the client sends binary messages and the sends of the send loop
    succeed, in any interleaving, the chunks forwarded to the remote session
    followed by the chunks still queued are the binary messages received, in
    order. *)
Theorem client_audio_is_conserved (c : ascii) (key : string)
    (es : list Endpoint.event) :
  forallb upstream es = true ->
  exists s,
    Endpoint.session
      (Endpoint.websocket_endpoint Handler.reliable (String c key) None es)
    = Some s
    /\ Send.task (Session.send s) = Running
    /\ map Some (Send.forwarded (Session.send s))
         ++ Send.audio_queue (Session.send s)
       = map Some (binaries es).
Proof.
  intro Hup. unfold Endpoint.websocket_endpoint, Handler.send_text.
  cbn [Handler.sent Handler.initial].
  change (Handler.reliable [] Handler.Msg_session_started) with true.
  cbn iota beta.
  match goal with
  | |- context [fold_left _ es ?s0] => set (st0 := s0)
  end.
  assert (H0 : carries st0 []).
  { split; [reflexivity|]. split; [reflexivity|].
    eexists. split; [reflexivity|]. repeat split. }
  destruct (upstream_carries Handler.reliable es st0 [] H0 Hup)
    as (_ & _ & s & Hs & _ & Ht & _ & Hq).
  exists s. auto.
Qed.

Lemma client_audio_is_conserved_witness :
  exists s,
    Endpoint.session
      (Endpoint.websocket_endpoint Handler.reliable "key" None
         [Endpoint.Client (Endpoint.Binary [x01]);
          Endpoint.Client (Endpoint.Binary [x02]);
          Endpoint.Gemini (Session.SendTurn Send.Sent);
          Endpoint.Client (Endpoint.Binary [x03])])
    = Some s
    /\ Send.task (Session.send s) = Running
    /\ map Some (Send.forwarded (Session.send s))
         ++ Send.audio_queue (Session.send s)
       = map Some
           (binaries
              [Endpoint.Client (Endpoint.Binary [x01]);
               Endpoint.Client (Endpoint.Binary [x02]);
               Endpoint.Gemini (Session.SendTurn Send.Sent);
               Endpoint.Client (Endpoint.Binary [x03])]).
Proof.
  apply (client_audio_is_conserved "k" "ey"
           [Endpoint.Client (Endpoint.Binary [x01]);
            Endpoint.Client (Endpoint.Binary [x02]);
            Endpoint.Gemini (Session.SendTurn Send.Sent);
            Endpoint.Client (Endpoint.Binary [x03])]).
  reflexivity.
Defined.

End UpstreamMore.
